(** * restore_from_backup.py: a shallow embedding and its specification

    The program restores the data of one of two applications (crm, sales)
    from a zip archive: it detects the application, resolves the destination
    data directory and database path, and either reports what it would do
    (dry run) or extracts the archive into a temporary directory and copies
    the database file and the storage tree into place.

    Modelling choices, in one place:
    - a file system is a finite map from absolute paths (lists of components)
      to nodes, a node being a regular file (bytes, modification time) or a
      directory; symbolic links, permissions and device errors are outside
      the model (zipfile.extractall creates regular files and directories
      only);
    - a pathlib.Path is a record (root, parts), the root being none, a
      slash or the double slash pathlib keeps apart; the file system is
      reached through [locate], which prefixes the working directory to a
      relative path. [locate] does not interpret a [..] component, which
      the file system resolves against the directories that exist: a
      statement that depends on what a location denotes is made for
      locations without one ([plain]);
    - the command line is parsed by [parse_args], a partial function: it
      covers the long spellings of the four options and is undefined on the
      other strings that start with a dash (abbreviations, single-dash
      strings, the help options); [cli] is the script from the command line
      on, [main] the part of it that follows the parsing;
    - code that raises is a computation in a state-and-exception monad; the
      state carries the file system and the two output streams, and the state
      reached when an exception is raised is kept (no rollback);
    - what the host provides (environment variables, working directory, the
      user database, the clock, the name chosen by mkdtemp, and the values of
      the two collaborators get_storage_dir() and load_config().data_dir) is a
      record [Host]; the zip container decoder and str.__repr__ are
      parameters of the development. *)

From Stdlib Require Import ZArith Ascii String.
From Stdlib.Strings Require Import Byte.
From stdpp Require Import base option list gmap strings fin_maps sorting.

Local Open Scope Z_scope.

(* ===================================================================== *)
(** * Python strings *)
(* ===================================================================== *)

Module Str.

(** [s.startswith(p)] *)
Fixpoint startswith (s p : string) {struct p} : bool :=
  match p, s with
  | EmptyString, _ => true
  | String a p', String b s' => bool_decide (a = b) && startswith s' p'
  | String _ _, EmptyString => false
  end.

(** [s[n:]] *)
Fixpoint drop (n : nat) (s : string) : string :=
  match n, s with
  | O, _ => s
  | S n', String _ s' => drop n' s'
  | S _, EmptyString => EmptyString
  end.

(** [s[:n]] *)
Fixpoint take (n : nat) (s : string) : string :=
  match n, s with
  | O, _ => EmptyString
  | S n', String a s' => String a (take n' s')
  | S _, EmptyString => EmptyString
  end.

(** [s.endswith(p)] *)
Definition endswith (s p : string) : bool :=
  bool_decide (drop (String.length s - String.length p)%nat s = p).

(** [c in s] for a one-character [c] *)
Fixpoint contains (c : ascii) (s : string) : bool :=
  match s with
  | EmptyString => false
  | String a s' => bool_decide (a = c) || contains c s'
  end.

(** [s.rfind(c)] for a one-character [c]; [None] stands for -1 *)
Fixpoint rfind (c : ascii) (s : string) : option nat :=
  match s with
  | EmptyString => None
  | String a s' =>
      match rfind c s' with
      | Some i => Some (S i)
      | None => if bool_decide (a = c) then Some O else None
      end
  end.

(** [s.split(c)] for a one-character separator [c] *)
Fixpoint split (c : ascii) (s : string) : list string :=
  match s with
  | EmptyString => [EmptyString]
  | String a s' =>
      if bool_decide (a = c) then EmptyString :: split c s'
      else match split c s' with
           | [] => [String a EmptyString]
           | h :: t => String a h :: t
           end
  end.

(** [sep.join(l)] *)
Fixpoint join (sep : string) (l : list string) : string :=
  match l with
  | [] => EmptyString
  | [x] => x
  | x :: l' => x +:+ sep +:+ join sep l'
  end.

(** decimal digits of a natural number, as [str(n)] prints them *)
Definition digit (n : nat) : ascii := ascii_of_nat (48 + n mod 10).
Global Arguments digit : simpl never.

Fixpoint dec_go (fuel n : nat) (acc : string) : string :=
  match fuel with
  | O => acc
  | S f =>
      let acc' := String (digit n) acc in
      if (n <? 10)%nat then acc' else dec_go f (n / 10) acc'
  end.

Definition dec (n : nat) : string := dec_go (S n) n EmptyString.

(** a two-digit, zero-padded field *)
Definition pad2 (n : nat) : string :=
  String (digit (n / 10)) (String (digit n) EmptyString).

End Str.

(* ===================================================================== *)
(** * pathlib.Path, POSIX flavour *)
(* ===================================================================== *)

(** The root of a path: a single slash, the double slash that POSIX leaves to
    the implementation and pathlib keeps apart (three slashes or more count
    as one), or none for a relative path. *)
Inductive anchor := rooted (double : bool) | unrooted.

Global Instance anchor_eq_dec : EqDecision anchor.
Proof. solve_decision. Defined.

Record Path := mkPath { anchored : anchor; parts : list string }.

Global Instance Path_eq_dec : EqDecision Path.
Proof. solve_decision. Defined.

(** A component kept by the parser: not empty, and not the current-directory
    dot. *)
Definition keeps (c : string) : bool :=
  negb (bool_decide (c = "")) && negb (bool_decide (c = ".")).

(** [Path(s)] *)
Definition Path_of (s : string) : Path :=
  {| anchored := if Str.startswith s "/"
                 then rooted (Str.startswith s "//" && negb (Str.startswith s "///"))
                 else unrooted;
     parts := filter (λ c, keeps c = true) (Str.split "/" s) |}.

(** [str(p)] *)
Definition str (p : Path) : string :=
  match anchored p with
  | rooted double => (if double then "//" else "/") +:+ Str.join "/" (parts p)
  | unrooted =>
      match parts p with
      | [] => "."
      | _ => Str.join "/" (parts p)
      end
  end.

(** [p / q] for a path [q]: an anchored right operand replaces the left one *)
Definition joinpath (p q : Path) : Path :=
  match anchored q with
  | rooted _ => q
  | unrooted => {| anchored := anchored p; parts := parts p ++ parts q |}
  end.

(** [p / s] for a string [s] *)
Definition div (p : Path) (s : string) : Path := joinpath p (Path_of s).

(** [p.name] *)
Definition name (p : Path) : string := List.last (parts p) "".

(** [p.parent] *)
Definition parent (p : Path) : Path :=
  {| anchored := anchored p; parts := removelast (parts p) |}.

(** [p.suffix], computed from the name as pathlib does:
    [i = name.rfind('.')], and the suffix is [name[i:]] when
    [0 < i < len(name) - 1], else the empty string. *)
Definition suffix_of (nm : string) : string :=
  match Str.rfind "." nm with
  | Some i =>
      if bool_decide (0 < i)%nat && bool_decide (i < String.length nm - 1)%nat
      then Str.drop i nm else ""
  | None => ""
  end.

Definition suffix (p : Path) : string := suffix_of (name p).

(* ===================================================================== *)
(** * Exceptions and results *)
(* ===================================================================== *)

Inductive exn :=
| FileNotFoundError | FileExistsError | NotADirectoryError | IsADirectoryError
| SameFileError | ValueError | RuntimeError | BadZipFile.

Inductive result (A : Type) :=
| Ok (a : A)
| Raise (e : exn).
Arguments Ok {A} a.
Arguments Raise {A} e.

Global Instance result_ret : MRet result := λ A a, Ok a.
Global Instance result_bind : MBind result := λ A B k r,
  match r with
  | Ok a => k a
  | Raise e => Raise e
  end.

(** [p.with_suffix(suffix)] *)
Definition with_suffix (p : Path) (sfx : string) : result Path :=
  if Str.contains "/" sfx then Raise ValueError
  else if (negb (bool_decide (sfx = "")) && negb (Str.startswith sfx "."))
          || bool_decide (sfx = ".")
  then Raise ValueError
  else
    let nm := name p in
    if bool_decide (nm = "") then Raise ValueError
    else
      let old_suffix := suffix p in
      let nm' :=
        if bool_decide (old_suffix = "") then nm +:+ sfx
        else Str.take (String.length nm - String.length old_suffix) nm +:+ sfx in
      Ok {| anchored := anchored p; parts := removelast (parts p) ++ [nm'] |}.

(* ===================================================================== *)
(** * The file system *)
(* ===================================================================== *)

(** An absolute location: the components below the root. *)
Definition path := list string.

Inductive node :=
| File (data : list byte) (mtime : Z)
| Dir.

Global Instance byte_eq_dec : EqDecision byte := Byte.byte_eq_dec.

Global Instance node_eq_dec : EqDecision node.
Proof. solve_decision. Defined.

Abbreviation tree := (gmap path node).

(** [os.path.exists], [os.path.isdir], [os.path.isfile] *)
Definition exists_ (m : tree) (p : path) : bool := bool_decide (is_Some (m !! p)).
Definition is_dir (m : tree) (p : path) : bool := bool_decide (m !! p = Some Dir).
Definition is_file (m : tree) (p : path) : bool :=
  match m !! p with
  | Some (File _ _) => true
  | _ => false
  end.

(** [p.relative_to(base)] on locations; [None] when [base] is not above [p] *)
Fixpoint relative_to (p base : path) {struct base} : option path :=
  match base, p with
  | [], _ => Some p
  | b :: base', x :: p' => if decide (b = x) then relative_to p' base' else None
  | _ :: _, [] => None
  end.

(** What a recursive removal of [root] leaves. *)
Definition rmtree (root : path) (m : tree) : tree :=
  filter (λ kv, ¬ root `prefix_of` kv.1) m.

(** [p] is directly inside [d] and its name matches [*.db]. pathlib's
    pattern match is case sensitive and its star also matches a leading dot,
    so the test is: the name ends with [.db]. *)
Definition db_child (d p : path) : bool :=
  match relative_to p d with
  | Some [x] => Str.endswith x ".db"
  | _ => false
  end.

(** [p] is strictly below [d], at any depth. *)
Definition below (d p : path) : bool :=
  match relative_to p d with
  | Some (_ :: _) => true
  | _ => false
  end.

(** [d.glob("*.db")]: nothing when [d] is not a directory. The order of the
    listing is the map's. *)
Definition glob_db (m : tree) (d : path) : list path :=
  if is_dir m d then filter (λ p, db_child d p = true) (elements (dom m))
  else [].

(** [d.rglob("*")]: every entry strictly below [d]; nothing when [d] is not
    a directory. *)
Definition rglob (m : tree) (d : path) : list path :=
  if is_dir m d then filter (λ p, below d p = true) (elements (dom m))
  else [].

(** The order of Path objects below one anchor: the order of Python lists of
    strings, component by component, a proper prefix first. *)
Fixpoint path_leb (p q : path) : bool :=
  match p, q with
  | [], _ => true
  | _ :: _, [] => false
  | a :: p', b :: q' => if decide (a = b) then path_leb p' q' else String.ltb a b
  end.

Definition path_le (p q : path) : Prop := path_leb p q = true.

Global Instance path_le_dec : RelDecision path_le.
Proof. intros p q. unfold path_le. apply _. Defined.

(** [sorted(l)] for a list of paths *)
Definition sorted (l : list path) : list path := merge_sort path_le l.

(* ===================================================================== *)
(** * The state-and-exception monad *)
(* ===================================================================== *)

Record state := mkState {
  files : tree;
  stdout : list string;
  stderr : list string
}.

Definition set_files (f : tree → tree) (s : state) : state :=
  {| files := f (files s); stdout := stdout s; stderr := stderr s |}.

Definition M (A : Type) : Type := state → result A * state.

Global Instance M_ret : MRet M := λ A a s, (Ok a, s).
Global Instance M_bind : MBind M := λ A B k m s,
  match m s with
  | (Ok a, s') => k a s'
  | (Raise e, s') => (Raise e, s')
  end.

Definition raise {A} (e : exn) : M A := λ s, (Raise e, s).
Definition lift {A} (r : result A) : M A := λ s, (r, s).
Definition gets {A} (f : tree → A) : M A := λ s, (Ok (f (files s)), s).
Definition modify (f : tree → tree) : M unit := λ s, (Ok (), set_files f s).

(** [print(line)] and [print(line, file=sys.stderr)] *)
Definition print (line : string) : M unit := λ s,
  (Ok (), {| files := files s; stdout := stdout s ++ [line]; stderr := stderr s |}).
Definition print_err (line : string) : M unit := λ s,
  (Ok (), {| files := files s; stdout := stdout s; stderr := stderr s ++ [line] |}).

(** [for x in l: body(x)] *)
Fixpoint for_each {A} (l : list A) (body : A → M unit) : M unit :=
  match l with
  | [] => mret ()
  | x :: l' => body x ;; for_each l' body
  end.

(* ===================================================================== *)
(** * File-system operations *)
(* ===================================================================== *)

(** One step of directory creation: an existing directory is accepted
    ([exist_ok]), a regular file in the way raises, a missing entry is
    created. [last] tells the final component from an intermediate one, for
    the exception raised. *)
Definition mkdir_one (last : bool) (p : path) : M unit := λ s,
  match files s !! p with
  | Some Dir => (Ok (), s)
  | Some (File _ _) =>
      (Raise (if last then FileExistsError else NotADirectoryError), s)
  | None => (Ok (), set_files (insert p Dir) s)
  end.

(** [p.mkdir(parents=True, exist_ok=True)] and [os.makedirs(p)]. pathlib tries
    the last component first and recurses into the parent when it is missing;
    on a tree-shaped file system that creates the missing components from
    the top, which is how it is written here: [pre] is the part of the path
    already visited, [rest] what remains. *)
Fixpoint makedirs_from (pre : path) (rest : list string) : M unit :=
  match rest with
  | [] => mkdir_one true pre
  | x :: rest' => mkdir_one false pre ;; makedirs_from (pre ++ [x]) rest'
  end.

Definition mkdir_parents (p : path) : M unit := makedirs_from [] p.

(** [open(p, "wb")], writing [data], the file's time set to [t]: the parent
    must be a directory and [p] must not be one. *)
Definition write_file (p : path) (data : list byte) (t : Z) : M unit := λ s,
  if is_dir (files s) p then (Raise IsADirectoryError, s)
  else match files s !! removelast p with
       | Some Dir => (Ok (), set_files (insert p (File data t)) s)
       | Some (File _ _) => (Raise NotADirectoryError, s)
       | None => (Raise FileNotFoundError, s)
       end.

(** [shutil.copy2(src, dst)]: when [dst] is a directory the file goes inside
    it under the source's base name; content and modification time are those
    of the source. Returns where the file was written. *)
Definition copy2 (src dst : path) : M path := λ s,
  let dst' := if is_dir (files s) dst then dst ++ [List.last src ""] else dst in
  if bool_decide (src = dst') && exists_ (files s) src
  then (Raise SameFileError, s)
  else match files s !! src with
       | None => (Raise FileNotFoundError, s)
       | Some Dir => (Raise IsADirectoryError, s)
       | Some (File data t) => (write_file dst' data t ;; mret dst') s
       end.

(** The loop of [_copy_tree] over the listing [l], [copied] being the list
    built so far. *)
Fixpoint _copy_tree_loop (source destination : path) (l copied : list path)
    : M (list path) :=
  match l with
  | [] => mret copied
  | p :: l' =>
      isf ← gets (λ m, is_file m p);
      if isf : bool then
        match relative_to p source with
        | Some rel =>
            let target := destination ++ rel in
            mkdir_parents (removelast target) ;;
            copy2 p target ;;
            _copy_tree_loop source destination l' (copied ++ [target])
        | None => raise ValueError
        end
      else _copy_tree_loop source destination l' copied
  end.

(** [_copy_tree(source, destination)]. The listing of [source] is taken when
    the loop starts; the list returned holds the targets computed by the loop,
    in the order visited. *)
Definition _copy_tree (source destination : path) : M (list path) :=
  listing ← gets (λ m, rglob m source);
  _copy_tree_loop source destination listing [].

(* ===================================================================== *)
(** * Archives, arguments and the host *)
(* ===================================================================== *)

(** A member of a zip archive: its name and its decompressed bytes. A member
    is a directory when its name ends with a slash. *)
Record ZipInfo := mkZipInfo { filename : string; payload : list byte }.

Definition zi_is_dir (z : ZipInfo) : bool := Str.endswith (filename z) "/".

(** [archive.namelist()] *)
Definition namelist (archive : list ZipInfo) : list string := filename <$> archive.

(** The components under which a member is written below the extraction
    directory: zipfile splits the name at slashes and drops the empty, [.]
    and [..] components. *)
Definition member_parts (nm : string) : list string :=
  filter (λ c, c ≠ "" ∧ c ≠ "." ∧ c ≠ "..") (Str.split "/" nm).

Inductive app := crm | sales.

Global Instance app_eq_dec : EqDecision app.
Proof. solve_decision. Defined.

(** The value printed for an application, and accepted by [--app]. *)
Definition app_name (a : app) : string :=
  match a with
  | crm => "crm"
  | sales => "sales"
  end.

(** The parsed command line: [--backup] (required), [--app] (one of the two
    choices, or absent), [--data-dir] (absent or any string), [--dry-run]. *)
Record Args := mkArgs {
  backup : string;
  app_arg : option app;
  data_dir_arg : option string;
  dry_run : bool
}.

(** ** The command line (lines 79 to 98)

    [parser.parse_args()] on the long spellings of the four options. The
    argument strings are classified as argparse does before it consumes any:
    one that is empty or does not start with a dash is a positional; the
    exact option strings and the [--option=value] forms of the three valued
    options are options. Every other string that starts with a dash (an
    abbreviation, a single-dash string, [--dry-run=...], [-h], [--help],
    [--]) is left outside the model: [parse_args] is [None] on a command
    line that holds one. *)
Inductive option_name := opt_backup | opt_app | opt_data_dir.

Global Instance option_name_eq_dec : EqDecision option_name.
Proof. solve_decision. Defined.

Inductive token :=
| tok_dry_run
| tok_option (o : option_name)
| tok_option_eq (o : option_name) (value : string)
| tok_positional (value : string)
| tok_other.

Global Instance token_eq_dec : EqDecision token.
Proof. solve_decision. Defined.

Definition classify (arg : string) : token :=
  if decide (arg = "--dry-run") then tok_dry_run
  else if decide (arg = "--backup") then tok_option opt_backup
  else if decide (arg = "--app") then tok_option opt_app
  else if decide (arg = "--data-dir") then tok_option opt_data_dir
  else if Str.startswith arg "--backup=" then tok_option_eq opt_backup (Str.drop 9 arg)
  else if Str.startswith arg "--app=" then tok_option_eq opt_app (Str.drop 6 arg)
  else if Str.startswith arg "--data-dir=" then tok_option_eq opt_data_dir (Str.drop 11 arg)
  else if Str.startswith arg "-" then tok_other
  else tok_positional arg.

(** The ways [parser.error] is reached; each prints the usage and a message
    on the error stream and exits with status 2. *)
Inductive usage_error :=
| expected_one_argument (o : option_name)
| invalid_choice (value : string)
| required_missing
| unrecognized_arguments (extras : list string).

(** The namespace while the command line is consumed, with the strings left
    over. *)
Record Namespace := mkNamespace {
  ns_backup : option string;
  ns_app : option app;
  ns_data_dir : option string;
  ns_dry_run : bool;
  ns_extras : list string
}.

Definition empty_namespace : Namespace :=
  {| ns_backup := None; ns_app := None; ns_data_dir := None;
     ns_dry_run := false; ns_extras := [] |}.

(** Storing the value of a valued option; [--app] checks its choices. *)
Definition store (o : option_name) (value : string) (ns : Namespace)
    : usage_error + Namespace :=
  match o with
  | opt_backup =>
      inr {| ns_backup := Some value; ns_app := ns_app ns;
             ns_data_dir := ns_data_dir ns; ns_dry_run := ns_dry_run ns;
             ns_extras := ns_extras ns |}
  | opt_app =>
      if decide (value = "crm") then
        inr {| ns_backup := ns_backup ns; ns_app := Some crm;
               ns_data_dir := ns_data_dir ns; ns_dry_run := ns_dry_run ns;
               ns_extras := ns_extras ns |}
      else if decide (value = "sales") then
        inr {| ns_backup := ns_backup ns; ns_app := Some sales;
               ns_data_dir := ns_data_dir ns; ns_dry_run := ns_dry_run ns;
               ns_extras := ns_extras ns |}
      else inl (invalid_choice value)
  | opt_data_dir =>
      inr {| ns_backup := ns_backup ns; ns_app := ns_app ns;
             ns_data_dir := Some value; ns_dry_run := ns_dry_run ns;
             ns_extras := ns_extras ns |}
  end.

(** The strings are consumed from the left: an option takes the positional
    that follows it, or its [=value]; a positional on its own is left over;
    the first error met ends the parse. *)
Fixpoint consume (tokens : list token) (ns : Namespace) : usage_error + Namespace :=
  match tokens with
  | [] => inr ns
  | tok_dry_run :: rest =>
      consume rest {| ns_backup := ns_backup ns; ns_app := ns_app ns;
                      ns_data_dir := ns_data_dir ns; ns_dry_run := true;
                      ns_extras := ns_extras ns |}
  | tok_option_eq o value :: rest =>
      match store o value ns with
      | inl e => inl e
      | inr ns' => consume rest ns'
      end
  | tok_option o :: tok_positional value :: rest =>
      match store o value ns with
      | inl e => inl e
      | inr ns' => consume rest ns'
      end
  | tok_option o :: _ => inl (expected_one_argument o)
  | tok_positional value :: rest =>
      consume rest {| ns_backup := ns_backup ns; ns_app := ns_app ns;
                      ns_data_dir := ns_data_dir ns; ns_dry_run := ns_dry_run ns;
                      ns_extras := ns_extras ns ++ [value] |}
  | tok_other :: rest => consume rest ns
  end.

Inductive parse_result := Parsed (args : Args) | Rejected (e : usage_error).

(** [parser.parse_args()]: after the strings are consumed, a missing
    [--backup] is reported before any string left over. *)
Definition parse_args (argv : list string) : option parse_result :=
  let tokens := classify <$> argv in
  if bool_decide (tok_other ∈ tokens) then None
  else Some
    match consume tokens empty_namespace with
    | inl e => Rejected e
    | inr ns =>
        match ns_backup ns with
        | None => Rejected required_missing
        | Some b =>
            match ns_extras ns with
            | [] => Parsed {| backup := b; app_arg := ns_app ns;
                              data_dir_arg := ns_data_dir ns;
                              dry_run := ns_dry_run ns |}
            | _ :: _ => Rejected (unrecognized_arguments (ns_extras ns))
            end
        end
    end.

(** [time.localtime()] *)
Record tm := mkTm {
  tm_year : nat; tm_mon : nat; tm_mday : nat;
  tm_hour : nat; tm_min : nat; tm_sec : nat
}.

(** [time.strftime("%Y%m%d_%H%M%S", t)] *)
Definition strftime (t : tm) : string :=
  Str.dec (tm_year t) +:+ Str.pad2 (tm_mon t) +:+ Str.pad2 (tm_mday t) +:+ "_"
  +:+ Str.pad2 (tm_hour t) +:+ Str.pad2 (tm_min t) +:+ Str.pad2 (tm_sec t).

(** What the process finds around it. [userhome] is os.path.expanduser on a
    first component that starts with a tilde: the home directory, or [None]
    when it cannot be determined. [get_storage_dir] and
    [load_config_data_dir] are the values returned by the collaborators
    [storage_paths.get_storage_dir()] and [ps_sales.load_config().data_dir],
    neither of which is part of this program; each is given by its string
    form and taken to return without touching the file system. [clock]
    stamps the files the process creates, [localtime] is what strftime
    reads, and [mkdtemp_path] is the directory name tempfile chooses. *)
Record Host := mkHost {
  environ : gmap string string;
  cwd : path;
  userhome : string → option string;
  get_storage_dir : string;
  load_config_data_dir : string;
  localtime : tm;
  clock : Z;
  mkdtemp_path : path
}.

Definition CRM_EXPORT_MARKER : string := "exports/ps_crm.sql".
Definition SALES_EXPORT_MARKER : string := "exports/ps_sales.sql".

(** [_detect_app(archive)] *)
Definition _detect_app (archive : list ZipInfo) : option app :=
  let names : gset string := list_to_set (namelist archive) in
  if decide (CRM_EXPORT_MARKER ∈ names) then Some crm
  else if decide (SALES_EXPORT_MARKER ∈ names) then Some sales
  else None.

(** [args.app or _detect_app(archive)]: the archive is consulted only when
    no application was given. *)
Definition resolve_app (explicit : option app) (archive : list ZipInfo) : option app :=
  match explicit with
  | Some a => Some a
  | None => _detect_app archive
  end.

(** [if x:] on an optional string: [None] and the empty string are false. *)
Definition truthy (o : option string) : bool :=
  match o with
  | Some s => negb (bool_decide (s = ""))
  | None => false
  end.

Section Program.

(** The zip container decoder ([None]: not a zip file) and [repr] on
    strings. *)
Variable read_zip : list byte → option (list ZipInfo).
Variable repr : string → string.
Variable h : Host.

(** Where a Path points in the file system. *)
Definition locate (p : Path) : path :=
  match anchored p with
  | rooted _ => parts p
  | unrooted => cwd h ++ parts p
  end.

(** [os.getenv(key, default)] *)
Definition getenv (key default_ : string) : string :=
  default default_ (environ h !! key).

(** [p.expanduser()]: a relative path whose first component starts with a
    tilde has that component replaced by the home directory; RuntimeError
    when the home directory cannot be determined. *)
Definition expanduser (p : Path) : result Path :=
  match anchored p, parts p with
  | unrooted, first :: rest =>
      if Str.startswith first "~" then
        match userhome h first with
        | Some home => Ok (joinpath (Path_of home) (mkPath unrooted rest))
        | None => Raise RuntimeError
        end
      else Ok p
  | _, _ => Ok p
  end.

(** [_crm_paths(data_dir_override)] *)
Definition _crm_paths (data_dir_override : option string) : result (Path * Path) :=
  base_dir ←
    (if truthy data_dir_override
     then expanduser (Path_of (default "" data_dir_override))
     else Ok (Path_of (getenv "APP_STORAGE_DIR" (get_storage_dir h))));
  let db_path := Path_of (getenv "DB_PATH" (str (div base_dir "ps_crm.db"))) in
  mret (base_dir, db_path).

(** [_sales_paths(data_dir_override)] *)
Definition _sales_paths (data_dir_override : option string) : result (Path * Path) :=
  data_dir ←
    (if truthy data_dir_override
     then expanduser (Path_of (default "" data_dir_override))
     else Ok (Path_of (load_config_data_dir h)));
  let db_url := getenv "PS_SALES_DB_URL" "" in
  let prefix := "sqlite:///" in
  let db_path :=
    if negb (bool_decide (db_url = "")) then
      if Str.startswith db_url prefix
      then Path_of (Str.drop (String.length prefix) db_url)
      else Path_of db_url
    else div data_dir "ps_sales.db" in
  mret (data_dir, db_path).

(** [_crm_paths(d) if app == "crm" else _sales_paths(d)] (line 113) *)
Definition paths_for (a : app) (data_dir_override : option string) : result (Path * Path) :=
  match a with
  | crm => _crm_paths data_dir_override
  | sales => _sales_paths data_dir_override
  end.

(** [_backup_existing_db(db_path)] *)
Definition _backup_existing_db (db_path : Path) : M (option Path) :=
  ex ← gets (λ m, exists_ m (locate db_path));
  if negb (ex : bool) then mret None
  else
    let timestamp := strftime (localtime h) in
    backup_path ← lift (with_suffix db_path (suffix db_path +:+ ".bak_" +:+ timestamp));
    mkdir_parents (locate (parent backup_path)) ;;
    copy2 (locate db_path) (locate backup_path) ;;
    mret (Some backup_path).

(** [zipfile.ZipFile(p, "r")]: the members of the archive stored at [p]. *)
Definition ZipFile (p : path) : M (list ZipInfo) := λ s,
  match files s !! p with
  | None => (Raise FileNotFoundError, s)
  | Some Dir => (Raise IsADirectoryError, s)
  | Some (File data _) =>
      match read_zip data with
      | Some members => (Ok members, s)
      | None => (Raise BadZipFile, s)
      end
  end.

(** Extraction of one member below [dest]: the directories above the target
    are created when missing; a directory member is created unless it is
    already a directory; a file member is written, replacing a file of the
    same name. *)
Definition extract_member (dest : path) (z : ZipInfo) : M unit :=
  let targetpath := dest ++ member_parts (filename z) in
  let upperdirs := removelast targetpath in
  ex ← gets (λ m, exists_ m upperdirs);
  (if ex : bool then mret () else mkdir_parents upperdirs) ;;
  if zi_is_dir z then
    isd ← gets (λ m, is_dir m targetpath);
    if isd : bool then mret ()
    else λ s,
      match files s !! targetpath, files s !! upperdirs with
      | Some _, _ => (Raise FileExistsError, s)
      | None, Some Dir => (Ok (), set_files (insert targetpath Dir) s)
      | None, Some (File _ _) => (Raise NotADirectoryError, s)
      | None, None => (Raise FileNotFoundError, s)
      end
  else write_file targetpath (payload z) (clock h).

(** [archive.extractall(dest)] *)
Definition extractall (archive : list ZipInfo) (dest : path) : M unit :=
  for_each archive (extract_member dest).

(** [tempfile.mkdtemp()]: the chosen directory is created; its parent must
    be a directory. (tempfile retries on a name that is taken, so a taken
    name is never what it returns; here it raises.) *)
Definition mkdtemp : M path := λ s,
  let t := mkdtemp_path h in
  match files s !! t with
  | Some _ => (Raise FileExistsError, s)
  | None =>
      match files s !! removelast t with
      | Some Dir => (Ok t, set_files (insert t Dir) s)
      | Some (File _ _) => (Raise NotADirectoryError, s)
      | None => (Raise FileNotFoundError, s)
      end
  end.

(** [with tempfile.TemporaryDirectory() as tmpdir: body]: whatever the body
    does, returning or raising, the directory is removed on the way out. *)
Definition with_TemporaryDirectory {A} (body : path → M A) : M A := λ s,
  match mkdtemp s with
  | (Raise e, s1) => (Raise e, s1)
  | (Ok tmpdir, s1) =>
      let '(r, s2) := body tmpdir s1 in
      (r, set_files (rmtree tmpdir) s2)
  end.

(** The dry-run block of [main] (lines 117 to 125). *)
Definition dry_run_report (archive : list ZipInfo) (a : app)
    (data_dir db_path : Path) : M Z :=
  let storage_files :=
    filter (λ nm, Str.startswith nm "storage/" = true) (namelist archive) in
  let db_files :=
    filter (λ nm, Str.startswith nm "database/" = true) (namelist archive) in
  print ("App: " +:+ app_name a) ;;
  print ("Data dir: " +:+ str data_dir) ;;
  print ("Database path: " +:+ str db_path) ;;
  print ("Storage files to restore: " +:+ Str.dec (length storage_files)) ;;
  print ("Database files in archive: "
         +:+ "[" +:+ Str.join ", " (repr <$> db_files) +:+ "]") ;;
  mret 0.

(** The database block of [main] (lines 133 to 146). *)
Definition restore_database (db_dir : path) (db_path : Path) : M unit :=
  ex ← gets (λ m, exists_ m db_dir);
  db_candidates ← (if ex : bool then gets (λ m, sorted (glob_db m db_dir))
                   else mret []);
  match db_candidates with
  | first :: _ =>
      backup_path ← _backup_existing_db db_path;
      match backup_path with
      | Some b => print ("Backed up existing database to " +:+ str b)
      | None => mret ()
      end ;;
      mkdir_parents (locate (parent db_path)) ;;
      copy2 first (locate db_path) ;;
      print ("Restored database to " +:+ str db_path)
  | [] => print "No database file found in archive; skipping DB restore."
  end.

(** The storage block of [main] (lines 148 to 153). *)
Definition restore_storage (storage_dir : path) (data_dir : Path) : M unit :=
  ex ← gets (λ m, exists_ m storage_dir);
  if ex : bool then
    mkdir_parents (locate data_dir) ;;
    copied ← _copy_tree storage_dir (locate data_dir);
    print ("Restored " +:+ Str.dec (length copied)
           +:+ " storage files into " +:+ str data_dir)
  else print "No storage directory found in archive; skipping file restore.".

(** What runs inside the temporary directory (lines 128 to 153). *)
Definition restore (archive : list ZipInfo) (data_dir db_path : Path)
    (tmpdir : path) : M unit :=
  extractall archive tmpdir ;;
  let temp_root := tmpdir in
  let storage_dir := temp_root ++ parts (Path_of "storage") in
  let db_dir := temp_root ++ parts (Path_of "database") in
  restore_database db_dir db_path ;;
  restore_storage storage_dir data_dir.

(** [main()], from the parsed arguments on. The value returned is the exit
    code; an exception that escapes ends the process with a traceback. *)
Definition main (args : Args) : M Z :=
  archive_path ← lift (expanduser (Path_of (backup args)));
  ex ← gets (λ m, exists_ m (locate archive_path));
  if negb (ex : bool) then
    print_err ("Backup archive not found: " +:+ str archive_path) ;;
    mret 2
  else
    archive ← ZipFile (locate archive_path);
    match resolve_app (app_arg args) archive with
    | None =>
        print_err "Unable to detect app type from backup. Use --app crm|sales." ;;
        mret 2
    | Some a =>
        '(data_dir, db_path) ← lift (paths_for a (data_dir_arg args));
        if dry_run args then dry_run_report archive a data_dir db_path
        else
          with_TemporaryDirectory (restore archive data_dir db_path) ;;
          mret 0
    end.

(** What [parser.error] prints: the usage, then the message. Both are
    formatted by argparse from the program name and the terminal width; they
    are taken as given. *)
Variable usage : string.
Variable error_message : usage_error → string.

(** The script from the command line on: [raise SystemExit(main())], with
    the argument parsing of [main] (lines 79 to 98) in front of the rest.
    The value returned is the exit status of the process; [None] where the
    command line is outside the model of [parse_args]. *)
Definition cli (argv : list string) : option (M Z) :=
  match parse_args argv with
  | None => None
  | Some (Parsed args) => Some (main args)
  | Some (Rejected e) =>
      Some (print_err usage ;; print_err (error_message e) ;; mret 2)
  end.

End Program.

(* ===================================================================== *)
(** * Vocabulary of the specification *)
(* ===================================================================== *)

(** A tree-shaped file system: the root is a directory, and whatever exists
    sits in a directory. *)
Definition wf_tree (m : tree) : Prop :=
  m !! ([] : path) = Some Dir ∧
  ∀ (p : path) (x : string), is_Some (m !! (p ++ [x])) → m !! p = Some Dir.

(** A location spelled without a parent-directory component. [locate] does
    not interpret [..]: it is for such locations that a lookup in the tree
    is what the file system answers. *)
Definition plain (p : path) : Prop := ".." ∉ p.

Global Instance plain_dec (p : path) : Decision (plain p).
Proof. unfold plain. apply _. Defined.

(** Two locations on one branch of the tree. *)
Definition comparable (a b : path) : Prop := a `prefix_of` b ∨ b `prefix_of` a.

(** [s'] differs from [s] only by directories created between [pre] and
    [full]. *)
Definition grows (pre full : path) (s s' : state) : Prop :=
  stdout s' = stdout s ∧ stderr s' = stderr s ∧
  ∀ p : path, files s' !! p = files s !! p ∨
       (files s !! p = None ∧ files s' !! p = Some Dir ∧
        pre `prefix_of` p ∧ p `prefix_of` full).

(** A Path as the parser builds it: no component is empty, a dot, or contains
    a separator. *)
Definition wf_Path (p : Path) : Prop :=
  ∀ c, c ∈ parts p → c ≠ "" ∧ c ≠ "." ∧ Str.contains "/" c = false.

(** The backup path of a database path: the name extended by the stamp. *)
Definition backup_path_of (h : Host) (db_path : Path) : Path :=
  {| anchored := anchored db_path;
     parts := removelast (parts db_path)
              ++ [name db_path +:+ ".bak_" +:+ strftime (localtime h)] |}.

(** The archive named on the command line is there and decodes to
    [archive]. *)
Definition opens_archive (read_zip : list byte → option (list ZipInfo))
    (h : Host) (args : Args) (s : state) (archive : list ZipInfo) : Prop :=
  ∃ ap data t,
    expanduser h (Path_of (backup args)) = Ok ap ∧
    files s !! locate h ap = Some (File data t) ∧
    read_zip data = Some archive.

(** Nothing exists at the path given with [--backup]. *)
Definition archive_missing (h : Host) (args : Args) (s : state) : Prop :=
  ∃ ap, expanduser h (Path_of (backup args)) = Ok ap ∧ files s !! locate h ap = None.

(** No application was given, and the archive has neither marker. *)
Definition detection_fails (read_zip : list byte → option (list ZipInfo))
    (h : Host) (args : Args) (s : state) : Prop :=
  ∃ archive,
    opens_archive read_zip h args s archive ∧
    app_arg args = None ∧ _detect_app archive = None.

(** A run that gets as far as the restore proper: not a dry run, the archive
    opens, the application is known and the destination paths resolve. *)
Definition reaches_restore (read_zip : list byte → option (list ZipInfo))
    (h : Host) (args : Args) (s : state)
    (archive : list ZipInfo) (data_dir db_path : Path) : Prop :=
  dry_run args = false ∧
  opens_archive read_zip h args s archive ∧
  ∃ a, resolve_app (app_arg args) archive = Some a ∧
       paths_for h a (data_dir_arg args) = Ok (data_dir, db_path).

(** The host's file system is a tree in which the working directory exists,
    and the name mkdtemp chooses is not taken. *)
Definition sane (h : Host) (s : state) : Prop :=
  wf_tree (files s) ∧ files s !! cwd h = Some Dir ∧
  files s !! mkdtemp_path h = None.

(** The temporary directory is on no branch of the tree with the data
    directory, nor with the directory that holds the database. *)
Definition apart (h : Host) (data_dir db_path : Path) : Prop :=
  ¬ comparable (mkdtemp_path h) (locate h data_dir) ∧
  ¬ comparable (mkdtemp_path h) (locate h (parent db_path)).

(** The state in which the two blocks of the restore start: the temporary
    directory made and the archive extracted into it. *)
Definition extracted (h : Host) (archive : list ZipInfo) (s : state) : state :=
  (extractall h archive (mkdtemp_path h)
     (set_files (insert (mkdtemp_path h) Dir) s)).2.

(** Where the archive's database files and storage tree are extracted. *)
Definition db_dir_of (h : Host) : path := mkdtemp_path h ++ ["database"].
Definition storage_dir_of (h : Host) : path := mkdtemp_path h ++ ["storage"].

(** The regular files of the extracted storage tree. *)
Definition storage_files (h : Host) (m : tree) : list path :=
  filter (λ p, is_file m p = true) (rglob m (storage_dir_of h)).

Definition skip_db_message : string :=
  "No database file found in archive; skipping DB restore.".
Definition skip_storage_message : string :=
  "No storage directory found in archive; skipping file restore.".

(** The fallback chains as the specification words them. [given] is the
    data-directory override after expansion, when one was given. *)
Definition spec_crm_paths (h : Host) (given : option Path) : Path * Path :=
  let data_dir :=
    match given with
    | Some p => p
    | None =>
        match environ h !! "APP_STORAGE_DIR" with
        | Some v => Path_of v
        | None => Path_of (get_storage_dir h)
        end
    end in
  (data_dir,
   match environ h !! "DB_PATH" with
   | Some v => Path_of v
   | None => div data_dir "ps_crm.db"
   end).

Definition spec_sales_paths (h : Host) (given : option Path) : Path * Path :=
  let data_dir :=
    match given with
    | Some p => p
    | None => Path_of (load_config_data_dir h)
    end in
  (data_dir,
   match environ h !! "PS_SALES_DB_URL" with
   | Some v =>
       if decide (v = "") then div data_dir "ps_sales.db"
       else if Str.startswith v "sqlite:///" then Path_of (Str.drop 10 v)
       else Path_of v
   | None => div data_dir "ps_sales.db"
   end).

(** The five lines of the dry-run report. *)
Definition report_lines (repr : string → string) (archive : list ZipInfo)
    (a : app) (data_dir db_path : Path) : list string :=
  [ "App: " +:+ app_name a;
    "Data dir: " +:+ str data_dir;
    "Database path: " +:+ str db_path;
    "Storage files to restore: "
      +:+ Str.dec (length (filter (λ nm, Str.startswith nm "storage/" = true)
                                  (namelist archive)));
    "Database files in archive: ["
      +:+ Str.join ", " (repr <$> filter (λ nm, Str.startswith nm "database/" = true)
                                         (namelist archive))
      +:+ "]" ].


(** A decision procedure for [wf_tree]: the root is a directory and every
    other entry has a directory for parent. *)
Definition wf_tree_check (m : tree) : bool :=
  bool_decide (m !! ([] : path) = Some Dir)
  && forallb (λ p : path, match p with
                          | [] => true
                          | _ :: _ => is_dir m (removelast p)
                          end) (elements (dom m)).

Global Instance comparable_dec (a b : path) : Decision (comparable a b).
Proof. unfold comparable. apply _. Defined.

(** A check over a listing, by the path of each entry relative to [base]. *)
Definition all_relative (base : path) (ok : path → bool) (l : list path) : bool :=
  forallb (λ p, match relative_to p base with
                | Some rel => ok rel
                | None => true
                end) l.

(** Between [s] and [s'], every entry either is what it was, or is a
    directory that was not there and satisfies [D], or satisfies [W] and is
    a regular file in [s']. *)
Definition explained (D W : path → Prop) (s s' : state) : Prop :=
  ∀ q : path,
    files s' !! q = files s !! q ∨
    (files s !! q = None ∧ files s' !! q = Some Dir ∧ D q) ∨
    (W q ∧ is_file (files s') q = true).

(** What [_copy_tree] may create or write for the listing [l] of [source]:
    a directory above the target of a regular file, and a file at that
    target, or inside it under the file's own name when the target is a
    directory. *)
Definition on_the_way (source dest : path) (m : tree) (l : list path) (q : path) : Prop :=
  ∃ p rel, p ∈ l ∧ is_file m p = true ∧ relative_to p source = Some rel ∧
           q `prefix_of` removelast (dest ++ rel).

Definition lands (source dest : path) (m : tree) (l : list path) (q : path) : Prop :=
  ∃ p rel, p ∈ l ∧ is_file m p = true ∧ relative_to p source = Some rel ∧
           (q = dest ++ rel ∨ q = dest ++ rel ++ [List.last p ""]).

(* ===================================================================== *)
(** * A host, a file system and some archives to run the program on *)
(* ===================================================================== *)

Module Scenario.

Definition bytes_of (s : string) : list byte := String.list_byte_of_string s.

(** crm marker, two database files, a storage tree of two files *)
Definition archive_good : list ZipInfo :=
[ mkZipInfo "exports/ps_crm.sql" (bytes_of "sql");
  mkZipInfo "database/b.db" (bytes_of "BBB");
  mkZipInfo "database/a.db" (bytes_of "AAA");
  mkZipInfo "database/old/z.db" (bytes_of "ZZZ");
  mkZipInfo "storage/x/y.txt" (bytes_of "why");
  mkZipInfo "storage/readme.txt" (bytes_of "read me") ].

(** as [archive_good], with a storage file named like the crm database *)
Definition archive_clash : list ZipInfo :=
[ mkZipInfo "exports/ps_crm.sql" (bytes_of "sql");
  mkZipInfo "database/b.db" (bytes_of "BBB");
  mkZipInfo "database/a.db" (bytes_of "AAA");
  mkZipInfo "storage/ps_crm.db" (bytes_of "STORAGE") ].

(** crm marker and a regular file named [storage] *)
Definition archive_storage_file : list ZipInfo :=
[ mkZipInfo "exports/ps_crm.sql" (bytes_of "sql");
  mkZipInfo "storage" (bytes_of "not a directory") ].

(** crm marker only *)
Definition archive_marker_only : list ZipInfo :=
[ mkZipInfo "exports/ps_crm.sql" (bytes_of "sql") ].

(** a member below a member that is a regular file: extraction raises *)
Definition archive_conflict : list ZipInfo :=
[ mkZipInfo "exports/ps_crm.sql" (bytes_of "sql");
  mkZipInfo "storage/a" (bytes_of "file");
  mkZipInfo "storage/a/b" (bytes_of "below a file") ].

(** in the database directory, a file that is no [.db] file and a [.db]
  file one level down *)
Definition archive_nested_db : list ZipInfo :=
[ mkZipInfo "exports/ps_crm.sql" (bytes_of "sql");
  mkZipInfo "database/notes.txt" (bytes_of "notes");
  mkZipInfo "database/old/z.db" (bytes_of "ZZZ") ].

(** member names with a leading dot component *)
Definition archive_dotted : list ZipInfo :=
[ mkZipInfo "exports/ps_crm.sql" (bytes_of "sql");
  mkZipInfo "./database/a.db" (bytes_of "AAA");
  mkZipInfo "./storage/x.txt" (bytes_of "xxx") ].

(** neither marker *)
Definition archive_unmarked : list ZipInfo :=
[ mkZipInfo "notes.txt" (bytes_of "hello") ].

(** The decoder of the scenario: each archive file holds one letter. *)
Definition read_zip (data : list byte) : option (list ZipInfo) :=
if decide (data = bytes_of "G") then Some archive_good
else if decide (data = bytes_of "C") then Some archive_clash
else if decide (data = bytes_of "S") then Some archive_storage_file
else if decide (data = bytes_of "M") then Some archive_marker_only
else if decide (data = bytes_of "X") then Some archive_conflict
else if decide (data = bytes_of "N") then Some archive_nested_db
else if decide (data = bytes_of "D") then Some archive_dotted
else if decide (data = bytes_of "U") then Some archive_unmarked
else None.

(** [repr] on strings without quotes or escapes *)
Definition repr (s : string) : string := "'" +:+ s +:+ "'".

Definition host : Host :=
{| environ := ∅;
   cwd := ["home"; "u"];
   userhome := λ _, None;
   get_storage_dir := "/srv/crm";
   load_config_data_dir := "/srv/sales";
   localtime := mkTm 2024 1 1 12 0 0;
   clock := 1000;
   mkdtemp_path := ["tmp"; "tmpq7"] |}.

(** A host whose environment sets every variable the program reads. *)
Definition host_env : Host :=
{| environ := <["APP_STORAGE_DIR" := "/data/crm"]>
              (<["DB_PATH" := "/data/db/crm.sqlite"]>
               (<["PS_SALES_DB_URL" := "sqlite:////data/db/sales.sqlite"]> ∅));
   cwd := ["home"; "u"];
   userhome := λ first, if decide (first = "~") then Some "/home/u" else None;
   get_storage_dir := "/srv/crm";
   load_config_data_dir := "/srv/sales";
   localtime := mkTm 2024 1 1 12 0 0;
   clock := 1000;
   mkdtemp_path := ["tmp"; "tmpq7"] |}.

Definition base_tree : tree :=
<[ ["home"; "u"; "good.zip"] := File (bytes_of "G") 7 ]>
(<[ ["home"; "u"; "clash.zip"] := File (bytes_of "C") 7 ]>
(<[ ["home"; "u"; "storagefile.zip"] := File (bytes_of "S") 7 ]>
(<[ ["home"; "u"; "marker.zip"] := File (bytes_of "M") 7 ]>
(<[ ["home"; "u"; "conflict.zip"] := File (bytes_of "X") 7 ]>
(<[ ["home"; "u"; "nested.zip"] := File (bytes_of "N") 7 ]>
(<[ ["home"; "u"; "dotted.zip"] := File (bytes_of "D") 7 ]>
(<[ ["home"; "u"; "unmarked.zip"] := File (bytes_of "U") 7 ]>
(<[ ["home"; "u"; "notes.txt"] := File (bytes_of "not a zip") 7 ]>
(<[ ["home"; "u"] := Dir ]>
(<[ ["home"] := Dir ]>
(<[ ["tmp"] := Dir ]>
(<[ [] := Dir ]> ∅)))))))))))).

(** The crm data directory with a database in it. *)
Definition tree_with_db : tree :=
<[ ["srv"; "crm"; "ps_crm.db"] := File (bytes_of "OLD") 5 ]>
(<[ ["srv"; "crm"] := Dir ]>
(<[ ["srv"] := Dir ]> base_tree)).

(** As [tree_with_db], with a directory where the backup is to go. *)
Definition tree_backup_dir : tree :=
<[ ["srv"; "crm"; "ps_crm.db.bak_20240101_120000"] := Dir ]> tree_with_db.

(** As [tree_with_db], with a directory where a storage file is to go. *)
Definition tree_readme_dir : tree :=
<[ ["srv"; "crm"; "readme.txt"] := Dir ]> tree_with_db.

Definition start (m : tree) : state := {| files := m; stdout := []; stderr := [] |}.

Definition args_for (zip : string) (dry : bool) : Args :=
{| backup := zip; app_arg := None; data_dir_arg := None; dry_run := dry |}.

Definition crm_dir : Path := Path_of "/srv/crm".
Definition crm_db : Path := Path_of "/srv/crm/ps_crm.db".

Definition run (args : Args) (m : tree) : result Z * state :=
main read_zip repr host args (start m).

End Scenario.

(** The targets [_copy_tree] computes for the listing [l] of [source]: for
    each regular file, the destination extended by the file's path below
    the source. *)
Definition copy_targets (source dest : path) (m : tree) (l : list path) : list path :=
  (λ p, dest ++ drop (length source) p) <$> filter (λ p, is_file m p = true) l.

(** The lines the database block prints in a run that returns, read off the
    file system the block starts from. *)
Definition db_report (h : Host) (db_dir : path) (db_path : Path) (m : tree)
    : list string :=
  match sorted (glob_db m db_dir) with
  | [] => [skip_db_message]
  | _ :: _ =>
      (if exists_ m (locate h db_path)
       then ["Backed up existing database to " +:+ str (backup_path_of h db_path)]
       else [])
      ++ ["Restored database to " +:+ str db_path]
  end.

(** The line the storage block prints in a run that returns. *)
Definition storage_report (storage_dir : path) (data_dir : Path) (m : tree) : string :=
  if exists_ m storage_dir
  then "Restored "
       +:+ Str.dec (length (filter (λ p, is_file m p = true) (rglob m storage_dir)))
       +:+ " storage files into " +:+ str data_dir
  else skip_storage_message.

(** Computations that leave the error stream alone, whatever their result. *)
Definition keeps_stderr {A} (m : M A) : Prop := ∀ s, stderr (m s).2 = stderr s.

(* ===================================================================== *)
(** * More of the scenario *)
(* ===================================================================== *)

Module Obstacle.
Import Scenario.

(** A regular file where the crm data directory should be. *)
Definition tree_crm_file : tree :=
  <[ ["srv"; "crm"] := File (bytes_of "in the way") 3 ]>
  (<[ ["srv"] := Dir ]> base_tree).

(** [archive_good] with its members in another order, some of them twice. *)
Definition archive_shuffled : list ZipInfo := reverse archive_good ++ archive_good.

(** The crm data directory with a database and a file of its own. *)
Definition tree_with_extra : tree :=
  <[ ["srv"; "crm"; "keep.txt"] := File (bytes_of "keep") 9 ]> tree_with_db.

(** What argparse prints on the error stream, as Python 3.11 words it on a
    terminal wide enough for the usage to fit on one line. *)
Definition usage_text : string :=
  "usage: restore_from_backup.py [-h] --backup BACKUP [--app {crm,sales}] [--data-dir DATA_DIR] [--dry-run]".

Definition option_text (o : option_name) : string :=
  match o with
  | opt_backup => "--backup"
  | opt_app => "--app"
  | opt_data_dir => "--data-dir"
  end.

Definition error_text (e : usage_error) : string :=
  "restore_from_backup.py: error: "
  +:+ match e with
      | expected_one_argument o =>
          "argument " +:+ option_text o +:+ ": expected one argument"
      | invalid_choice value =>
          "argument --app: invalid choice: " +:+ repr value
          +:+ " (choose from 'crm', 'sales')"
      | required_missing => "the following arguments are required: --backup"
      | unrecognized_arguments extras =>
          "unrecognized arguments: " +:+ Str.join " " extras
      end.

Definition run_cli (argv : list string) : option (M Z) :=
  cli read_zip repr host usage_text error_text argv.

End Obstacle.

(* ===================================================================== *)
(** * Facts about the model *)
(* ===================================================================== *)

Section TreeFacts.
Implicit Types (m : tree) (p q d : path).

Lemma relative_to_Some p base rel :
  relative_to p base = Some rel ↔ p = base ++ rel.
Proof.
  revert p. induction base as [|b base IH]; intros p.
  - destruct p; simpl; (split; [by intros [= ->]|by intros ->]).
  - destruct p as [|x p]; simpl; [done|].
    destruct (decide (b = x)) as [->|Hne].
    + rewrite IH. split; [by intros ->|by intros [= ->]].
    + split; [done|]. intros [= ? ?]. done.
Qed.

Lemma relative_to_app d rel : relative_to (d ++ rel) d = Some rel.
Proof. by apply relative_to_Some. Qed.

Lemma below_spec d p : below d p = true ↔ ∃ x rel, p = d ++ x :: rel.
Proof.
  unfold below. destruct (relative_to p d) as [[|x rel]|] eqn:E.
  - apply relative_to_Some in E. split; [done|].
    intros (x & rel & ->). rewrite app_nil_r in E.
    apply (f_equal length) in E. rewrite length_app in E. simpl in E. lia.
  - apply relative_to_Some in E. split; [eauto|done].
  - split; [done|]. intros (x & rel & ->). by rewrite relative_to_app in E.
Qed.

Lemma db_child_spec d p :
  db_child d p = true ↔ ∃ x, p = d ++ [x] ∧ Str.endswith x ".db" = true.
Proof.
  unfold db_child. destruct (relative_to p d) as [[|x [|y rel]]|] eqn:E.
  - apply relative_to_Some in E. split; [done|].
    intros (x & -> & _). rewrite app_nil_r in E.
    apply (f_equal length) in E. rewrite length_app in E. simpl in E. lia.
  - apply relative_to_Some in E. split; [eauto|].
    intros (x' & -> & ?). by apply app_inv_head in E as [= <-].
  - apply relative_to_Some in E. split; [done|].
    intros (x' & -> & ?). by apply app_inv_head in E.
  - split; [done|]. intros (x & -> & _). by rewrite relative_to_app in E.
Qed.

Lemma rmtree_lookup root m p :
  rmtree root m !! p = if decide (root `prefix_of` p) then None else m !! p.
Proof.
  unfold rmtree. destruct (decide (root `prefix_of` p)) as [Hp|Hp].
  - apply map_lookup_filter_None. right. intros n _. simpl. auto.
  - destruct (m !! p) as [n|] eqn:E.
    + apply map_lookup_filter_Some. done.
    + apply map_lookup_filter_None. by left.
Qed.

Lemma prefix_snoc_inv p q x :
  p `prefix_of` q ++ [x] → p `prefix_of` q ∨ p = q ++ [x].
Proof.
  intros [k Hk]. destruct (decide (k = [])) as [->|Hne].
  - right. by rewrite app_nil_r in Hk.
  - left. destruct (exists_last Hne) as (k' & y & ->).
    rewrite app_assoc in Hk. apply app_inj_tail in Hk as [-> _].
    by exists k'.
Qed.

Lemma wf_prefix_dir m p q :
  wf_tree m → is_Some (m !! q) → p `prefix_of` q → p ≠ q → m !! p = Some Dir.
Proof.
  intros [_ Hwf] Hq [k ->]. revert Hq.
  induction k as [|x k IH] using rev_ind; intros Hq Hne.
  - by rewrite app_nil_r in Hne.
  - rewrite app_assoc in Hq. apply Hwf in Hq.
    destruct (decide (k = [])) as [->|Hk].
    + by rewrite app_nil_r in Hq.
    + apply IH; [eauto|].
      intros E. apply Hk. apply (f_equal length) in E.
      rewrite length_app in E. destruct k; [done|simpl in E; lia].
Qed.

Lemma wf_below_file m p q data t :
  wf_tree m → m !! p = Some (File data t) → p `prefix_of` q → p ≠ q → m !! q = None.
Proof.
  intros Hwf Hp Hpq Hne. destruct (m !! q) eqn:E; [|done].
  rewrite (wf_prefix_dir m p q) in Hp; eauto. done.
Qed.

Lemma wf_below_None m p q :
  wf_tree m → m !! p = None → p `prefix_of` q → m !! q = None.
Proof.
  intros Hwf Hp Hpq. destruct (decide (p = q)) as [->|Hne]; [done|].
  destruct (m !! q) eqn:E; [|done].
  rewrite (wf_prefix_dir m p q) in Hp; eauto. done.
Qed.

Lemma removelast_snoc p x : removelast (p ++ [x]) = p.
Proof. apply removelast_last. Qed.

Lemma wf_insert_dir m p :
  wf_tree m → m !! removelast p = Some Dir → wf_tree (<[p := Dir]> m).
Proof.
  intros [Hroot Hwf] Hpar. split.
  - destruct (decide (p = [])) as [->|Hne]; [by rewrite lookup_insert_eq|].
    by rewrite lookup_insert_ne.
  - intros q x. destruct (decide (p = q ++ [x])) as [->|Hne].
    + intros _. rewrite removelast_snoc in Hpar.
      destruct (decide (q ++ [x] = q)) as [E|E]; [by rewrite E, lookup_insert_eq|].
      by rewrite lookup_insert_ne.
    + rewrite lookup_insert_ne by done. intros Hq%Hwf.
      destruct (decide (p = q)) as [->|E]; [by rewrite lookup_insert_eq|].
      by rewrite lookup_insert_ne.
Qed.

Lemma wf_insert_file m p data t :
  wf_tree m → p ≠ [] → m !! removelast p = Some Dir → m !! p ≠ Some Dir →
  wf_tree (<[p := File data t]> m).
Proof.
  intros [Hroot Hwf] Hp Hpar Hnd. split.
  - by rewrite lookup_insert_ne.
  - intros q x. destruct (decide (p = q ++ [x])) as [->|Hne].
    + intros _. rewrite removelast_snoc in Hpar.
      rewrite lookup_insert_ne; [done|].
      intros E. apply (f_equal length) in E. rewrite length_app in E. simpl in E. lia.
    + rewrite lookup_insert_ne by done. intros Hq%Hwf.
      destruct (decide (p = q)) as [->|E]; [done|].
      by rewrite lookup_insert_ne.
Qed.

Lemma wf_rmtree m root : wf_tree m → root ≠ [] → wf_tree (rmtree root m).
Proof.
  intros [Hroot Hwf] Hne. split.
  - rewrite rmtree_lookup. rewrite decide_False; [done|].
    intros Hp. by apply prefix_nil_inv in Hp.
  - intros q x. rewrite !rmtree_lookup.
    destruct (decide (root `prefix_of` q ++ [x])) as [|Hn]; [by intros [? ?]|].
    intros Hq%Hwf. rewrite decide_False; [done|].
    intros Hp. apply Hn. by apply prefix_app_r.
Qed.
End TreeFacts.

Section OpFacts.
Implicit Types (m : tree) (p q d src dst : path) (s : state).

Lemma bind_run {A B} (m : M A) (k : A → M B) s :
  (m ≫= k) s = match m s with
               | (Ok a, s') => k a s'
               | (Raise e, s') => (Raise e, s')
               end.
Proof. reflexivity. Qed.

Lemma exists_Some m p n : m !! p = Some n → exists_ m p = true.
Proof. intros E. apply bool_decide_eq_true_2. eauto. Qed.

Lemma exists_None m p : m !! p = None → exists_ m p = false.
Proof. intros E. apply bool_decide_eq_false_2. rewrite E. by intros [? ?]. Qed.

Lemma is_dir_true m p : is_dir m p = true ↔ m !! p = Some Dir.
Proof. apply bool_decide_eq_true. Qed.

Lemma is_dir_false m p : is_dir m p = false ↔ m !! p ≠ Some Dir.
Proof. apply bool_decide_eq_false. Qed.

Lemma bind_Ok {A B} (m : M A) (k : A → M B) s b s'' :
  (m ≫= k) s = (Ok b, s'') → ∃ a s', m s = (Ok a, s') ∧ k a s' = (Ok b, s'').
Proof.
  rewrite bind_run. destruct (m s) as [[a|e] s']; [eauto|done].
Qed.

Lemma grows_refl pre full s : grows pre full s s.
Proof. repeat split. by left. Qed.

Lemma grows_keeps pre full s s' p n :
  grows pre full s s' → files s !! p = Some n → files s' !! p = Some n.
Proof.
  intros (_ & _ & H) Hp. destruct (H p) as [->|(E & _)]; [done|congruence].
Qed.

Lemma grows_outside pre full s s' p :
  grows pre full s s' → ¬ (pre `prefix_of` p ∧ p `prefix_of` full) →
  files s' !! p = files s !! p.
Proof. intros (_ & _ & H) Hn. destruct (H p) as [->|(_ & _ & ?)]; done. Qed.

Lemma grows_dir pre full s s' p :
  grows pre full s s' → files s' !! p = Some Dir →
  files s !! p = Some Dir ∨ (files s !! p = None ∧ pre `prefix_of` p ∧ p `prefix_of` full).
Proof.
  intros (_ & _ & H) Hp. destruct (H p) as [E|(? & _ & ? & ?)]; [|by right].
  left. by rewrite <- E.
Qed.

Lemma mkdir_one_cases last p s r s' :
  mkdir_one last p s = (r, s') →
  (r = Ok () ∧ files s !! p = Some Dir ∧ s' = s) ∨
  (r = Ok () ∧ files s !! p = None ∧ s' = set_files (insert p Dir) s) ∨
  (∃ e data t, r = Raise e ∧ files s !! p = Some (File data t) ∧ s' = s).
Proof.
  unfold mkdir_one. destruct (files s !! p) as [[data t|]|] eqn:E;
    intros [= <- <-]; eauto 10.
Qed.

Lemma makedirs_from_grows rest pre s r s' :
  makedirs_from pre rest s = (r, s') → grows pre (pre ++ rest) s s'.
Proof.
  revert pre s. induction rest as [|x rest IH]; intros pre s; simpl.
  - intros H. apply mkdir_one_cases in H
      as [(_ & _ & ->)|[(_ & E & ->)|(? & ? & ? & _ & _ & ->)]];
      try apply grows_refl.
    repeat split. intros p. simpl.
    destruct (decide (pre = p)) as [<-|Hne].
    + right. rewrite lookup_insert_eq, app_nil_r. done.
    + left. by rewrite lookup_insert_ne.
  - rewrite bind_run. destruct (mkdir_one false pre s) as [[[]|e] s1] eqn:H1.
    + intros H2. apply IH in H2. rewrite <- app_assoc in H2. simpl in H2.
      apply mkdir_one_cases in H1
        as [(_ & _ & ->)|[(_ & E & ->)|(? & ? & ? & ? & _ & _)]]; [| |done].
      * destruct H2 as (? & ? & H2). repeat split; [done..|].
        intros p. destruct (H2 p) as [?|(? & ? & Hp & ?)]; [by left|right].
        repeat split; try done. etrans; [|exact Hp]. by apply prefix_app_r.
      * destruct H2 as (? & ? & H2). repeat split; [done..|].
        intros p. simpl in H2. destruct (decide (pre = p)) as [<-|Hne].
        -- right. destruct (H2 pre) as [E2|(E2 & _)];
             rewrite lookup_insert_eq in E2; [|done].
           repeat split; try done. by apply prefix_app_r.
        -- destruct (H2 p) as [E2|(E2 & ? & Hp & ?)];
             rewrite lookup_insert_ne in E2 by done; [by left|right].
           repeat split; try done. etrans; [|exact Hp]. by apply prefix_app_r.
    + intros [= <- <-].
      apply mkdir_one_cases in H1
        as [(? & _)|[(? & _)|(? & ? & ? & _ & _ & ->)]]; try done.
      apply grows_refl.
Qed.

Lemma makedirs_from_ok rest pre s s' :
  makedirs_from pre rest s = (Ok (), s') →
  ∀ p, pre `prefix_of` p → p `prefix_of` pre ++ rest → files s' !! p = Some Dir.
Proof.
  revert pre s. induction rest as [|x rest IH]; intros pre s; simpl.
  - intros H p Hp1 Hp2. rewrite app_nil_r in Hp2.
    assert (p = pre) as -> by by apply (anti_symm prefix).
    apply mkdir_one_cases in H
      as [(_ & ? & ->)|[(_ & E & ->)|(? & ? & ? & ? & _)]]; try done.
    simpl. by rewrite lookup_insert_eq.
  - intros H. apply bind_Ok in H as ([] & s1 & H1 & H2).
    intros p Hp1 Hp2.
    destruct (decide (p = pre)) as [->|Hne].
    + eapply grows_keeps; [by eapply makedirs_from_grows|].
      apply mkdir_one_cases in H1
        as [(_ & ? & ->)|[(_ & E & ->)|(? & ? & ? & ? & _)]]; try done.
      simpl. by rewrite lookup_insert_eq.
    + eapply IH; [exact H2| |by rewrite <- app_assoc; simpl].
      destruct Hp1 as [k ->]. destruct k as [|y k]; [by rewrite app_nil_r in Hne|].
      apply prefix_app_inv in Hp2. apply prefix_cons_inv_1 in Hp2 as ->.
      exists k. by rewrite <- app_assoc.
Qed.

Lemma makedirs_from_wf rest pre s r s' :
  wf_tree (files s) → (pre = [] ∨ files s !! removelast pre = Some Dir) →
  makedirs_from pre rest s = (r, s') → wf_tree (files s').
Proof.
  revert pre s. induction rest as [|x rest IH]; intros pre s Hwf Hpre; simpl.
  - intros H. apply mkdir_one_cases in H
      as [(_ & _ & ->)|[(_ & E & ->)|(? & ? & ? & _ & _ & ->)]]; try done.
    simpl. destruct Hpre as [->|Hpre]; [by rewrite (proj1 Hwf) in E|].
    by apply wf_insert_dir.
  - rewrite bind_run. destruct (mkdir_one false pre s) as [[[]|e] s1] eqn:H1.
    + intros H2.
      apply mkdir_one_cases in H1
        as [(_ & Hd & ->)|[(_ & E & ->)|(? & ? & ? & ? & _ & _)]]; [| |done].
      * eapply IH; [done| |exact H2]. right. by rewrite removelast_snoc.
      * assert (wf_tree (<[pre:=Dir]> (files s))).
        { destruct Hpre as [->|Hpre]; [by rewrite (proj1 Hwf) in E|].
          by apply wf_insert_dir. }
        eapply IH; [| |exact H2]; [done|].
        right. simpl. by rewrite removelast_snoc, lookup_insert_eq.
    + intros [= <- <-].
      apply mkdir_one_cases in H1
        as [(? & _)|[(? & _)|(? & ? & ? & _ & _ & ->)]]; done.
Qed.

Lemma makedirs_from_noop rest pre s :
  (∀ p, pre `prefix_of` p → p `prefix_of` pre ++ rest → files s !! p = Some Dir) →
  makedirs_from pre rest s = (Ok (), s).
Proof.
  revert pre. induction rest as [|x rest IH]; intros pre Hd; simpl.
  - unfold mkdir_one. rewrite Hd; [done..|by rewrite app_nil_r].
  - rewrite bind_run. unfold mkdir_one at 1.
    rewrite Hd; [|done|by apply prefix_app_r].
    apply IH. intros p Hp1 Hp2. apply Hd; [|by rewrite <- app_assoc in Hp2].
    etrans; [|exact Hp1]. by apply prefix_app_r.
Qed.

Lemma mkdir_parents_grows p s r s' :
  mkdir_parents p s = (r, s') → grows [] p s s'.
Proof. apply makedirs_from_grows. Qed.

Lemma mkdir_parents_ok p s s' q :
  mkdir_parents p s = (Ok (), s') → q `prefix_of` p → files s' !! q = Some Dir.
Proof.
  intros H Hq. eapply makedirs_from_ok; [exact H| |done]. apply prefix_nil.
Qed.

Lemma mkdir_parents_wf p s r s' :
  wf_tree (files s) → mkdir_parents p s = (r, s') → wf_tree (files s').
Proof. intros Hwf. apply makedirs_from_wf; auto. Qed.

Lemma mkdir_parents_noop p s :
  wf_tree (files s) → files s !! p = Some Dir → mkdir_parents p s = (Ok (), s).
Proof.
  intros Hwf Hp. apply makedirs_from_noop. intros q _ Hq. simpl in Hq.
  destruct (decide (q = p)) as [->|Hne]; [done|].
  eapply wf_prefix_dir; eauto.
Qed.

Lemma write_file_cases p data t s r s' :
  write_file p data t s = (r, s') →
  (r = Ok () ∧ files s !! p ≠ Some Dir ∧ files s !! removelast p = Some Dir ∧
   s' = set_files (insert p (File data t)) s) ∨
  (∃ e, r = Raise e ∧ s' = s).
Proof.
  unfold write_file, is_dir. case_bool_decide as Hd.
  - intros [= <- <-]. eauto.
  - destruct (files s !! removelast p) as [[]|]; intros [= <- <-]; eauto.
Qed.

Lemma copy2_cases src dst s r s' :
  copy2 src dst s = (r, s') →
  (∃ data t w,
     w = (if is_dir (files s) dst then dst ++ [List.last src ""] else dst) ∧
     r = Ok w ∧ files s !! src = Some (File data t) ∧ w ≠ src ∧
     files s !! w ≠ Some Dir ∧ files s !! removelast w = Some Dir ∧
     s' = set_files (insert w (File data t)) s) ∨
  (∃ e, r = Raise e ∧ s' = s).
Proof.
  unfold copy2. set (w := if is_dir _ _ then _ else _).
  destruct (files s !! src) as [[data t|]|] eqn:E.
  - rewrite (exists_Some _ _ _ E).
    case_bool_decide as Hw; simpl.
    + intros [= <- <-]. right. eauto.
    + rewrite bind_run.
      destruct (write_file w data t s) as [[[]|e] s1] eqn:Hwf.
      * apply write_file_cases in Hwf as [(_ & ? & ? & ->)|(? & ? & _)]; [|done].
        intros [= <- <-]. left. exists data, t, w. naive_solver.
      * apply write_file_cases in Hwf as [(? & _)|(? & _ & ->)]; [done|].
        intros [= <- <-]. right. eauto.
  - rewrite (exists_Some _ _ _ E).
    destruct (bool_decide (src = w)); simpl; intros [= <- <-]; right; eauto.
  - rewrite (exists_None _ _ E).
    rewrite andb_false_r. intros [= <- <-]; right; eauto.
Qed.
Lemma copy2_ok src dst s data t :
  files s !! src = Some (File data t) → files s !! dst ≠ Some Dir → src ≠ dst →
  files s !! removelast dst = Some Dir →
  copy2 src dst s = (Ok dst, set_files (insert dst (File data t)) s).
Proof.
  intros E Hnd Hne Hpar. unfold copy2.
  apply is_dir_false in Hnd. rewrite Hnd, E.
  rewrite bool_decide_eq_false_2 by done. simpl.
  rewrite bind_run. unfold write_file. by rewrite Hnd, Hpar.
Qed.
End OpFacts.

Section StrFacts.
Implicit Types (s t u : string) (c : ascii) (n : nat).

Lemma app_nil_l_s s : "" +:+ s = s.
Proof. reflexivity. Qed.

Lemma app_cons_s c s t : String c s +:+ t = String c (s +:+ t).
Proof. reflexivity. Qed.

Lemma app_nil_r_s s : s +:+ "" = s.
Proof. induction s as [|c s IH]; [done|]. by rewrite app_cons_s, IH. Qed.

Lemma app_assoc_s s t u : (s +:+ t) +:+ u = s +:+ t +:+ u.
Proof. induction s as [|c s IH]; [done|]. by rewrite !app_cons_s, IH. Qed.

Lemma length_app_s s t :
  String.length (s +:+ t) = (String.length s + String.length t)%nat.
Proof. induction s as [|c s IH]; [done|]. rewrite app_cons_s. simpl. by rewrite IH. Qed.

Lemma take_drop_s n s : Str.take n s +:+ Str.drop n s = s.
Proof.
  revert s. induction n as [|n IH]; intros [|c s]; simpl; try done.
  by rewrite app_cons_s, IH.
Qed.

Lemma length_drop_s n s : String.length (Str.drop n s) = (String.length s - n)%nat.
Proof. revert s. induction n as [|n IH]; intros [|c s]; simpl; auto. Qed.

Lemma contains_app c s t :
  Str.contains c (s +:+ t) = Str.contains c s || Str.contains c t.
Proof.
  induction s as [|a s IH]; [done|]. rewrite app_cons_s. simpl.
  rewrite IH. by rewrite orb_assoc.
Qed.

Lemma contains_drop c n s :
  Str.contains c s = false → Str.contains c (Str.drop n s) = false.
Proof.
  revert s. induction n as [|n IH]; intros [|a s]; simpl; try done.
  intros [_ ?]%orb_false_iff. auto.
Qed.

Lemma rfind_bound c s i : Str.rfind c s = Some i → (i < String.length s)%nat.
Proof.
  revert i. induction s as [|a s IH]; intros i; simpl; [done|].
  destruct (Str.rfind c s) as [j|].
  - intros [= <-]. specialize (IH j eq_refl). lia.
  - case_bool_decide; [|done]. intros [= <-]. lia.
Qed.

Lemma rfind_drop c s i :
  Str.rfind c s = Some i → ∃ t, Str.drop i s = String c t.
Proof.
  revert i. induction s as [|a s IH]; intros i; simpl; [done|].
  destruct (Str.rfind c s) as [j|].
  - intros [= <-]. simpl. by apply IH.
  - case_bool_decide as E; [|done]. intros [= <-]. subst a. simpl. eauto.
Qed.

(** The suffix of a name is empty or begins with a dot, and is a final
    segment of the name. *)
Lemma suffix_of_cases nm :
  suffix_of nm = "" ∨
  ∃ i t, (i ≤ String.length nm)%nat ∧ suffix_of nm = Str.drop i nm ∧
         Str.drop i nm = String "." t.
Proof.
  unfold suffix_of. destruct (Str.rfind "." nm) as [i|] eqn:E; [|by left].
  destruct (_ && _); [|by left]. right.
  destruct (rfind_drop _ _ _ E) as [t Ht]. apply rfind_bound in E.
  exists i, t. split; [lia|done].
Qed.

Lemma digit_not_sep n : Str.digit n ≠ "/"%char.
Proof.
  unfold Str.digit. pose proof (Nat.mod_upper_bound n 10 ltac:(lia)) as Hb.
  destruct (n mod 10)%nat as [|[|[|[|[|[|[|[|[|[|k]]]]]]]]]]; try done. lia.
Qed.

Lemma contains_dec_go fuel n acc :
  Str.contains "/" acc = false → Str.contains "/" (Str.dec_go fuel n acc) = false.
Proof.
  revert n acc. induction fuel as [|f IH]; intros n acc Hacc; simpl; [done|].
  assert (Str.contains "/" (String (Str.digit n) acc) = false) as H.
  { cbn [Str.contains]. rewrite Hacc, orb_false_r.
    apply bool_decide_eq_false_2, digit_not_sep. }
  destruct (n <? 10)%nat; auto.
Qed.

Lemma contains_dec n : Str.contains "/" (Str.dec n) = false.
Proof. by apply contains_dec_go. Qed.

Lemma contains_pad2 n : Str.contains "/" (Str.pad2 n) = false.
Proof.
  unfold Str.pad2. cbn [Str.contains].
  rewrite !bool_decide_eq_false_2 by apply digit_not_sep. done.
Qed.

Lemma contains_strftime (t : tm) : Str.contains "/" (strftime t) = false.
Proof.
  unfold strftime.
  by rewrite !contains_app, contains_dec, !contains_pad2.
Qed.

(** Appending to the suffix appends to the name. *)
Lemma with_suffix_append p ext :
  name p ≠ "" → Str.contains "/" (name p) = false →
  Str.contains "/" ext = false → Str.startswith ext "." = true →
  (1 < String.length ext)%nat →
  with_suffix p (suffix p +:+ ext)
  = Ok {| anchored := anchored p;
          parts := removelast (parts p) ++ [name p +:+ ext] |}.
Proof.
  intros Hnm Hsep Hext Hdot Hlen. unfold with_suffix, suffix.
  destruct (suffix_of_cases (name p)) as [E|(i & t & Hi & E & Ht)].
  - rewrite E, app_nil_l_s, Hext, Hdot. simpl.
    rewrite !bool_decide_eq_false_2; [done|done| |].
    + intros ->. simpl in Hlen. lia.
    + intros ->. done.
  - rewrite E, contains_app, Hext, (contains_drop _ _ _ Hsep). simpl.
    rewrite Ht, app_cons_s. simpl.
    rewrite (bool_decide_eq_false_2 (String "." (t +:+ ext) = ".")); last first.
    { intros [= H]. apply (f_equal String.length) in H.
      rewrite length_app_s in H. simpl in H. lia. }
    rewrite (bool_decide_eq_false_2 (name p = "")) by done.
    do 3 f_equal.
    assert (String.length (name p) - S (String.length t) = i)%nat as ->.
    { change (S (String.length t)) with (String.length (String "." t)).
      rewrite <- Ht, length_drop_s. lia. }
    rewrite <- (app_cons_s "." t ext), <- Ht, <- app_assoc_s, take_drop_s. done.
Qed.

Lemma split_no_sep c s x : x ∈ Str.split c s → Str.contains c x = false.
Proof.
  revert x. induction s as [|a s IH]; intros x; simpl.
  - intros ->%list_elem_of_singleton. done.
  - case_bool_decide as E.
    + intros [->|?]%elem_of_cons; auto.
    + destruct (Str.split c s) as [|y l] eqn:El.
      * intros ->%list_elem_of_singleton. simpl.
        by rewrite bool_decide_eq_false_2.
      * intros [->|?]%elem_of_cons.
        -- simpl. rewrite bool_decide_eq_false_2 by done. simpl.
           apply IH. left.
        -- apply IH. by right.
Qed.

Lemma split_not_nil c s : Str.split c s ≠ [].
Proof. destruct s as [|a s]; simpl; [done|]. case_bool_decide; [done|]. by destruct (Str.split c s). Qed.

Lemma wf_Path_of s : wf_Path (Path_of s).
Proof.
  intros c. unfold Path_of. simpl. rewrite list_elem_of_filter.
  intros [Hk Hc]. unfold keeps in Hk.
  apply andb_true_iff in Hk as [H1%negb_true_iff H2%negb_true_iff].
  apply bool_decide_eq_false in H1, H2.
  split_and!; [done..|]. by eapply split_no_sep.
Qed.

Lemma wf_joinpath p q : wf_Path p → wf_Path q → wf_Path (joinpath p q).
Proof.
  intros Hp Hq. unfold joinpath. destruct (anchored q); [done|].
  intros c. simpl. rewrite elem_of_app. intros [?|?]; auto.
Qed.

Lemma wf_div p s : wf_Path p → wf_Path (div p s).
Proof. intros. apply wf_joinpath; [done|apply wf_Path_of]. Qed.
End StrFacts.

Section RoundTrip.
Implicit Types (s t u : string) (c : ascii) (n : nat).

Lemma split_nosep c x : Str.contains c x = false → Str.split c x = [x].
Proof.
  induction x as [|a x IH]; simpl; [done|].
  intros [Ha Hx]%orb_false_iff. rewrite Ha, (IH Hx). done.
Qed.

Lemma split_app_sep c x t :
  Str.contains c x = false → Str.split c (x +:+ String c t) = x :: Str.split c t.
Proof.
  induction x as [|a x IH]; cbn [Str.contains].
  - intros _. change ("" +:+ String c t) with (String c t).
    cbn [Str.split]. by rewrite bool_decide_eq_true_2.
  - intros [Ha Hx]%orb_false_iff.
    change (String a x +:+ String c t) with (String a (x +:+ String c t)).
    cbn [Str.split]. rewrite Ha, (IH Hx). done.
Qed.

Lemma split_join (l : list string) :
  l ≠ [] → (∀ x, x ∈ l → Str.contains "/" x = false) →
  Str.split "/" (Str.join "/" l) = l.
Proof.
  induction l as [|x l IH]; [done|]. intros _ Hl.
  destruct l as [|y l].
  - simpl. apply split_nosep, Hl. left.
  - change (Str.join "/" (x :: y :: l)) with (x +:+ "/" +:+ Str.join "/" (y :: l)).
    change ("/" +:+ Str.join "/" (y :: l)) with (String "/" (Str.join "/" (y :: l))).
    rewrite split_app_sep by (apply Hl; left).
    rewrite IH; [done|done|]. intros z Hz. apply Hl. by right.
Qed.

Lemma filter_keeps (l : list string) :
  (∀ x, x ∈ l → x ≠ "" ∧ x ≠ ".") → filter (λ x, keeps x = true) l = l.
Proof.
  induction l as [|x l IH]; [done|]. intros Hl.
  destruct (Hl x ltac:(left)) as [H1 H2].
  rewrite filter_cons_True.
  - rewrite IH; [done|]. intros z Hz. apply Hl. by right.
  - unfold keeps. by rewrite !bool_decide_eq_false_2.
Qed.

Lemma startswith_join x (l : list string) :
  x ≠ "" → Str.contains "/" x = false →
  Str.startswith (Str.join "/" (x :: l)) "/" = false.
Proof.
  intros Hx Hc. destruct x as [|a x]; [done|].
  simpl in Hc. apply orb_false_iff in Hc as [Ha _].
  apply bool_decide_eq_false in Ha.
  destruct l as [|y l].
  - cbn [Str.join Str.startswith]. rewrite bool_decide_eq_false_2; [done|]. congruence.
  - change (Str.join "/" (String a x :: y :: l))
      with (String a (x +:+ "/" +:+ Str.join "/" (y :: l))).
    cbn [Str.startswith]. rewrite bool_decide_eq_false_2; [done|]. congruence.
Qed.

Lemma startswith_slash (s p : string) :
  Str.startswith (String "/" s) (String "/" p) = Str.startswith s p.
Proof. cbn [Str.startswith]. by rewrite bool_decide_eq_true_2. Qed.

Lemma split_slash (s : string) : Str.split "/" (String "/" s) = "" :: Str.split "/" s.
Proof. cbn [Str.split]. by rewrite bool_decide_eq_true_2. Qed.

Lemma startswith_join_any (l : list string) :
  (∀ x, x ∈ l → x ≠ "" ∧ Str.contains "/" x = false) →
  Str.startswith (Str.join "/" l) "/" = false.
Proof.
  destruct l as [|x l]; [done|]. intros Hl.
  destruct (Hl x ltac:(left)). by apply startswith_join.
Qed.

Lemma parts_of_join (l : list string) :
  (∀ x, x ∈ l → Str.contains "/" x = false) →
  (∀ x, x ∈ l → x ≠ "" ∧ x ≠ ".") →
  filter (λ x : string, keeps x = true) (Str.split "/" (Str.join "/" l)) = l.
Proof.
  intros Hsep Hkeep. destruct l as [|x l]; [done|].
  rewrite split_join by done. by rewrite filter_keeps.
Qed.

(** Parsing the printed form of a path gives the path back. *)
Lemma Path_of_str p : wf_Path p → Path_of (str p) = p.
Proof.
  destruct p as [a l]. unfold wf_Path. cbn [parts]. intros Hwf.
  assert (∀ x, x ∈ l → Str.contains "/" x = false) as Hsep by (intros; by apply Hwf).
  assert (∀ x, x ∈ l → x ≠ "" ∧ x ≠ ".") as Hkeep by (intros; split; by apply Hwf).
  assert (Str.startswith (Str.join "/" l) "/" = false) as Hj.
  { apply startswith_join_any. intros x Hx. split; by apply Hwf. }
  unfold Path_of, str. cbn [anchored parts]. destruct a as [[]|].
  - change ("//" +:+ Str.join "/" l) with (String "/" (String "/" (Str.join "/" l))).
    change "///" with (String "/" (String "/" "/")).
    change "//" with (String "/" "/").
    rewrite !startswith_slash, Hj, !split_slash.
    change (Str.startswith (String "/" (String "/" (Str.join "/" l))) "/") with true.
    change (Str.startswith (Str.join "/" l) "") with true.
    cbn [andb negb]. rewrite !filter_cons_False by (by vm_compute).
    by rewrite parts_of_join.
  - change ("/" +:+ Str.join "/" l) with (String "/" (Str.join "/" l)).
    change "///" with (String "/" (String "/" "/")).
    change "//" with (String "/" "/").
    rewrite !startswith_slash, Hj, split_slash.
    change (Str.startswith (String "/" (Str.join "/" l)) "/") with true.
    cbn [andb negb]. rewrite filter_cons_False by (by vm_compute).
    by rewrite parts_of_join.
  - destruct l as [|x l]; [done|].
    rewrite startswith_join by (by apply Hwf; left).
    rewrite split_join by done. by rewrite filter_keeps.
Qed.
End RoundTrip.

Section BackupFacts.
Variable h : Host.
Implicit Types (m : tree) (p q d : path) (s : state).

Lemma parts_snoc (P : Path) : parts P ≠ [] → parts P = removelast (parts P) ++ [name P].
Proof. intros Hne. unfold name. by apply app_removelast_last. Qed.

Lemma locate_snoc (P : Path) :
  parts P ≠ [] → locate h P = locate h (parent P) ++ [name P].
Proof.
  intros Hne. unfold locate, parent. simpl.
  destruct (anchored P).
  - by apply parts_snoc.
  - rewrite <- app_assoc. f_equal. by apply parts_snoc.
Qed.

Lemma locate_backup (P : Path) :
  locate h (backup_path_of h P)
  = locate h (parent P) ++ [name P +:+ ".bak_" +:+ strftime (localtime h)].
Proof.
  unfold locate, backup_path_of, parent. simpl.
  destruct (anchored P); [done|]. by rewrite app_assoc.
Qed.

Lemma parent_backup (P : Path) : parent (backup_path_of h P) = parent P.
Proof. unfold parent, backup_path_of. simpl. by rewrite removelast_snoc. Qed.

Lemma name_wf (P : Path) :
  wf_Path P → parts P ≠ [] → name P ≠ "" ∧ Str.contains "/" (name P) = false.
Proof.
  intros Hwf Hne. destruct (Hwf (name P)) as (? & _ & ?); [|done].
  rewrite (parts_snoc P Hne). apply elem_of_app. right. left.
Qed.

Lemma with_suffix_backup (P : Path) :
  wf_Path P → parts P ≠ [] →
  with_suffix P (suffix P +:+ ".bak_" +:+ strftime (localtime h))
  = Ok (backup_path_of h P).
Proof.
  intros Hwf Hne. destruct (name_wf P Hwf Hne) as [H1 H2].
  apply with_suffix_append; try done.
  - change (".bak_" +:+ strftime (localtime h))
      with (String "." (String "b" (String "a" (String "k" (String "_" (strftime (localtime h))))))).
    simpl. apply contains_strftime.
  - change (".bak_" +:+ strftime (localtime h))
      with (String "." ("bak_" +:+ strftime (localtime h))).
    simpl. lia.
Qed.

Lemma backup_None db s :
  files s !! locate h db = None → _backup_existing_db h db s = (Ok None, s).
Proof.
  intros E. unfold _backup_existing_db. rewrite bind_run. unfold gets.
  by rewrite (exists_None _ _ E).
Qed.

Lemma backup_File db s data t :
  wf_tree (files s) → wf_Path db → parts db ≠ [] →
  files s !! locate h db = Some (File data t) →
  files s !! locate h (backup_path_of h db) ≠ Some Dir →
  _backup_existing_db h db s
  = (Ok (Some (backup_path_of h db)),
     set_files (insert (locate h (backup_path_of h db)) (File data t)) s).
Proof.
  intros Hwf HP Hne E Hnd. unfold _backup_existing_db.
  rewrite bind_run. unfold gets at 1. rewrite (exists_Some _ _ _ E). simpl.
  rewrite bind_run. unfold lift at 1. rewrite with_suffix_backup by done.
  assert (files s !! locate h (parent db) = Some Dir) as Hpar.
  { eapply wf_prefix_dir; [done|by rewrite E| |].
    - rewrite (locate_snoc db Hne). by apply prefix_app_r.
    - rewrite (locate_snoc db Hne). intros H. apply (f_equal length) in H.
      rewrite length_app in H. simpl in H. lia. }
  rewrite bind_run, parent_backup, mkdir_parents_noop by done.
  rewrite bind_run.
  rewrite (copy2_ok _ _ _ data t); [done|done|done| |].
  - rewrite (locate_snoc db Hne), locate_backup. intros H.
    apply app_inj_tail in H as [_ H]. apply (f_equal String.length) in H.
    rewrite length_app_s in H.
    change (".bak_" +:+ strftime (localtime h))
      with (String "." ("bak_" +:+ strftime (localtime h))) in H.
    simpl in H. lia.
  - by rewrite locate_backup, removelast_snoc.
Qed.
End BackupFacts.

Section ExtractFacts.
Variable h : Host.
Implicit Types (m : tree) (p q d dest : path) (s : state).

Lemma removelast_prefix (l : path) : removelast l `prefix_of` l.
Proof.
  destruct (decide (l = [])) as [->|Hne]; [done|].
  rewrite (app_removelast_last "" Hne) at 2. by apply prefix_app_r.
Qed.

Lemma removelast_app_ne (l k : path) : k ≠ [] → removelast (l ++ k) = l ++ removelast k.
Proof. intros. by apply removelast_app. Qed.

Lemma exists_prefix_of_dir m p q :
  wf_tree m → m !! q = Some Dir → p `prefix_of` q → m !! p = Some Dir.
Proof.
  intros Hwf Hq Hp. destruct (decide (p = q)) as [->|Hne]; [done|].
  eapply wf_prefix_dir; eauto.
Qed.

Lemma extract_member_frame dest z s r s' :
  wf_tree (files s) → files s !! dest = Some Dir →
  extract_member h dest z s = (r, s') →
  wf_tree (files s') ∧ files s' !! dest = Some Dir ∧
  stdout s' = stdout s ∧ stderr s' = stderr s ∧
  ∀ p, ¬ (dest `prefix_of` p ∧ p `prefix_of` dest ++ member_parts (filename z)) →
       files s' !! p = files s !! p.
Proof.
  intros Hwf Hdest. unfold extract_member.
  set (target := dest ++ member_parts (filename z)).
  set (upper := removelast target).
  rewrite bind_run. unfold gets at 1. rewrite bind_run.
  match goal with
  | |- context [ (if exists_ ?m ?u then ?a else ?b) s ] =>
      destruct ((if exists_ m u then a else b) s) as [r1 s1] eqn:E1
  end.
  assert (grows [] upper s s1 ∧ wf_tree (files s1)) as [Hg Hwf1].
  { destruct (exists_ (files s) upper).
    - injection E1 as <- <-. split; [apply grows_refl|done].
    - split; [by eapply mkdir_parents_grows|by eapply mkdir_parents_wf]. }
  assert (files s1 !! dest = Some Dir) as Hdest1 by by eapply grows_keeps.
  assert (∀ p, ¬ (dest `prefix_of` p ∧ p `prefix_of` target) →
               files s1 !! p = files s !! p) as Hfr1.
  { intros p Hp. destruct Hg as (_ & _ & Hg).
    destruct (Hg p) as [?|(Hnone & _ & _ & Hpu)]; [done|]. exfalso. apply Hp.
    assert (p `prefix_of` target) as Hpt by (etrans; [exact Hpu|apply removelast_prefix]).
    split; [|done].
    destruct (prefix_weak_total p dest target) as [Hpd|?]; [done|by apply prefix_app_r|..|done].
    rewrite (exists_prefix_of_dir _ _ _ Hwf Hdest Hpd) in Hnone. done. }
  destruct Hg as (Ho & He & _).
  destruct r1 as [[]|e]; [|by intros [= <- <-]].
  destruct (zi_is_dir z).
  - rewrite bind_run. unfold gets at 1.
    destruct (is_dir (files s1) target) eqn:Hd; [by intros [= <- <-]|].
    apply is_dir_false in Hd.
    destruct (files s1 !! target) as [n|] eqn:Ht; [by intros [= <- <-]|].
    destruct (files s1 !! upper) as [[]|] eqn:Hu; intros [= <- <-]; try done.
    simpl. split_and!; try done.
    + by apply wf_insert_dir.
    + rewrite lookup_insert_ne; [done|]. intros Heq. rewrite Heq in *. congruence.
    + intros p Hp. rewrite lookup_insert_ne; [by apply Hfr1|].
      intros Heq. apply Hp. rewrite <- Heq. split; [by apply prefix_app_r|done].
  - intros Hw. apply write_file_cases in Hw as [(-> & Hnd & Hu & ->)|(e & -> & ->)];
      [|done].
    simpl. split_and!; try done.
    + apply wf_insert_file; try done.
      intros Hnil. apply Hnd. rewrite Hnil. apply Hwf1.
    + rewrite lookup_insert_ne; [done|]. intros Heq. rewrite Heq in *. congruence.
    + intros p Hp. rewrite lookup_insert_ne; [by apply Hfr1|].
      intros Heq. apply Hp. rewrite <- Heq. split; [by apply prefix_app_r|done].
Qed.

Lemma extractall_frame archive dest s r s' :
  wf_tree (files s) → files s !! dest = Some Dir →
  extractall h archive dest s = (r, s') →
  wf_tree (files s') ∧ files s' !! dest = Some Dir ∧
  stdout s' = stdout s ∧ stderr s' = stderr s ∧
  ∀ p, (∀ z, z ∈ archive →
          ¬ (dest `prefix_of` p ∧ p `prefix_of` dest ++ member_parts (filename z))) →
       files s' !! p = files s !! p.
Proof.
  unfold extractall. revert s.
  induction archive as [|z archive IH]; intros s Hwf Hdest; simpl.
  - by intros [= <- <-].
  - rewrite bind_run.
    destruct (extract_member h dest z s) as [r1 s1] eqn:E1.
    apply extract_member_frame in E1 as (Hwf1 & Hdest1 & Ho1 & He1 & Hf1); [|done..].
    destruct r1 as [[]|e].
    + intros H2. apply IH in H2 as (? & ? & Ho2 & He2 & Hf2); [|done..].
      split_and!; try done; [congruence..|].
      intros p Hp. rewrite Hf2, Hf1; [done|..].
      * apply Hp. left.
      * intros z' Hz'. apply Hp. by right.
    + intros [= <- <-]. split_and!; try done.
      intros p Hp. apply Hf1, Hp. left.
Qed.

Lemma extractall_outside archive dest s r s' p :
  wf_tree (files s) → files s !! dest = Some Dir →
  extractall h archive dest s = (r, s') →
  ¬ dest `prefix_of` p → files s' !! p = files s !! p.
Proof.
  intros Hwf Hd E Hp. eapply extractall_frame in E as (_ & _ & _ & _ & Hf); [|done..].
  apply Hf. intros z _ [? _]. done.
Qed.
End ExtractFacts.

Section OrderFacts.
Implicit Types (p q r : path) (a b c : string).

Lemma ltb_Lt a b : String.ltb a b = true ↔ String.compare a b = Lt.
Proof. unfold String.ltb. destruct (String.compare a b); naive_solver. Qed.

Lemma ltb_total a b : a ≠ b → String.ltb a b = true ∨ String.ltb b a = true.
Proof.
  intros Hne. rewrite !ltb_Lt. rewrite (String.compare_antisym b a).
  destruct (String.compare a b) eqn:E; simpl; auto.
  apply String.compare_eq_iff in E. done.
Qed.

Lemma ltb_leb a b : String.ltb a b = true → String.leb a b = true.
Proof. rewrite ltb_Lt. unfold String.leb. by intros ->. Qed.

Lemma compare_refl a : String.compare a a = Eq.
Proof.
  induction a as [|x a IH]; simpl; [done|].
  unfold Ascii.compare. by rewrite N.compare_refl.
Qed.

Lemma ltb_irrefl a : String.ltb a a = false.
Proof. unfold String.ltb. by rewrite compare_refl. Qed.

Lemma ltb_trans a b c :
  String.ltb a b = true → String.ltb b c = true → String.ltb a c = true.
Proof.
  intros Hab Hbc.
  assert (String.le a c) as Hac.
  { etrans; apply Is_true_true; apply ltb_leb; eauto. }
  apply Is_true_true in Hac. apply ltb_Lt.
  destruct (String.compare a c) eqn:E; [|done|].
  - apply String.compare_eq_iff in E as ->.
    assert (b = c) as ->.
    { apply String.leb_antisym; by apply ltb_leb. }
    by rewrite ltb_irrefl in Hab.
  - unfold String.leb in Hac. by rewrite E in Hac.
Qed.

Global Instance path_le_total : Total path_le.
Proof.
  intros p. unfold path_le. induction p as [|a p IH]; intros [|b q]; simpl; auto.
  destruct (decide (a = b)) as [->|Hne].
  - rewrite decide_True by done. apply IH.
  - rewrite (decide_False (P := b = a)) by done. by apply ltb_total.
Qed.

Global Instance path_le_trans : Transitive path_le.
Proof.
  intros p. unfold path_le.
  induction p as [|a p IH]; intros [|b q] [|c r]; simpl; try done.
  destruct (decide (a = b)) as [->|Hab], (decide (b = c)) as [->|Hbc].
  - apply IH.
  - done.
  - rewrite decide_False by done. done.
  - intros H1 H2. destruct (decide (a = c)) as [->|Hac].
    + pose proof (ltb_trans _ _ _ H1 H2) as H. by rewrite ltb_irrefl in H.
    + by eapply ltb_trans.
Qed.

(** The head of a sorted listing is one of its elements and is below every
    other one. *)
Lemma sorted_head (l : list path) first rest :
  sorted l = first :: rest →
  first ∈ l ∧ ∀ x : path, x ∈ l → path_le first x.
Proof.
  intros E. unfold sorted in E.
  pose proof (merge_sort_Permutation path_le l) as Hperm.
  pose proof (StronglySorted_merge_sort path_le l) as Hs.
  rewrite E in Hperm, Hs. split.
  - rewrite <- Hperm. left.
  - intros x Hc. rewrite <- Hperm in Hc.
    apply elem_of_cons in Hc as [->|Hc].
    + destruct (total path_le first first); done.
    + apply StronglySorted_inv in Hs as [_ Hall].
      rewrite Forall_forall in Hall. by apply Hall.
Qed.

Lemma sorted_nil (l : list path) : sorted l = [] ↔ l = [].
Proof.
  unfold sorted. pose proof (merge_sort_Permutation path_le l) as Hperm. split.
  - intros E. rewrite E in Hperm. by apply Permutation_nil_l in Hperm.
  - intros ->. done.
Qed.

Lemma elem_of_sorted (l : list path) (x : path) : x ∈ sorted l ↔ x ∈ l.
Proof. unfold sorted. by rewrite merge_sort_Permutation. Qed.
End OrderFacts.

Section ListingFacts.
Implicit Types (m : tree) (p q d : path).

Lemma elem_of_glob_db m d p :
  p ∈ glob_db m d ↔
  m !! d = Some Dir ∧ is_Some (m !! p) ∧
  ∃ x, p = d ++ [x] ∧ Str.endswith x ".db" = true.
Proof.
  unfold glob_db. destruct (is_dir m d) eqn:Hd.
  - apply is_dir_true in Hd.
    rewrite list_elem_of_filter, elem_of_elements, elem_of_dom, db_child_spec.
    split; [intros [? ?]|intros (_ & ? & ?)]; auto.
  - apply is_dir_false in Hd. split; [by intros ?%elem_of_nil|by intros [? _]].
Qed.

Lemma elem_of_rglob m d p :
  p ∈ rglob m d ↔
  m !! d = Some Dir ∧ is_Some (m !! p) ∧ ∃ x rel, p = d ++ x :: rel.
Proof.
  unfold rglob. destruct (is_dir m d) eqn:Hd.
  - apply is_dir_true in Hd.
    rewrite list_elem_of_filter, elem_of_elements, elem_of_dom, below_spec.
    split; [intros [? ?]|intros (_ & ? & ?)]; auto.
  - apply is_dir_false in Hd. split; [by intros ?%elem_of_nil|by intros [? _]].
Qed.

Lemma NoDup_rglob m d : NoDup (rglob m d).
Proof.
  unfold rglob. destruct (is_dir m d); [|constructor].
  apply NoDup_filter, NoDup_elements.
Qed.
End ListingFacts.

Section CopyFacts.
Variables (source dest : path).
Hypothesis Hsep : ∀ rel : path, ¬ source `prefix_of` dest ++ rel.
Implicit Types (m : tree) (p q : path) (s : state) (l acc : list path).

Lemma is_file_true m p : is_file m p = true ↔ ∃ data t, m !! p = Some (File data t).
Proof.
  unfold is_file. destruct (m !! p) as [[data t|]|]; split; try done; eauto.
  - by intros (? & ? & ?).
  - by intros (? & ? & ?).
Qed.

Lemma is_file_agree m m' p : m' !! p = m !! p → is_file m' p = is_file m p.
Proof. unfold is_file. by intros ->. Qed.

Lemma filter_is_file_agree m m' l :
  (∀ p, p ∈ l → m' !! p = m !! p) →
  filter (λ p, is_file m' p = true) l = filter (λ p, is_file m p = true) l.
Proof.
  induction l as [|p l IH]; intros H; [done|].
  rewrite !filter_cons, (is_file_agree m m' p) by (apply H; left).
  rewrite IH; [done|]. intros q Hq. apply H. by right.
Qed.

(** What one file's copy can touch lies below the destination, never below
    the source. *)
Lemma copy_loop_inv l acc s r s' :
  (∀ p, p ∈ l → source `prefix_of` p) →
  _copy_tree_loop source dest l acc s = (r, s') →
  stdout s' = stdout s ∧ stderr s' = stderr s ∧
  (∀ p, source `prefix_of` p → files s' !! p = files s !! p) ∧
  (∀ q n, files s !! q = Some n →
     (∀ p rel, p ∈ l → is_file (files s) p = true →
               relative_to p source = Some rel → ¬ (dest ++ rel) `prefix_of` q) →
     files s' !! q = Some n).
Proof.
  revert acc s. induction l as [|p l IH]; intros acc s Hl; simpl.
  { intros [= <- <-]. auto. }
  rewrite bind_run. unfold gets at 1.
  assert (∀ p', p' ∈ l → source `prefix_of` p') as Hl' by (intros; apply Hl; by right).
  destruct (is_file (files s) p) eqn:Hf; last first.
  { intros H. apply IH in H as (? & ? & HA & HF); [|done].
    split_and!; try done. intros q n Hq Hno. apply HF; [done|].
    intros p' rel Hp'. apply Hno. by right. }
  destruct (Hl p ltac:(left)) as [rel ->]. rewrite relative_to_app.
  set (target := dest ++ rel).
  rewrite bind_run. destruct (mkdir_parents (removelast target) s) as [r1 s1] eqn:E1.
  apply mkdir_parents_grows in E1.
  assert (∀ p', source `prefix_of` p' → files s1 !! p' = files s !! p') as HA1.
  { intros p' Hp'. destruct E1 as (_ & _ & Hg).
    destruct (Hg p') as [?|(_ & _ & _ & Hpu)]; [done|]. exfalso.
    apply (Hsep rel). etrans; [exact Hp'|]. etrans; [exact Hpu|].
    apply removelast_prefix. }
  destruct r1 as [[]|e].
  2:{ intros [= <- <-]. destruct E1 as (? & ? & ?). split_and!; try done.
      intros q n Hq _. eapply grows_keeps; [|done]. repeat split; done. }
  rewrite bind_run. destruct (copy2 (source ++ rel) target s1) as [r2 s2] eqn:E2.
  apply copy2_cases in E2
    as [(data & t & w & Hw & -> & Hsrc & _ & _ & _ & ->)|(e & -> & ->)].
  2:{ intros [= <- <-]. destruct E1 as (? & ? & ?). split_and!; try done.
      intros q n Hq _. eapply grows_keeps; [|done]. repeat split; done. }
  assert (target `prefix_of` w) as Htw.
  { rewrite Hw. destruct (is_dir (files s1) target); [by apply prefix_app_r|done]. }
  assert (¬ source `prefix_of` w) as Hsw.
  { rewrite Hw. unfold target. destruct (is_dir (files s1) (dest ++ rel)).
    - rewrite <- app_assoc. apply Hsep.
    - apply Hsep. }
  intros H. apply IH in H as (Ho & He & HA & HF); [|done].
  destruct E1 as (Ho1 & He1 & Hg1). simpl in *.
  split_and!; [congruence..| |].
  - intros p' Hp'. rewrite HA by done. rewrite lookup_insert_ne.
    + by apply HA1.
    + intros <-. done.
  - intros q n Hq Hno. apply HF.
    + rewrite lookup_insert_ne.
      * eapply grows_keeps; [|done]. repeat split; done.
      * intros <-. eapply (Hno (source ++ rel) rel); [left|done|apply relative_to_app|done].
    + intros p' rel' Hp' Hf' Hrel'. apply (Hno p' rel'); [by right| |done].
      rewrite <- Hf'. symmetry. apply is_file_agree.
      rewrite lookup_insert_ne.
      * apply HA1. by apply Hl'.
      * intros <-. apply Hsw. by apply Hl'.
Qed.
End CopyFacts.

Section CopyCorrect.
Variables (source dest : path).
Hypothesis Hsep : ∀ rel : path, ¬ source `prefix_of` dest ++ rel.
Implicit Types (m : tree) (p q : path) (s : state) (l acc : list path).

Lemma copy_loop_wf l acc s r s' :
  wf_tree (files s) →
  _copy_tree_loop source dest l acc s = (r, s') → wf_tree (files s').
Proof.
  revert acc s. induction l as [|p l IH]; intros acc s Hwf; simpl.
  { by intros [= <- <-]. }
  rewrite bind_run. unfold gets at 1.
  destruct (is_file (files s) p); [|by apply IH].
  destruct (relative_to p source) as [rel|]; [|by intros [= <- <-]].
  rewrite bind_run. destruct (mkdir_parents _ s) as [r1 s1] eqn:E1.
  apply mkdir_parents_wf in E1; [|done].
  destruct r1 as [[]|e]; [|by intros [= <- <-]].
  rewrite bind_run. destruct (copy2 p (dest ++ rel) s1) as [r2 s2] eqn:E2.
  apply copy2_cases in E2
    as [(data & t & w & Hw & -> & Hsrc & _ & Hnd & Hpar & ->)|(e & -> & ->)];
    [|by intros [= <- <-]].
  apply IH. simpl. apply wf_insert_file; try done.
  intros Hnil. apply Hnd. rewrite Hnil. apply E1.
Qed.

Lemma not_prefix_removelast (k : path) : k ≠ [] → ¬ k `prefix_of` removelast k.
Proof.
  intros Hne Hpre. apply prefix_length in Hpre.
  rewrite (app_removelast_last "" Hne) in Hpre at 1.
  rewrite length_app in Hpre. simpl in Hpre. lia.
Qed.

(** Every regular file of the listing arrives at the same relative path
    below the destination, provided no directory sits where a file is to
    go. *)
Lemma copy_loop_correct l acc s copied s' :
  wf_tree (files s) → NoDup l →
  (∀ p, p ∈ l → ∃ x rel, p = source ++ x :: rel) →
  (∀ p rel, p ∈ l → is_file (files s) p = true →
            relative_to p source = Some rel → files s !! (dest ++ rel) ≠ Some Dir) →
  _copy_tree_loop source dest l acc s = (Ok copied, s') →
  (∀ p rel data t, p ∈ l → files s !! p = Some (File data t) →
                   relative_to p source = Some rel →
                   files s' !! (dest ++ rel) = Some (File data t)) ∧
  length copied
  = (length acc + length (filter (λ p, is_file (files s) p = true) l))%nat.
Proof.
  revert acc s. induction l as [|p l IH]; intros acc s Hwf Hnd Hshape HI2; simpl.
  { intros [= <- <-]. split; [by intros ???? ?%elem_of_nil|]. simpl. lia. }
  apply NoDup_cons in Hnd as [Hp Hnd].
  assert (∀ p', p' ∈ l → ∃ x rel, p' = source ++ x :: rel) as Hshape'
    by (intros; apply Hshape; by right).
  assert (∀ p', p' ∈ l → source `prefix_of` p') as Hunder.
  { intros p' Hp'. destruct (Hshape' p' Hp') as (x & rel & ->). by apply prefix_app_r. }
  rewrite bind_run. unfold gets at 1. rewrite filter_cons.
  destruct (is_file (files s) p) eqn:Hf; last first.
  { intros H. apply IH in H as [H1 H2]; try done.
    - split.
      + intros p' rel data t [->|Hp']%elem_of_cons Hfile; [|by apply H1].
        assert (is_file (files s) p = true) as Hf'' by (apply is_file_true; eauto).
        congruence.
      + rewrite decide_False by done. done.
    - intros p' rel Hp'. apply HI2. by right. }
  rewrite decide_True by done.
  destruct (Hshape p ltac:(left)) as (x & rel0 & ->).
  rewrite relative_to_app. set (rel := x :: rel0) in *. set (target := dest ++ rel) in *.
  apply is_file_true in Hf as (data & t & Hfile).
  intros H. apply bind_Ok in H as ([] & s1 & E1 & H).
  apply bind_Ok in H as (w & s2 & E2 & H).
  pose proof (mkdir_parents_wf _ _ _ _ Hwf E1) as Hwf1.
  apply mkdir_parents_grows in E1.
  assert (files s1 !! target ≠ Some Dir) as Hnd1.
  { intros Hd. eapply grows_dir in Hd as [Hd|(_ & _ & Hpre)]; [| |exact E1].
    - eapply (HI2 (source ++ rel) rel); [left| |apply relative_to_app|exact Hd].
      apply is_file_true. eauto.
    - apply (not_prefix_removelast target); [|done].
      unfold target, rel. by destruct dest. }
  apply copy2_cases in E2
    as [(data' & t' & w' & Hw & [= <-] & Hsrc & _ & _ & Hpar & ->)|(e & ? & _)];
    [|done].
  apply is_dir_false in Hnd1. rewrite Hnd1 in Hw. subst w.
  assert (files s1 !! (source ++ rel) = Some (File data t)) as Hsrc1
    by (eapply grows_keeps; [exact E1|done]).
  assert (data' = data ∧ t' = t) as [-> ->].
  { cut (Some (File data' t') = Some (File data t)); [by intros [= -> ->]|].
    rewrite <- Hsrc. exact Hsrc1. }
  apply is_dir_false in Hnd1.
  set (s2 := set_files (insert target (File data t)) s1) in *.
  assert (∀ p', source `prefix_of` p' → files s2 !! p' = files s !! p') as HA.
  { intros p' Hp'. unfold s2. simpl. rewrite lookup_insert_ne.
    - destruct E1 as (_ & _ & Hg).
      destruct (Hg p') as [?|(_ & _ & _ & Hpu)]; [done|]. exfalso.
      apply (Hsep rel). etrans; [exact Hp'|]. etrans; [exact Hpu|].
      apply removelast_prefix.
    - intros <-. by apply (Hsep rel). }
  assert (wf_tree (files s2)) as Hwf2.
  { unfold s2. simpl. apply wf_insert_file; try done.
    intros Hnil. apply Hnd1. rewrite Hnil. apply Hwf1. }
  (* a regular file of the rest of the listing is not above [source ++ rel] *)
  assert (∀ p' rel', p' ∈ l → is_file (files s) p' = true →
                     relative_to p' source = Some rel' → ¬ rel' `prefix_of` rel)
    as Hnotabove.
  { intros p' rel' Hp' Hf' Hrel' Hpre.
    apply relative_to_Some in Hrel' as ->.
    apply is_file_true in Hf' as (d' & t' & Hfile').
    assert (source ++ rel' ≠ source ++ rel) as Hne by (intros E; by rewrite E in Hp').
    pose proof (wf_below_file _ _ (source ++ rel) _ _ Hwf Hfile') as Hnone.
    rewrite Hnone in Hfile; [done| |done]. by apply prefix_app. }
  pose proof H as Hloop.
  apply IH in H as [H1 H2]; try done.
  - split.
    + intros p' rel' d' t' [->|Hp']%elem_of_cons Hfile' Hrel'.
      * rewrite relative_to_app in Hrel'. injection Hrel' as <-.
        rewrite Hfile in Hfile'. injection Hfile' as <- <-.
        eapply copy_loop_inv in Hloop as (_ & _ & _ & HF); [|done|done].
        apply HF; [unfold s2; simpl; by rewrite lookup_insert_eq|].
        intros p'' rel'' Hp'' Hf'' Hrel'' Hpre.
        apply (Hnotabove p'' rel''); try done.
        -- rewrite <- Hf''. symmetry. apply is_file_agree, HA. by apply Hunder.
        -- by apply prefix_app_inv in Hpre.
      * apply (H1 p' rel'); try done. rewrite HA; [done|]. by apply Hunder.
    + rewrite H2, length_app. simpl.
      rewrite (filter_is_file_agree (files s) (files s2)); [lia|].
      intros p' Hp'. apply HA. by apply Hunder.
  - intros p' rel' Hp' Hf' Hrel'.
    assert (is_file (files s) p' = true) as Hfs.
    { rewrite <- Hf'. symmetry. apply is_file_agree, HA. by apply Hunder. }
    unfold s2. simpl. destruct (decide (target = dest ++ rel')) as [<-|Hne].
    + by rewrite lookup_insert_eq.
    + rewrite lookup_insert_ne by done. intros Hd.
      eapply grows_dir in Hd as [Hd|(_ & _ & Hpre)]; [| |exact E1].
      * by eapply (HI2 p' rel'); [right|..].
      * apply (Hnotabove p' rel'); try done.
        unfold target in Hpre. rewrite removelast_app in Hpre by done.
        apply prefix_app_inv in Hpre. etrans; [exact Hpre|apply removelast_prefix].
Qed.
End CopyCorrect.

Section BlockFacts.
Variable h : Host.
Implicit Types (m : tree) (p q d : path) (s : state) (db dd : Path).

Lemma locate_parent_prefix db : locate h (parent db) `prefix_of` locate h db.
Proof.
  unfold locate, parent. simpl. destruct (anchored db).
  - apply removelast_prefix.
  - apply prefix_app, removelast_prefix.
Qed.

Lemma with_suffix_no_name db sfx : parts db = [] → ∃ e, with_suffix db sfx = Raise e.
Proof.
  intros Hnil. unfold with_suffix, name. rewrite Hnil. simpl.
  destruct (Str.contains "/" sfx); [eauto|].
  destruct (_ || _); eauto.
Qed.

Lemma backup_ne db :
  parts db ≠ [] → ¬ locate h (backup_path_of h db) `prefix_of` locate h db.
Proof.
  intros Hne. rewrite locate_backup, (locate_snoc h db Hne).
  intros Hpre%prefix_app_inv. apply prefix_cons_inv_1 in Hpre.
  apply (f_equal String.length) in Hpre. rewrite length_app_s in Hpre.
  change (".bak_" +:+ strftime (localtime h))
    with (String "." ("bak_" +:+ strftime (localtime h))) in Hpre.
  simpl in Hpre. lia.
Qed.

Lemma comparable_above (base q w : path) :
  base `prefix_of` w → ¬ comparable q base → q ≠ w.
Proof. intros Hb Hn ->. apply Hn. by right. Qed.

(** What the backup step can touch, whatever its outcome. *)
Lemma backup_frame db s r s' :
  wf_tree (files s) → wf_Path db →
  _backup_existing_db h db s = (r, s') →
  wf_tree (files s') ∧ stdout s' = stdout s ∧ stderr s' = stderr s ∧
  (∀ q, ¬ comparable q (locate h (parent db)) → files s' !! q = files s !! q) ∧
  (∀ q n, files s !! q = Some n →
          ¬ locate h (backup_path_of h db) `prefix_of` q → files s' !! q = Some n) ∧
  (∀ q, files s' !! q = Some Dir →
        files s !! q = Some Dir ∨ q `prefix_of` locate h (parent db)).
Proof.
  intros Hwf HP. unfold _backup_existing_db. rewrite bind_run. unfold gets at 1.
  destruct (exists_ (files s) (locate h db)); simpl.
  2:{ intros [= <- <-]. split_and!; auto. }
  rewrite bind_run. unfold lift at 1.
  destruct (decide (parts db = [])) as [Hnil|Hne].
  { destruct (with_suffix_no_name db (suffix db +:+ ".bak_" +:+ strftime (localtime h)) Hnil)
      as [e ->].
    intros [= <- <-]. split_and!; auto. }
  rewrite with_suffix_backup by done.
  rewrite bind_run, parent_backup.
  destruct (mkdir_parents (locate h (parent db)) s) as [r1 s1] eqn:E1.
  pose proof (mkdir_parents_wf _ _ _ _ Hwf E1) as Hwf1.
  apply mkdir_parents_grows in E1.
  assert (∀ q, ¬ comparable q (locate h (parent db)) → files s1 !! q = files s !! q)
    as Hf1.
  { intros q Hq. eapply grows_outside; [exact E1|]. intros [_ ?]. apply Hq. by left. }
  assert (∀ q, files s1 !! q = Some Dir →
               files s !! q = Some Dir ∨ q `prefix_of` locate h (parent db)) as Hd1.
  { intros q Hq. eapply grows_dir in Hq as [?|(_ & _ & ?)]; [by left|by right|exact E1]. }
  pose proof E1 as (Ho1 & He1 & _).
  destruct r1 as [[]|e].
  2:{ intros [= <- <-]. split_and!; try done.
      intros q n Hq _. by eapply grows_keeps. }
  rewrite bind_run.
  destruct (copy2 (locate h db) (locate h (backup_path_of h db)) s1) as [r2 s2] eqn:E2.
  apply copy2_cases in E2
    as [(data & t & w & Hw & -> & Hsrc & _ & Hnd & Hpar & ->)|(e & -> & ->)].
  2:{ intros [= <- <-]. split_and!; try done.
      intros q n Hq _. by eapply grows_keeps. }
  intros [= <- <-]. simpl.
  assert (locate h (backup_path_of h db) `prefix_of` w) as Hbw.
  { rewrite Hw. destruct (is_dir _ _); [by apply prefix_app_r|done]. }
  assert (locate h (parent db) `prefix_of` w) as Hpw.
  { etrans; [|exact Hbw]. rewrite locate_backup. by apply prefix_app_r. }
  split_and!; try done.
  - apply wf_insert_file; try done.
    intros Hnil. apply Hnd. rewrite Hnil. apply Hwf1.
  - intros q Hq. rewrite lookup_insert_ne; [by apply Hf1|].
    intros <-. apply Hq. by right.
  - intros q n Hq Hnb. rewrite lookup_insert_ne; [by eapply grows_keeps|].
    by intros <-.
  - intros q Hq. destruct (decide (w = q)) as [<-|Hneq].
    + by rewrite lookup_insert_eq in Hq.
    + rewrite lookup_insert_ne in Hq by done. by apply Hd1.
Qed.
End BlockFacts.

Section DatabaseBlock.
Variable h : Host.
Implicit Types (m : tree) (p q d : path) (s : state) (db dd : Path).

Lemma candidates_exist db_dir s first rest :
  sorted (glob_db (files s) db_dir) = first :: rest →
  exists_ (files s) db_dir = true.
Proof.
  intros E. apply sorted_head in E as [Hin _].
  apply elem_of_glob_db in Hin as (Hd & _). by eapply exists_Some.
Qed.

Lemma candidates_of s db_dir :
  (if exists_ (files s) db_dir then gets (λ m, sorted (glob_db m db_dir)) else mret [])
    s
  = (Ok (sorted (glob_db (files s) db_dir)), s).
Proof.
  destruct (exists_ (files s) db_dir) eqn:E; [done|].
  unfold glob_db, is_dir. rewrite bool_decide_eq_false_2; [done|].
  intros Hd. by rewrite (exists_Some _ _ _ Hd) in E.
Qed.

(** What the database block can touch, whatever its outcome. *)
Lemma restore_database_frame db_dir db s r s' :
  wf_tree (files s) → wf_Path db →
  restore_database h db_dir db s = (r, s') →
  wf_tree (files s') ∧ stderr s' = stderr s ∧
  (∀ q, ¬ comparable q (locate h (parent db)) → files s' !! q = files s !! q) ∧
  (∀ q, files s' !! q = Some Dir →
        files s !! q = Some Dir ∨ q `prefix_of` locate h (parent db)).
Proof.
  intros Hwf HP. unfold restore_database. rewrite bind_run. unfold gets at 1.
  rewrite bind_run, candidates_of.
  destruct (sorted (glob_db (files s) db_dir)) as [|first rest].
  { intros [= <- <-]. simpl. split_and!; auto. }
  rewrite bind_run. destruct (_backup_existing_db h db s) as [r1 s1] eqn:E1.
  apply backup_frame in E1 as (Hwf1 & Ho1 & He1 & Hf1 & _ & Hd1); [|done..].
  destruct r1 as [b|e]; [|by intros [= <- <-]].
  rewrite bind_run.
  set (s1' := (match b with
               | Some b0 => print ("Backed up existing database to " +:+ str b0)
               | None => mret ()
               end s1).2).
  assert (files s1' = files s1 ∧ stderr s1' = stderr s1) as [Hfs Hes]
    by (unfold s1'; by destruct b).
  replace (match b with
           | Some b0 => print ("Backed up existing database to " +:+ str b0)
           | None => mret ()
           end s1) with (Ok (), s1') by (unfold s1'; by destruct b).
  rewrite bind_run.
  destruct (mkdir_parents (locate h (parent db)) s1') as [r2 s2] eqn:E2.
  pose proof E2 as Hwf2. apply mkdir_parents_wf in Hwf2; [|by rewrite Hfs].
  apply mkdir_parents_grows in E2. pose proof E2 as (_ & He2 & _).
  assert (∀ q, ¬ comparable q (locate h (parent db)) → files s2 !! q = files s !! q)
    as Hf2.
  { intros q Hq. rewrite <- Hf1, <- Hfs by done.
    eapply grows_outside; [exact E2|]. intros [_ ?]. apply Hq. by left. }
  assert (∀ q, files s2 !! q = Some Dir →
               files s !! q = Some Dir ∨ q `prefix_of` locate h (parent db)) as Hd2.
  { intros q Hq. eapply grows_dir in Hq as [Hq|(_ & _ & ?)]; [|by right|exact E2].
    rewrite Hfs in Hq. by apply Hd1. }
  destruct r2 as [[]|e]; [|intros [= <- <-]; split_and!; try done; congruence].
  rewrite bind_run.
  destruct (copy2 first (locate h db) s2) as [r3 s3] eqn:E3.
  apply copy2_cases in E3
    as [(data & t & w & Hw & -> & Hsrc & _ & Hnd & Hpar & ->)|(e & -> & ->)];
    [|intros [= <- <-]; split_and!; try done; congruence].
  intros [= <- <-]. simpl.
  assert (locate h (parent db) `prefix_of` w) as Hpw.
  { etrans; [apply locate_parent_prefix|]. rewrite Hw.
    destruct (is_dir _ _); [by apply prefix_app_r|done]. }
  split_and!; try congruence.
  - apply wf_insert_file; try done.
    intros Hnil. apply Hnd. rewrite Hnil. apply Hwf2.
  - intros q Hq. rewrite lookup_insert_ne; [by apply Hf2|].
    intros <-. apply Hq. by right.
  - intros q Hq. destruct (decide (w = q)) as [<-|Hneq].
    + by rewrite lookup_insert_eq in Hq.
    + rewrite lookup_insert_ne in Hq by done. by apply Hd2.
Qed.

(** With no candidate the block prints the skip and does nothing else. *)
Lemma restore_database_skip db_dir db s :
  sorted (glob_db (files s) db_dir) = [] →
  restore_database h db_dir db s
  = (Ok (), {| files := files s;
               stdout := stdout s
                         ++ ["No database file found in archive; skipping DB restore."];
               stderr := stderr s |}).
Proof.
  intros E. unfold restore_database. rewrite bind_run. unfold gets at 1.
  rewrite bind_run, candidates_of, E. done.
Qed.

(** With a candidate, a block that returns has put the first candidate at
    the database path, and a database that was there has been copied to
    the backup path first. *)
Lemma restore_database_ok db_dir db s s' first rest :
  wf_tree (files s) → wf_Path db → parts db ≠ [] →
  sorted (glob_db (files s) db_dir) = first :: rest →
  ¬ comparable first (locate h (parent db)) →
  restore_database h db_dir db s = (Ok (), s') →
  ∃ data t,
    files s !! first = Some (File data t) ∧
    files s' !! locate h db = Some (File data t) ∧
    (∀ bdata bt, files s !! locate h db = Some (File bdata bt) →
                 files s !! locate h (backup_path_of h db) ≠ Some Dir →
                 files s' !! locate h (backup_path_of h db) = Some (File bdata bt)).
Proof.
  intros Hwf HP Hne Hcand Hfirst. unfold restore_database.
  rewrite bind_run. unfold gets at 1. rewrite bind_run, candidates_of, Hcand.
  intros H. apply bind_Ok in H as (b & s1 & E1 & H).
  apply bind_Ok in H as ([] & s1' & Eprint & H).
  apply bind_Ok in H as ([] & s2 & E2 & H).
  apply bind_Ok in H as (w & s3 & E3 & H).
  injection H as <-.
  assert (files s1' = files s1) as Hfs
    by (destruct b; by injection Eprint as <-).
  pose proof (backup_frame h _ _ _ _ Hwf HP E1) as (Hwf1 & _ & _ & Hf1 & Hk1 & Hd1).
  apply mkdir_parents_grows in E2.
  apply copy2_cases in E3
    as [(data & t & w' & Hw & [= <-] & Hsrc & _ & _ & _ & ->)|(e & ? & _)]; [|done].
  (* the source is as extraction left it *)
  assert (files s !! first = Some (File data t)) as Hsrc0.
  { rewrite <- Hf1 by done. rewrite <- Hfs.
    destruct E2 as (_ & _ & Hg). destruct (Hg first) as [E|(_ & E & _)]; congruence. }
  (* the database path is not a directory when the copy is made *)
  assert (files s1 !! locate h db ≠ Some Dir) as Hnd1.
  { intros Hd. revert E1. unfold _backup_existing_db.
    rewrite bind_run. unfold gets at 1.
    destruct (files s !! locate h db) as [n|] eqn:Hdb.
    - rewrite (exists_Some _ _ _ Hdb). simpl.
      rewrite bind_run. unfold lift at 1. rewrite with_suffix_backup by done.
      rewrite bind_run, parent_backup.
      destruct (mkdir_parents (locate h (parent db)) s) as [r1 t1] eqn:Em.
      apply mkdir_parents_grows in Em.
      destruct r1 as [[]|e]; [|done].
      rewrite bind_run.
      destruct (copy2 (locate h db) (locate h (backup_path_of h db)) t1)
        as [r2 t2] eqn:Ec.
      apply copy2_cases in Ec
        as [(bd & bt & w' & Hw' & -> & Hs & _ & _ & _ & ->)|(e & -> & ->)]; [|done].
      intros [= <- <-]. simpl in Hd.
      assert (w' ≠ locate h db) as Hwne.
      { intros E. apply (backup_ne h db Hne). rewrite <- E, Hw'.
        destruct (is_dir (files t1) _); [by apply prefix_app_r|done]. }
      rewrite lookup_insert_ne in Hd by done. congruence.
    - rewrite (exists_None _ _ Hdb). simpl. intros [= <- <-]. congruence. }
  assert (files s2 !! locate h db ≠ Some Dir) as Hnd2.
  { intros Hd. eapply grows_dir in Hd as [Hd|(_ & _ & Hpre)]; [| |exact E2].
    - rewrite Hfs in Hd. done.
    - rewrite (locate_snoc h db Hne) in Hpre.
      apply (not_prefix_removelast (locate h (parent db) ++ [name db])).
      + by destruct (locate h (parent db)).
      + by rewrite removelast_snoc. }
  apply is_dir_false in Hnd2. rewrite Hnd2 in Hw. subst w.
  exists data, t. simpl. split_and!; [done|by rewrite lookup_insert_eq|].
  intros bdata bt Hdb Hbk.
  rewrite (backup_File h db s bdata bt) in E1 by done.
  injection E1 as <- <-.
  rewrite lookup_insert_ne.
  - eapply grows_keeps; [exact E2|]. rewrite Hfs. simpl. by rewrite lookup_insert_eq.
  - intros E. apply (backup_ne h db Hne). by rewrite <- E.
Qed.
End DatabaseBlock.

Section StorageBlock.
Variable h : Host.
Variables (storage_dir : path) (dd : Path).
Hypothesis Hsep : ∀ rel : path, ¬ storage_dir `prefix_of` locate h dd ++ rel.
Implicit Types (m : tree) (p q d : path) (s : state).

Lemma rglob_agree m m' d :
  (∀ p, d `prefix_of` p → m' !! p = m !! p) → rglob m' d ≡ₚ rglob m d.
Proof.
  intros H. apply NoDup_Permutation; [apply NoDup_rglob..|].
  intros p. rewrite !elem_of_rglob. rewrite (H d) by done.
  split; intros (? & Hp & x & rel & ->); split_and!; eauto.
  - rewrite <- H; [done|by apply prefix_app_r].
  - rewrite H; [done|by apply prefix_app_r].
Qed.

Lemma restore_storage_skip s :
  files s !! storage_dir = None →
  restore_storage h storage_dir dd s
  = (Ok (), {| files := files s;
               stdout := stdout s
                         ++ ["No storage directory found in archive; skipping file restore."];
               stderr := stderr s |}).
Proof.
  intros E. unfold restore_storage. rewrite bind_run. unfold gets at 1.
  by rewrite (exists_None _ _ E).
Qed.

Lemma mkdir_dd_agree s r1 s1 :
  mkdir_parents (locate h dd) s = (r1, s1) →
  ∀ p, storage_dir `prefix_of` p → files s1 !! p = files s !! p.
Proof.
  intros E1%mkdir_parents_grows p Hp. eapply grows_outside; [exact E1|].
  intros [_ Hq]. apply (Hsep []). rewrite app_nil_r. by etrans.
Qed.

(** What the storage block can touch, whatever its outcome. *)
Lemma restore_storage_frame s r s' :
  wf_tree (files s) →
  restore_storage h storage_dir dd s = (r, s') →
  wf_tree (files s') ∧ stderr s' = stderr s ∧
  (∀ q n, files s !! q = Some n →
     (∀ p rel, p ∈ rglob (files s) storage_dir → is_file (files s) p = true →
               relative_to p storage_dir = Some rel →
               ¬ (locate h dd ++ rel) `prefix_of` q) →
     files s' !! q = Some n).
Proof.
  intros Hwf. unfold restore_storage. rewrite bind_run. unfold gets at 1.
  destruct (exists_ (files s) storage_dir).
  2:{ intros [= <- <-]. simpl. auto. }
  rewrite bind_run. destruct (mkdir_parents (locate h dd) s) as [r1 s1] eqn:E1.
  pose proof (mkdir_parents_wf _ _ _ _ Hwf E1) as Hwf1.
  pose proof (mkdir_dd_agree _ _ _ E1) as HA1.
  apply mkdir_parents_grows in E1. pose proof E1 as (_ & He1 & _).
  destruct r1 as [[]|e].
  2:{ intros [= <- <-]. split_and!; try done.
      intros q n Hq _. by eapply grows_keeps. }
  rewrite bind_run. unfold _copy_tree. rewrite bind_run. unfold gets at 1.
  destruct (_copy_tree_loop storage_dir (locate h dd) (rglob (files s1) storage_dir) [] s1)
    as [r2 s2] eqn:E2.
  pose proof (copy_loop_wf _ _ _ _ _ _ _ Hwf1 E2) as Hwf2.
  apply copy_loop_inv in E2 as (_ & He2 & _ & HF); [|done|]; last first.
  { intros p (_ & _ & x & rel & ->)%elem_of_rglob. by apply prefix_app_r. }
  assert (∀ q n, files s !! q = Some n →
     (∀ p rel, p ∈ rglob (files s) storage_dir → is_file (files s) p = true →
               relative_to p storage_dir = Some rel →
               ¬ (locate h dd ++ rel) `prefix_of` q) →
     files s2 !! q = Some n) as Hkeep.
  { intros q n Hq Hno. apply HF; [by eapply grows_keeps|].
    intros p rel Hp Hf Hrel. apply (Hno p rel); [| |done].
    - by rewrite <- (rglob_agree (files s) (files s1)).
    - rewrite <- Hf. symmetry. apply is_file_agree, HA1.
      apply relative_to_Some in Hrel as ->. by apply prefix_app_r. }
  destruct r2 as [copied|e]; intros [= <- <-]; simpl; split_and!; try done; congruence.
Qed.

(** A storage block that returns has put every regular file of the storage
    tree at the same relative path below the data directory, and reports
    how many there were. *)
Lemma restore_storage_ok s s' :
  wf_tree (files s) → is_Some (files s !! storage_dir) →
  (∀ p rel, p ∈ rglob (files s) storage_dir → is_file (files s) p = true →
            relative_to p storage_dir = Some rel →
            files s !! (locate h dd ++ rel) ≠ Some Dir) →
  restore_storage h storage_dir dd s = (Ok (), s') →
  (∀ p rel data t, files s !! p = Some (File data t) →
                   relative_to p storage_dir = Some rel → rel ≠ [] →
                   files s' !! (locate h dd ++ rel) = Some (File data t)) ∧
  stdout s' = stdout s
              ++ ["Restored "
                  +:+ Str.dec (length (filter (λ p, is_file (files s) p = true)
                                              (rglob (files s) storage_dir)))
                  +:+ " storage files into " +:+ str dd].
Proof.
  intros Hwf [n Hsd] HI2. unfold restore_storage. rewrite bind_run. unfold gets at 1.
  rewrite (exists_Some _ _ _ Hsd).
  intros H. apply bind_Ok in H as ([] & s1 & E1 & H).
  apply bind_Ok in H as (copied & s2 & E2 & H).
  injection H as <-. simpl.
  pose proof (mkdir_parents_wf _ _ _ _ Hwf E1) as Hwf1.
  pose proof (mkdir_dd_agree _ _ _ E1) as HA1.
  apply mkdir_parents_grows in E1. pose proof E1 as (Ho1 & _ & _).
  unfold _copy_tree in E2. rewrite bind_run in E2. unfold gets at 1 in E2.
  pose proof (rglob_agree (files s) (files s1) storage_dir HA1) as Hperm.
  pose proof E2 as Hinv.
  apply copy_loop_inv in Hinv as (Ho2 & _ & _ & _); [|done|]; last first.
  { intros p (_ & _ & x & rel & ->)%elem_of_rglob. by apply prefix_app_r. }
  apply copy_loop_correct in E2 as [Hfiles Hlen]; try done.
  - split.
    + intros p rel data t Hp Hrel Hne.
      pose proof Hrel as ->%relative_to_Some.
      apply (Hfiles (storage_dir ++ rel) rel); [| |done].
      * rewrite Hperm. apply elem_of_rglob. split_and!; [|by rewrite Hp|].
        -- eapply wf_prefix_dir; [done|by rewrite Hp|by apply prefix_app_r|].
           intros E. apply Hne. apply (f_equal length) in E.
           rewrite length_app in E. destruct rel; [done|simpl in E; lia].
        -- destruct rel as [|x rel]; [done|eauto].
      * rewrite HA1; [done|by apply prefix_app_r].
    + rewrite Ho2, Ho1. do 4 f_equal. rewrite Hlen. simpl.
      rewrite (filter_is_file_agree (files s) (files s1)).
      * by rewrite Hperm.
      * intros p (_ & _ & x & rel & ->)%elem_of_rglob. apply HA1. by apply prefix_app_r.
  - apply NoDup_rglob.
  - intros p (_ & _ & ?)%elem_of_rglob. done.
  - intros p rel Hp Hf Hrel Hd.
    eapply grows_dir in Hd as [Hd|(_ & _ & Hpre)]; [| |exact E1].
    + apply (HI2 p rel); try done.
      * by rewrite <- Hperm.
      * rewrite <- Hf. apply is_file_agree. symmetry. apply HA1.
        apply relative_to_Some in Hrel as ->. by apply prefix_app_r.
    + apply elem_of_rglob in Hp as (_ & _ & x & rel' & ->).
      rewrite relative_to_app in Hrel. injection Hrel as <-.
      apply prefix_length in Hpre. rewrite length_app in Hpre. simpl in Hpre. lia.
Qed.
End StorageBlock.

Section MainFacts.
Variable read_zip : list byte → option (list ZipInfo).
Variable repr : string → string.
Variable h : Host.
Implicit Types (m : tree) (p q d : path) (s : state) (db dd : Path).

Let tmp := mkdtemp_path h.

Lemma parts_database : parts (Path_of "database") = ["database"].
Proof. by vm_compute. Qed.

Lemma parts_storage : parts (Path_of "storage") = ["storage"].
Proof. by vm_compute. Qed.

(** Up to the choice between report and restore, [main] only reads. *)
Lemma main_opens args s archive a dd db :
  opens_archive read_zip h args s archive →
  resolve_app (app_arg args) archive = Some a →
  paths_for h a (data_dir_arg args) = Ok (dd, db) →
  main read_zip repr h args s
  = if dry_run args then dry_run_report repr archive a dd db s
    else (with_TemporaryDirectory h (restore h archive dd db) ≫= λ _, mret 0) s.
Proof.
  intros (ap & data & t & Hap & Hfile & Hzip) Ha Hpaths. unfold main.
  rewrite bind_run. unfold lift at 1. rewrite Hap.
  rewrite bind_run. unfold gets at 1. rewrite (exists_Some _ _ _ Hfile). simpl.
  rewrite bind_run. unfold ZipFile at 1. rewrite Hfile, Hzip, Ha.
  rewrite bind_run. unfold lift at 1. rewrite Hpaths. by destruct (dry_run args).
Qed.

Lemma mkdtemp_cases s r s1 :
  mkdtemp h s = (r, s1) →
  (r = Ok tmp ∧ files s !! tmp = None ∧ files s !! removelast tmp = Some Dir ∧
   s1 = set_files (insert tmp Dir) s) ∨
  (∃ e, r = Raise e ∧ s1 = s).
Proof.
  unfold mkdtemp. fold tmp.
  destruct (files s !! tmp) as [n|] eqn:E; [intros [= <- <-]; eauto|].
  destruct (files s !! removelast tmp) as [[]|] eqn:E'; intros [= <- <-]; eauto.
Qed.

(** The steps of a restore that returns. *)
Lemma restore_steps archive dd db s s' :
  (with_TemporaryDirectory h (restore h archive dd db) ≫= λ _, mret 0) s = (Ok 0, s') →
  files s !! tmp = None ∧ files s !! removelast tmp = Some Dir ∧
  ∃ s3 s4,
    extractall h archive tmp (set_files (insert tmp Dir) s)
    = (Ok (), extracted h archive s) ∧
    restore_database h (db_dir_of h) db (extracted h archive s) = (Ok (), s3) ∧
    restore_storage h (storage_dir_of h) dd s3 = (Ok (), s4) ∧
    s' = set_files (rmtree tmp) s4.
Proof.
  rewrite bind_run. unfold with_TemporaryDirectory.
  destruct (mkdtemp h s) as [r s1] eqn:Em.
  apply mkdtemp_cases in Em as [(-> & Hnone & Hpar & ->)|(e & -> & ->)]; [|done].
  destruct (restore h archive dd db tmp _) as [r4 s4] eqn:Er.
  destruct r4 as [[]|e]; [|done]. intros [= <-].
  unfold restore in Er. rewrite parts_database, parts_storage in Er.
  apply bind_Ok in Er as ([] & s2 & E2 & Er).
  apply bind_Ok in Er as ([] & s3 & E3 & E4).
  assert (extracted h archive s = s2) as Hex.
  { unfold extracted. fold tmp. by rewrite E2. }
  rewrite Hex. split_and!; try done. exists s3, s4. done.
Qed.

(** Facts about the state the blocks start from. *)
Lemma extracted_facts archive s :
  sane h s → files s !! removelast tmp = Some Dir →
  wf_tree (files (extracted h archive s)) ∧
  stdout (extracted h archive s) = stdout s ∧
  stderr (extracted h archive s) = stderr s ∧
  (∀ q, ¬ tmp `prefix_of` q → files (extracted h archive s) !! q = files s !! q) ∧
  (∀ x, (∀ z, z ∈ archive → ¬ [x] `prefix_of` member_parts (filename z)) →
        files (extracted h archive s) !! (tmp ++ [x]) = None).
Proof.
  intros (Hwf & Hcwd & Hnone) Hpar. unfold extracted. fold tmp.
  destruct (extractall h archive tmp (set_files (insert tmp Dir) s)) as [r s2] eqn:E.
  apply extractall_frame in E as (Hwf2 & _ & Ho & He & Hf); simpl.
  - split_and!; try done.
    + intros q Hq. rewrite Hf.
      * cbn [files set_files]. rewrite lookup_insert_ne; [done|].
        intros <-. by apply Hq.
      * intros z _ [? _]. done.
    + intros x Hx. rewrite Hf.
      * cbn [files set_files]. rewrite lookup_insert_ne.
        -- eapply wf_below_None; [done|exact Hnone|by apply prefix_app_r].
        -- intros E. apply (f_equal length) in E. rewrite length_app in E.
           simpl in E. lia.
      * intros z Hz [_ Hpre]. apply (Hx z Hz). by apply prefix_app_inv in Hpre.
  - simpl. by apply wf_insert_dir.
  - simpl. by rewrite lookup_insert_eq.
Qed.

Lemma tmp_not_above (base q : path) :
  ¬ comparable tmp base → base `prefix_of` q → ¬ tmp `prefix_of` q.
Proof.
  intros Hn Hb Ht. apply Hn.
  destruct (prefix_weak_total tmp base q); [done..|by left|by right].
Qed.

Lemma under_tmp_incomparable (base q : path) :
  ¬ comparable tmp base → tmp `prefix_of` q → ¬ comparable q base.
Proof.
  intros Hn Ht [Hqb|Hbq].
  - apply Hn. left. by etrans.
  - by eapply tmp_not_above.
Qed.
End MainFacts.

Section Changes.
Variable h : Host.
Implicit Types (m : tree) (p q d : path) (s : state) (db dd : Path).
Implicit Types (D W : path → Prop).

Lemma explained_refl D W s : explained D W s s.
Proof. intros q. by left. Qed.

Lemma explained_same D W s s' : files s' = files s → explained D W s s'.
Proof. intros E q. left. by rewrite E. Qed.

Lemma explained_mono D W D' W' s s' :
  (∀ q, D q → D' q) → (∀ q, W q → W' q) →
  explained D W s s' → explained D' W' s s'.
Proof.
  intros HD HW H q. destruct (H q) as [?|[(?&?&?)|[? ?]]]; [by left| |].
  - right. left. auto.
  - right. right. auto.
Qed.

Lemma explained_trans D W s1 s2 s3 :
  explained D W s1 s2 → explained D W s2 s3 → explained D W s1 s3.
Proof.
  intros H12 H23 q.
  destruct (H23 q) as [E|[(Hn & Hd & HD)|[HW Hf]]].
  - destruct (H12 q) as [E'|[(Hn' & Hd' & HD')|[HW' Hf']]].
    + left. congruence.
    + right. left. split_and!; [done|congruence|done].
    + right. right. split; [done|]. unfold is_file in *. by rewrite E.
  - destruct (H12 q) as [E'|[(Hn' & Hd' & HD')|[HW' Hf']]].
    + right. left. split_and!; [congruence|done|done].
    + congruence.
    + unfold is_file in Hf'. by rewrite Hn in Hf'.
  - right. right. done.
Qed.

Lemma explained_grows D W pre full s s' :
  grows pre full s s' → (∀ q, q `prefix_of` full → D q) → explained D W s s'.
Proof.
  intros (_ & _ & Hg) HD q. destruct (Hg q) as [?|(? & ? & _ & ?)]; [by left|].
  right. left. auto.
Qed.

Lemma explained_insert_file D W s w data t :
  W w → explained D W s (set_files (insert w (File data t)) s).
Proof.
  intros HW q. cbn [files set_files]. destruct (decide (w = q)) as [<-|Hne].
  - right. right. split; [done|]. unfold is_file. by rewrite lookup_insert_eq.
  - left. by rewrite lookup_insert_ne.
Qed.

Lemma explained_copy2 D W src dst s r s' :
  copy2 src dst s = (r, s') → (∀ q, dst `prefix_of` q → W q) → explained D W s s'.
Proof.
  intros E HW. apply copy2_cases in E
    as [(data & t & w & Hw & _ & _ & _ & _ & _ & ->)|(e & _ & ->)];
    [|apply explained_refl].
  apply explained_insert_file, HW. rewrite Hw.
  destruct (is_dir _ _); [by apply prefix_app_r|done].
Qed.

(** What is explained without touching anything below [base] leaves it as
    it was. *)
Lemma explained_outside D W s s' (base q : path) :
  explained D W s s' → (∀ x, D x ∨ W x → ¬ base `prefix_of` x) →
  base `prefix_of` q → files s' !! q = files s !! q.
Proof.
  intros H Hout Hq. destruct (H q) as [?|[(_ & _ & ?)|[? _]]]; [done| |].
  - destruct (Hout q); auto.
  - destruct (Hout q); auto.
Qed.

(** The backup step: directories on the way to the database's directory,
    and a file at or below the backup path. *)
Lemma backup_explained db s r s' :
  wf_Path db → _backup_existing_db h db s = (r, s') →
  explained (λ q, q `prefix_of` locate h (parent db))
            (λ q, locate h (backup_path_of h db) `prefix_of` q) s s'.
Proof.
  intros HP. unfold _backup_existing_db. rewrite bind_run. unfold gets at 1.
  destruct (exists_ (files s) (locate h db)); cbn [negb];
    [|intros [= _ <-]; apply explained_refl].
  cbv zeta. rewrite bind_run. unfold lift at 1.
  destruct (decide (parts db = [])) as [Hnil|Hne].
  { destruct (with_suffix_no_name db
                (suffix db +:+ ".bak_" +:+ strftime (localtime h)) Hnil) as [e ->].
    intros [= _ <-]. apply explained_refl. }
  rewrite with_suffix_backup by done. rewrite bind_run, parent_backup.
  destruct (mkdir_parents (locate h (parent db)) s) as [r1 s1] eqn:E1.
  apply mkdir_parents_grows in E1.
  assert (explained (λ q, q `prefix_of` locate h (parent db))
            (λ q, locate h (backup_path_of h db) `prefix_of` q) s s1) as H1
    by (eapply explained_grows; [exact E1|done]).
  destruct r1 as [[]|e]; [|by intros [= _ <-]].
  rewrite bind_run.
  destruct (copy2 (locate h db) (locate h (backup_path_of h db)) s1) as [r2 s2] eqn:E2.
  assert (explained (λ q, q `prefix_of` locate h (parent db))
            (λ q, locate h (backup_path_of h db) `prefix_of` q) s1 s2) as H2
    by (eapply explained_copy2; [exact E2|done]).
  destruct r2 as [w|e]; intros [= _ <-]; by eapply explained_trans.
Qed.

(** The database block: on top of the backup step, directories on the way
    to the database's directory and a file at or below the database path. *)
Lemma restore_database_explained db_dir db s r s' :
  wf_Path db → restore_database h db_dir db s = (r, s') →
  explained (λ q, q `prefix_of` locate h (parent db))
            (λ q, locate h db `prefix_of` q
                  ∨ locate h (backup_path_of h db) `prefix_of` q) s s'.
Proof.
  intros HP. unfold restore_database. rewrite bind_run. unfold gets at 1.
  rewrite bind_run, candidates_of.
  destruct (sorted (glob_db (files s) db_dir)) as [|first rest].
  { intros [= _ <-]. by apply explained_same. }
  rewrite bind_run. destruct (_backup_existing_db h db s) as [r1 s1] eqn:E1.
  apply backup_explained in E1; [|done].
  eapply (explained_mono _ _ (λ q, q `prefix_of` locate h (parent db))
            (λ q, locate h db `prefix_of` q
                  ∨ locate h (backup_path_of h db) `prefix_of` q)) in E1;
    [|done|by right].
  destruct r1 as [b|e]; [|by intros [= _ <-]].
  rewrite bind_run.
  set (s1' := (match b with
               | Some b0 => print ("Backed up existing database to " +:+ str b0)
               | None => mret ()
               end s1).2).
  assert (files s1' = files s1) as Hfs by (unfold s1'; by destruct b).
  replace (match b with
           | Some b0 => print ("Backed up existing database to " +:+ str b0)
           | None => mret ()
           end s1) with (Ok (), s1') by (unfold s1'; by destruct b).
  clearbody s1'.
  assert (explained (λ q, q `prefix_of` locate h (parent db))
            (λ q, locate h db `prefix_of` q
                  ∨ locate h (backup_path_of h db) `prefix_of` q) s s1') as H1.
  { eapply explained_trans; [exact E1|]. by apply explained_same. }
  rewrite bind_run.
  destruct (mkdir_parents (locate h (parent db)) s1') as [r2 s2] eqn:E2.
  apply mkdir_parents_grows in E2.
  assert (explained (λ q, q `prefix_of` locate h (parent db))
            (λ q, locate h db `prefix_of` q
                  ∨ locate h (backup_path_of h db) `prefix_of` q) s s2) as H2.
  { eapply explained_trans; [exact H1|]. eapply explained_grows; [exact E2|done]. }
  destruct r2 as [[]|e]; [|by intros [= _ <-]].
  rewrite bind_run.
  destruct (copy2 first (locate h db) s2) as [r3 s3] eqn:E3.
  assert (explained (λ q, q `prefix_of` locate h (parent db))
            (λ q, locate h db `prefix_of` q
                  ∨ locate h (backup_path_of h db) `prefix_of` q) s s3) as H3.
  { eapply explained_trans; [exact H2|].
    eapply explained_copy2; [exact E3|]. intros q Hq. by left. }
  destruct r3 as [w|e]; [|by intros [= _ <-]].
  unfold print. intros [= _ <-]. eapply explained_trans; [exact H3|].
  by apply explained_same.
Qed.

End Changes.

Section CopyChanges.
Variable h : Host.
Variables (source dest : path).
Hypothesis Hsep : ∀ rel : path, ¬ source `prefix_of` dest ++ rel.
Implicit Types (m : tree) (p q : path) (s : state) (l acc : list path).

Lemma copy_changes_outside m l q :
  on_the_way source dest m l q ∨ lands source dest m l q → ¬ source `prefix_of` q.
Proof.
  intros [(p & rel & _ & _ & _ & Hq)|(p & rel & _ & _ & _ & [->| ->])] Hs.
  - apply (Hsep rel). etrans; [exact Hs|]. etrans; [exact Hq|]. apply removelast_prefix.
  - by apply (Hsep rel).
  - rewrite (assoc_L (++)) in Hs. rewrite <- (assoc_L (++)) in Hs. by apply Hsep in Hs.
Qed.

Lemma copy_changes_agree m m' l q :
  (∀ p, p ∈ l → m' !! p = m !! p) →
  (on_the_way source dest m' l q → on_the_way source dest m l q) ∧
  (lands source dest m' l q → lands source dest m l q).
Proof.
  intros Hag. split; intros (p & rel & Hp & Hf & Hrest); exists p, rel;
    (split; [done|]); (split; [|done]);
    rewrite <- Hf; symmetry; apply is_file_agree, Hag, Hp.
Qed.

Lemma copy_loop_explained l : ∀ acc s r s',
  (∀ p, p ∈ l → source `prefix_of` p) →
  _copy_tree_loop source dest l acc s = (r, s') →
  explained (on_the_way source dest (files s) l) (lands source dest (files s) l) s s'.
Proof.
  induction l as [|p l IH]; intros acc s r s' Hunder; cbn [_copy_tree_loop].
  { intros [= _ <-]. apply explained_refl. }
  assert (∀ p', p' ∈ l → source `prefix_of` p') as Hunder'
    by (intros; apply Hunder; by right).
  rewrite bind_run. unfold gets at 1.
  destruct (is_file (files s) p) eqn:Hf.
  2:{ intros E. apply IH in E; [|done].
      eapply explained_mono; [| |exact E].
      - intros q (p' & rel & ? & ?). exists p', rel. split; [by right|done].
      - intros q (p' & rel & ? & ?). exists p', rel. split; [by right|done]. }
  destruct (Hunder p ltac:(left)) as [rel ->].
  rewrite relative_to_app. cbv zeta. rewrite bind_run.
  destruct (mkdir_parents (removelast (dest ++ rel)) s) as [r1 s1] eqn:E1.
  apply mkdir_parents_grows in E1.
  assert (explained (on_the_way source dest (files s) ((source ++ rel) :: l))
            (lands source dest (files s) ((source ++ rel) :: l)) s s1) as H1.
  { eapply explained_grows; [exact E1|]. intros q Hq.
    exists (source ++ rel), rel. split_and!; [left|done|apply relative_to_app|done]. }
  destruct r1 as [[]|e]; [|by intros [= _ <-]].
  rewrite bind_run.
  destruct (copy2 (source ++ rel) (dest ++ rel) s1) as [r2 s2] eqn:E2.
  assert (explained (on_the_way source dest (files s) ((source ++ rel) :: l))
            (lands source dest (files s) ((source ++ rel) :: l)) s s2) as H2.
  { eapply explained_trans; [exact H1|].
    apply copy2_cases in E2
      as [(data & t & w & Hw & _ & _ & _ & _ & _ & ->)|(e & _ & ->)];
      [|apply explained_refl].
    apply explained_insert_file.
    exists (source ++ rel), rel. split_and!; [left|done|apply relative_to_app|].
    rewrite Hw. destruct (is_dir _ _); [right; by rewrite <- (assoc_L (++))|by left]. }
  destruct r2 as [w|e]; [|by intros [= _ <-]].
  intros E. apply IH in E; [|done].
  eapply explained_trans; [exact H2|].
  assert (∀ p', p' ∈ l → files s2 !! p' = files s !! p') as Hag.
  { intros p' Hp'. eapply explained_outside; [exact H2| |by apply Hunder'].
    intros x. apply copy_changes_outside. }
  eapply explained_mono; [| |exact E].
  - intros q Hq. apply (copy_changes_agree _ _ _ _ Hag) in Hq.
    destruct Hq as (p' & rel' & ? & ?). exists p', rel'. split; [by right|done].
  - intros q Hq. apply (copy_changes_agree _ _ _ _ Hag) in Hq.
    destruct Hq as (p' & rel' & ? & ?). exists p', rel'. split; [by right|done].
Qed.

End CopyChanges.

Section StorageChanges.
Variable h : Host.
Variables (storage_dir : path) (dd : Path).
Hypothesis Hsep : ∀ rel : path, ¬ storage_dir `prefix_of` locate h dd ++ rel.
Implicit Types (m : tree) (p q : path) (s : state).

(** The storage block: directories on the way to the data directory and to
    the targets, and the files at the targets. *)
Lemma restore_storage_explained s r s' :
  restore_storage h storage_dir dd s = (r, s') →
  explained
    (λ q, q `prefix_of` locate h dd
          ∨ on_the_way storage_dir (locate h dd) (files s) (rglob (files s) storage_dir) q)
    (lands storage_dir (locate h dd) (files s) (rglob (files s) storage_dir)) s s'.
Proof.
  unfold restore_storage. rewrite bind_run. unfold gets at 1.
  destruct (exists_ (files s) storage_dir); [|intros [= _ <-]; by apply explained_same].
  rewrite bind_run.
  destruct (mkdir_parents (locate h dd) s) as [r1 s1] eqn:E1.
  pose proof (mkdir_dd_agree h storage_dir dd Hsep _ _ _ E1) as HA1.
  apply mkdir_parents_grows in E1.
  assert (explained
    (λ q, q `prefix_of` locate h dd
          ∨ on_the_way storage_dir (locate h dd) (files s) (rglob (files s) storage_dir) q)
    (lands storage_dir (locate h dd) (files s) (rglob (files s) storage_dir)) s s1) as H1.
  { eapply explained_grows; [exact E1|]. intros q Hq. by left. }
  destruct r1 as [[]|e]; [|by intros [= _ <-]].
  rewrite bind_run.
  destruct (_copy_tree storage_dir (locate h dd) s1) as [r2 s2] eqn:E2.
  assert (explained
    (λ q, q `prefix_of` locate h dd
          ∨ on_the_way storage_dir (locate h dd) (files s) (rglob (files s) storage_dir) q)
    (lands storage_dir (locate h dd) (files s) (rglob (files s) storage_dir)) s s2) as H2.
  { eapply explained_trans; [exact H1|].
    unfold _copy_tree in E2. rewrite bind_run in E2. unfold gets at 1 in E2.
    apply (copy_loop_explained storage_dir (locate h dd) Hsep) in E2; last first.
    { intros p (_ & _ & x & rel & ->)%elem_of_rglob. by apply prefix_app_r. }
    pose proof (rglob_agree (files s) (files s1) storage_dir HA1) as Hperm.
    assert (∀ p, p ∈ rglob (files s1) storage_dir → files s1 !! p = files s !! p) as Hag.
    { intros p (_ & _ & x & rel & ->)%elem_of_rglob. apply HA1. by apply prefix_app_r. }
    eapply explained_mono; [| |exact E2].
    - intros q Hq. right. apply (copy_changes_agree _ _ _ _ _ _ Hag) in Hq.
      destruct Hq as (p & rel & Hp & ?). exists p, rel. split; [by rewrite <- Hperm|done].
    - intros q Hq. apply (copy_changes_agree _ _ _ _ _ _ Hag) in Hq.
      destruct Hq as (p & rel & Hp & ?). exists p, rel. split; [by rewrite <- Hperm|done]. }
  destruct r2 as [copied|e]; [|by intros [= _ <-]].
  unfold print. intros [= _ <-]. eapply explained_trans; [exact H2|].
  by apply explained_same.
Qed.

End StorageChanges.

Section Checks.
Implicit Types m : tree.

Lemma wf_tree_check_sound m : wf_tree_check m = true → wf_tree m.
Proof.
  unfold wf_tree_check. intros Hc. apply andb_true_iff in Hc as [Hroot Hall].
  apply bool_decide_eq_true in Hroot. split; [exact Hroot|].
  intros p x Hsome.
  rewrite forallb_forall in Hall.
  assert (Hin : In (p ++ [x] : path) (elements (dom m))).
  { apply list_elem_of_In, elem_of_elements, elem_of_dom. exact Hsome. }
  specialize (Hall _ Hin).
  destruct (p ++ [x]) as [|y l] eqn:E; [by destruct p|].
  rewrite <- E, removelast_last in Hall.
  by apply is_dir_true.
Qed.

Lemma all_relative_spec (base : path) (ok : path → bool) (l : list path) :
  all_relative base ok l = true →
  ∀ p rel : path, p ∈ l → relative_to p base = Some rel → ok rel = true.
Proof.
  unfold all_relative. rewrite forallb_forall. intros Hall p rel Hp Hrel.
  apply list_elem_of_In in Hp. specialize (Hall _ Hp). by rewrite Hrel in Hall.
Qed.

Lemma all_relative_decide (base : path) (Q : path → Prop)
    `{!∀ rel, Decision (Q rel)} (l : list path) :
  all_relative base (λ rel, bool_decide (Q rel)) l = true →
  ∀ p rel : path, p ∈ l → relative_to p base = Some rel → Q rel.
Proof.
  intros Hc p rel Hp Hrel. apply (bool_decide_unpack _), Is_true_true.
  exact (all_relative_spec _ _ _ Hc p rel Hp Hrel).
Qed.

End Checks.

(* ===================================================================== *)
(** * The claims of the specification *)
(* ===================================================================== *)


Section Claims.
Variable read_zip : list byte → option (list ZipInfo).
Variable repr : string → string.
Variable h : Host.
Variable usage : string.
Variable error_message : usage_error → string.
Implicit Types (m : tree) (p q d : path) (s : state) (db dd : Path).

(** C3. Detection over the archive's entry names: the crm marker alone
    decides for crm, whether or not the sales marker is there too; without
    it the sales marker decides for sales; with neither, detection fails.
    An application given explicitly is used as it is, whatever the archive
    holds. *)
Theorem detect_app_markers (archive : list ZipInfo) :
  (_detect_app archive = Some crm ↔ CRM_EXPORT_MARKER ∈ namelist archive) ∧
  (_detect_app archive = Some sales ↔
     (CRM_EXPORT_MARKER ∉ namelist archive) ∧ (SALES_EXPORT_MARKER ∈ namelist archive)) ∧
  (_detect_app archive = None ↔
     (CRM_EXPORT_MARKER ∉ namelist archive) ∧ (SALES_EXPORT_MARKER ∉ namelist archive)) ∧
  (∀ a archive', resolve_app (Some a) archive' = Some a) ∧
  resolve_app None archive = _detect_app archive.
Proof.
  split_and!; [..|done|done]; unfold _detect_app;
    repeat case_decide; rewrite elem_of_list_to_set in *;
    split; try done; try (intros [? ?]; done); try (intros ?; done).
Qed.

(** A dry run whose paths resolve. *)
Lemma dry_run_report_run args s archive a dd db :
  dry_run args = true →
  opens_archive read_zip h args s archive →
  resolve_app (app_arg args) archive = Some a →
  paths_for h a (data_dir_arg args) = Ok (dd, db) →
  main read_zip repr h args s
  = (Ok 0, {| files := files s;
              stdout := stdout s ++ report_lines repr archive a dd db;
              stderr := stderr s |}).
Proof.
  intros Hdry Hopen Ha Hpaths.
  rewrite (main_opens _ _ _ _ _ _ _ _ _ Hopen Ha Hpaths), Hdry.
  unfold dry_run_report, report_lines.
  repeat (rewrite bind_run; unfold print at 1; cbn [files stdout stderr]).
  unfold mret, M_ret. f_equal. f_equal.
  rewrite <- !(app_assoc (stdout s)). reflexivity.
Qed.
Lemma with_tmp_not_2 {A} (body : path → M A) (k : A → M Z) s s' :
  (∀ a s1 s2, k a s1 = (Ok 2, s2) → False) →
  (with_TemporaryDirectory h body ≫= k) s = (Ok 2, s') → False.
Proof.
  intros Hk. rewrite bind_run. unfold with_TemporaryDirectory.
  destruct (mkdtemp h s) as [[t|e] s1]; [|done].
  destruct (body t s1) as [[a|e] s2]; [|done]. apply Hk.
Qed.

Lemma main_missing args s ap :
  expanduser h (Path_of (backup args)) = Ok ap →
  files s !! locate h ap = None →
  main read_zip repr h args s
  = (Ok 2, {| files := files s; stdout := stdout s;
              stderr := stderr s ++ ["Backup archive not found: " +:+ str ap] |}).
Proof.
  intros Hap Hn. unfold main. rewrite bind_run. unfold lift at 1. rewrite Hap.
  rewrite bind_run. unfold gets at 1. by rewrite (exists_None _ _ Hn).
Qed.

Lemma main_undetected args s archive :
  opens_archive read_zip h args s archive →
  resolve_app (app_arg args) archive = None →
  main read_zip repr h args s
  = (Ok 2, {| files := files s; stdout := stdout s;
              stderr := stderr s
                ++ ["Unable to detect app type from backup. Use --app crm|sales."] |}).
Proof.
  intros (ap & data & t & Hap & Hfile & Hzip) Ha. unfold main.
  rewrite bind_run. unfold lift at 1. rewrite Hap.
  rewrite bind_run. unfold gets at 1. rewrite (exists_Some _ _ _ Hfile). simpl.
  rewrite bind_run. unfold ZipFile at 1. by rewrite Hfile, Hzip, Ha.
Qed.

Lemma main_2_only args s :
  (main read_zip repr h args s).1 = Ok 2 →
  archive_missing h args s ∨ detection_fails read_zip h args s.
Proof.
  unfold main, archive_missing, detection_fails, opens_archive.
  rewrite bind_run. unfold lift at 1.
  destruct (expanduser h (Path_of (backup args))) as [ap|e] eqn:Hap; simpl; [|done].
  rewrite bind_run. unfold gets at 1.
  destruct (files s !! locate h ap) as [n|] eqn:Hn.
  2:{ intros _. left. eauto. }
  rewrite (exists_Some _ _ _ Hn). simpl.
  rewrite bind_run. unfold ZipFile at 1. rewrite Hn.
  destruct n as [data t|]; [|done].
  destruct (read_zip data) as [archive|] eqn:Hz; [|done].
  destruct (resolve_app (app_arg args) archive) as [a|] eqn:Ha.
  - rewrite bind_run. unfold lift at 1.
    destruct (paths_for h a (data_dir_arg args)) as [[dd db]|e]; [|done].
    destruct (dry_run args).
    + unfold dry_run_report.
      repeat (rewrite bind_run; unfold print at 1; cbn [files stdout stderr]).
      done.
    + intros H.
      match type of H with (?x).1 = _ => destruct x as [r s'] eqn:E end.
      simpl in H. subst r. exfalso.
      eapply with_tmp_not_2; [|exact E]. intros ? ? ? ?; simplify_eq.
  - intros _. right.
    unfold resolve_app in Ha. destruct (app_arg args); [done|].
    exists archive. split_and!; [|done..]. eauto 10.
Qed.

(** Once the command line is parsed, [main] returns 2 exactly when nothing
    exists at the archive path, or the archive opens, no application was
    given and neither marker is in it; one line has then gone to the error
    stream and nothing else has changed. *)
Lemma main_exit_code_2 args s :
  ((main read_zip repr h args s).1 = Ok 2 ↔
     archive_missing h args s ∨ detection_fails read_zip h args s) ∧
  ((main read_zip repr h args s).1 = Ok 2 →
     ∃ line, (main read_zip repr h args s).2
             = {| files := files s; stdout := stdout s;
                  stderr := stderr s ++ [line] |}).
Proof.
  assert (archive_missing h args s ∨ detection_fails read_zip h args s →
          (main read_zip repr h args s).1 = Ok 2 ∧
          ∃ line, (main read_zip repr h args s).2
                  = {| files := files s; stdout := stdout s;
                       stderr := stderr s ++ [line] |}) as Hback.
  { intros [(ap & Hap & Hn)|(archive & Hopen & Hnone & Hdet)].
    - rewrite (main_missing _ _ _ Hap Hn). simpl. eauto.
    - rewrite (main_undetected _ _ archive); [simpl; eauto|done|].
      unfold resolve_app. by rewrite Hnone. }
  split.
  - split; [apply main_2_only|]. intros H. by apply Hback.
  - intros H. by apply Hback, main_2_only.
Qed.


(** C9. Once the temporary directory has been acquired, nothing is left at
    it or below it when [main] is over, whether it returned or raised. *)
Theorem temporary_directory_removed args s archive dd db r s' :
  reaches_restore read_zip h args s archive dd db →
  files s !! mkdtemp_path h = None →
  files s !! removelast (mkdtemp_path h) = Some Dir →
  main read_zip repr h args s = (r, s') →
  ∀ p, mkdtemp_path h `prefix_of` p → files s' !! p = None.
Proof.
  intros (Hdry & Hopen & a & Ha & Hpaths) Hnone Hpar.
  rewrite (main_opens _ _ _ _ _ _ _ _ _ Hopen Ha Hpaths), Hdry.
  rewrite bind_run. unfold with_TemporaryDirectory, mkdtemp. rewrite Hnone, Hpar.
  destruct (restore h archive dd db (mkdtemp_path h) _) as [r4 s4].
  intros Hrun p Hp.
  assert (files s' = rmtree (mkdtemp_path h) (files s4)) as ->
    by (destruct r4; by injection Hrun as <- <-).
  rewrite rmtree_lookup. by rewrite decide_True.
Qed.

Lemma wf_expanduser (P Q : Path) : wf_Path P → expanduser h P = Ok Q → wf_Path Q.
Proof.
  intros Hwf. unfold expanduser. destruct (anchored P); [by intros [= <-]|].
  destruct (parts P) as [|first rest] eqn:Hp; [by intros [= <-]|].
  destruct (Str.startswith first "~"); [|by intros [= <-]].
  destruct (userhome h first) as [home|]; [|done]. intros [= <-].
  apply wf_joinpath; [apply wf_Path_of|].
  intros c Hc. apply Hwf. rewrite Hp. by right.
Qed.

Lemma expanduser_raises (P : Path) e :
  expanduser h P = Raise e →
  e = RuntimeError ∧ anchored P = unrooted ∧
  ∃ first rest, parts P = first :: rest ∧ Str.startswith first "~" = true ∧
                userhome h first = None.
Proof.
  unfold expanduser. destruct (anchored P); [done|].
  destruct (parts P) as [|first rest]; [done|].
  destruct (Str.startswith first "~") eqn:Ht; [|done].
  destruct (userhome h first) eqn:Hu; [done|]. intros [= <-]. eauto 10.
Qed.

Lemma crm_paths_chain o base :
  (if truthy o then expanduser h (Path_of (default "" o))
   else Ok (Path_of (getenv h "APP_STORAGE_DIR" (get_storage_dir h)))) = Ok base →
  wf_Path base →
  _crm_paths h o
  = Ok (base, match environ h !! "DB_PATH" with
              | Some v => Path_of v
              | None => div base "ps_crm.db"
              end).
Proof.
  intros Hbase Hwf. unfold _crm_paths. rewrite Hbase.
  unfold mbind, result_bind, mret, result_ret, getenv. do 2 f_equal.
  destruct (environ h !! "DB_PATH"); [done|]. simpl.
  apply Path_of_str. by apply wf_div.
Qed.

Lemma sales_paths_chain o base :
  (if truthy o then expanduser h (Path_of (default "" o))
   else Ok (Path_of (load_config_data_dir h))) = Ok base →
  _sales_paths h o
  = Ok (base, match environ h !! "PS_SALES_DB_URL" with
              | Some v =>
                  if decide (v = "") then div base "ps_sales.db"
                  else if Str.startswith v "sqlite:///" then Path_of (Str.drop 10 v)
                  else Path_of v
              | None => div base "ps_sales.db"
              end).
Proof.
  intros Hbase. unfold _sales_paths. rewrite Hbase.
  unfold mbind, result_bind, mret, result_ret, getenv. do 2 f_equal.
  destruct (environ h !! "PS_SALES_DB_URL") as [v|]; simpl; [|done].
  destruct (decide (v = "")) as [->|Hv]; [done|].
  rewrite bool_decide_eq_false_2 by done. done.
Qed.

Lemma paths_for_raises a o e : paths_for h a o = Raise e → e = RuntimeError.
Proof.
  destruct a; cbn [paths_for].
  - unfold _crm_paths. destruct (truthy o).
    + destruct (expanduser h _) as [p|e'] eqn:E;
        cbv [mbind result_bind mret result_ret]; intros He; [done|].
      destruct (expanduser_raises _ _ E) as [-> _]. by injection He as <-.
    + cbv [mbind result_bind mret result_ret]. done.
  - unfold _sales_paths. destruct (truthy o).
    + destruct (expanduser h _) as [p|e'] eqn:E;
        cbv [mbind result_bind mret result_ret]; intros He; [done|].
      destruct (expanduser_raises _ _ E) as [-> _]. by injection He as <-.
    + cbv [mbind result_bind mret result_ret]. done.
Qed.

(** C4, amended. A dry run on an archive that opens, for a known
    application: when the destination paths resolve, it returns 0 having
    printed the five report lines and nothing else, and the file system is
    what it was, so nothing was extracted, created, changed or removed.
    The paths fail to resolve only for a data-directory override whose
    tilde cannot be expanded; the run then ends with RuntimeError, without
    a report, and still nothing has been written. *)
Theorem dry_run_reports_only args s archive a :
  dry_run args = true →
  opens_archive read_zip h args s archive →
  resolve_app (app_arg args) archive = Some a →
  match paths_for h a (data_dir_arg args) with
  | Ok (dd, db) =>
      main read_zip repr h args s
      = (Ok 0, {| files := files s;
                  stdout := stdout s ++ report_lines repr archive a dd db;
                  stderr := stderr s |})
  | Raise e =>
      e = RuntimeError ∧ truthy (data_dir_arg args) = true ∧
      main read_zip repr h args s = (Raise RuntimeError, s)
  end.
Proof.
  intros Hdry Hopen Ha.
  destruct (paths_for h a (data_dir_arg args)) as [[dd db]|e] eqn:Hpaths.
  - by apply dry_run_report_run.
  - pose proof (paths_for_raises _ _ _ Hpaths) as ->. split; [done|]. split.
    + destruct (truthy (data_dir_arg args)) eqn:Ht; [done|]. exfalso.
      destruct a; cbn [paths_for] in Hpaths.
      * unfold _crm_paths in Hpaths. rewrite Ht in Hpaths.
        cbv [mbind result_bind mret result_ret] in Hpaths. done.
      * unfold _sales_paths in Hpaths. rewrite Ht in Hpaths.
        cbv [mbind result_bind mret result_ret] in Hpaths. done.
    + destruct Hopen as (ap & data & t & Hap & Hf & Hz).
      unfold main. rewrite bind_run. unfold lift at 1. rewrite Hap.
      rewrite bind_run. unfold gets at 1. rewrite (exists_Some _ _ _ Hf). cbn [negb].
      rewrite bind_run. unfold ZipFile. rewrite Hf, Hz, Ha.
      rewrite bind_run. unfold lift at 1. by rewrite Hpaths.
Qed.

(** C8, amended. Path resolution reads the environment and nothing else,
    and follows the fallback chains of the specification, with two
    provisos: an override that is the empty string counts as no override,
    and a given override is expanded first, which raises RuntimeError when
    it starts with a tilde component whose home directory cannot be
    determined. Nothing else raises. *)
Theorem paths_fallback_chain (o : option string) :
  (truthy o = false →
     _crm_paths h o = Ok (spec_crm_paths h None) ∧
     _sales_paths h o = Ok (spec_sales_paths h None)) ∧
  (∀ v, o = Some v → v ≠ "" →
     match expanduser h (Path_of v) with
     | Ok p =>
         _crm_paths h o = Ok (spec_crm_paths h (Some p)) ∧
         _sales_paths h o = Ok (spec_sales_paths h (Some p))
     | Raise e =>
         e = RuntimeError ∧
         _crm_paths h o = Raise RuntimeError ∧
         _sales_paths h o = Raise RuntimeError
     end).
Proof.
  split.
  - intros Ht. split.
    + rewrite (crm_paths_chain o (Path_of (getenv h "APP_STORAGE_DIR" (get_storage_dir h)))).
      * unfold spec_crm_paths, getenv.
        by destruct (environ h !! "APP_STORAGE_DIR").
      * by rewrite Ht.
      * apply wf_Path_of.
    + rewrite (sales_paths_chain o (Path_of (load_config_data_dir h))); [done|].
      by rewrite Ht.
  - intros v -> Hv.
    assert (truthy (Some v) = true) as Ht
      by (simpl; by rewrite bool_decide_eq_false_2).
    destruct (expanduser h (Path_of v)) as [P|e] eqn:E.
    + split.
      * apply crm_paths_chain; [by rewrite Ht|].
        eapply wf_expanduser; [apply wf_Path_of|done].
      * apply sales_paths_chain. by rewrite Ht.
    + destruct (expanduser_raises _ _ E) as [-> _].
      unfold _crm_paths, _sales_paths. rewrite Ht. simpl. rewrite E. done.
Qed.
Lemma paths_for_wf a o dd db :
  paths_for h a o = Ok (dd, db) → wf_Path dd ∧ wf_Path db.
Proof.
  assert (∀ fallback base,
            (if truthy o then expanduser h (Path_of (default "" o))
             else Ok (Path_of fallback)) = Ok base → wf_Path base) as Hbase.
  { intros fallback base Hb.
    destruct (truthy o); [|injection Hb as <-; apply wf_Path_of].
    eapply wf_expanduser; [apply wf_Path_of|done]. }
  destruct a; cbn [paths_for].
  - destruct (if truthy o then expanduser h (Path_of (default "" o))
              else Ok (Path_of (getenv h "APP_STORAGE_DIR" (get_storage_dir h))))
      as [base|e] eqn:Hb.
    + pose proof (Hbase _ _ Hb) as Hwf.
      rewrite (crm_paths_chain o base Hb Hwf).
      set (X := match environ h !! "DB_PATH" with Some v => _ | None => _ end).
      assert (wf_Path X) as HX.
      { unfold X. destruct (environ h !! "DB_PATH"); [apply wf_Path_of|by apply wf_div]. }
      clearbody X. by intros [= <- <-].
    + unfold _crm_paths. by rewrite Hb.
  - destruct (if truthy o then expanduser h (Path_of (default "" o))
              else Ok (Path_of (load_config_data_dir h)))
      as [base|e] eqn:Hb.
    + pose proof (Hbase _ _ Hb) as Hwf.
      rewrite (sales_paths_chain o base Hb).
      set (X := match environ h !! "PS_SALES_DB_URL" with Some v => _ | None => _ end).
      assert (wf_Path X) as HX.
      { unfold X. destruct (environ h !! "PS_SALES_DB_URL") as [v|]; [|by apply wf_div].
        destruct (decide (v = "")); [by apply wf_div|].
        destruct (Str.startswith v "sqlite:///"); apply wf_Path_of. }
      clearbody X. by intros [= <- <-].
    + unfold _sales_paths. by rewrite Hb.
Qed.

(** C7, amended. When the archive extracts without error and no member is
    written under a top-level [database] or [storage] entry of the
    extraction directory (the member names being taken as extraction takes
    them, with empty, [.] and [..] components dropped), a restore returns 0
    having printed the two skips, and the file system is what it was. *)
Theorem empty_archive_restore args s archive dd db :
  sane h s → files s !! removelast (mkdtemp_path h) = Some Dir →
  reaches_restore read_zip h args s archive dd db →
  (∀ z, z ∈ archive →
        ¬ ["database"] `prefix_of` member_parts (filename z) ∧
        ¬ ["storage"] `prefix_of` member_parts (filename z)) →
  (extractall h archive (mkdtemp_path h)
     (set_files (insert (mkdtemp_path h) Dir) s)).1 = Ok () →
  main read_zip repr h args s
  = (Ok 0, {| files := files s;
              stdout := stdout s ++ [skip_db_message; skip_storage_message];
              stderr := stderr s |}).
Proof.
  intros Hsane Hpar (Hdry & Hopen & a & Ha & Hpaths) Hnames Hex.
  pose proof (extracted_facts h archive s Hsane Hpar) as (Hwf2 & Ho2 & He2 & Hf2 & Hx2).
  destruct Hsane as (Hwf & Hcwd & Hnone).
  rewrite (main_opens _ _ _ _ _ _ _ _ _ Hopen Ha Hpaths), Hdry.
  rewrite bind_run. unfold with_TemporaryDirectory, mkdtemp. rewrite Hnone, Hpar.
  unfold restore. rewrite parts_database, parts_storage.
  rewrite bind_run.
  assert (extractall h archive (mkdtemp_path h)
            (set_files (insert (mkdtemp_path h) Dir) s)
          = (Ok (), extracted h archive s)) as ->.
  { unfold extracted.
    destruct (extractall _ _ _ _) as [r2 s2]. simpl in *. by subst r2. }
  assert (files (extracted h archive s) !! db_dir_of h = None) as Hdb.
  { apply Hx2. intros z Hz. by apply Hnames. }
  assert (files (extracted h archive s) !! storage_dir_of h = None) as Hst.
  { apply Hx2. intros z Hz. by apply Hnames. }
  rewrite bind_run. fold (db_dir_of h). rewrite restore_database_skip; last first.
  { apply sorted_nil, elem_of_nil_inv.
    intros c (Hd & _)%elem_of_glob_db. congruence. }
  fold (storage_dir_of h). rewrite restore_storage_skip by done.
  unfold mret, M_ret, set_files. cbn [files stdout stderr].
  rewrite Ho2, He2, <- app_assoc.
  replace (rmtree (mkdtemp_path h) (files (extracted h archive s))) with (files s);
    [done|].
  apply map_eq. intros p. rewrite rmtree_lookup. case_decide as Hp.
  - by eapply wf_below_None.
  - symmetry. by apply Hf2.
Qed.
Lemma fresh_not_above s q n :
  wf_tree (files s) → files s !! mkdtemp_path h = None → files s !! q = Some n →
  ¬ mkdtemp_path h `prefix_of` q.
Proof.
  intros Hwf Hnone Hq Hpre.
  rewrite (wf_below_None _ _ _ Hwf Hnone Hpre) in Hq. done.
Qed.

(** A restore that returns, taken apart. *)
Lemma restore_run args s s' archive dd db :
  sane h s → apart h dd db →
  reaches_restore read_zip h args s archive dd db →
  main read_zip repr h args s = (Ok 0, s') →
  wf_Path dd ∧ wf_Path db ∧
  wf_tree (files (extracted h archive s)) ∧
  (∀ q, ¬ mkdtemp_path h `prefix_of` q →
        files (extracted h archive s) !! q = files s !! q) ∧
  (∀ rel : path, ¬ storage_dir_of h `prefix_of` locate h dd ++ rel) ∧
  ∃ s3 s4,
    restore_database h (db_dir_of h) db (extracted h archive s) = (Ok (), s3) ∧
    restore_storage h (storage_dir_of h) dd s3 = (Ok (), s4) ∧
    s' = set_files (rmtree (mkdtemp_path h)) s4 ∧
    wf_tree (files s3) ∧
    (∀ p, mkdtemp_path h `prefix_of` p →
          files s3 !! p = files (extracted h archive s) !! p) ∧
    (∀ q, files s3 !! q = Some Dir →
          files (extracted h archive s) !! q = Some Dir ∨
          q `prefix_of` locate h (parent db)).
Proof.
  intros Hsane [Hadd Hadb] (Hdry & Hopen & a & Ha & Hpaths).
  rewrite (main_opens _ _ _ _ _ _ _ _ _ Hopen Ha Hpaths), Hdry.
  intros (Hnone & Hpar & s3 & s4 & E2 & E3 & E4 & ->)%restore_steps.
  pose proof (extracted_facts h archive s Hsane Hpar) as (Hwf2 & _ & _ & Hf2 & _).
  destruct (paths_for_wf _ _ _ _ Hpaths) as [Hwdd Hwdb].
  pose proof (restore_database_frame h _ _ _ _ _ Hwf2 Hwdb E3) as (Hwf3 & _ & Hf3 & Hd3).
  split_and!; try done.
  - intros rel Hpre. apply Hadd.
    destruct (prefix_weak_total (mkdtemp_path h) (locate h dd) (locate h dd ++ rel));
      [|by apply prefix_app_r|by left|by right].
    etrans; [|exact Hpre]. unfold storage_dir_of. by apply prefix_app_r.
  - exists s3, s4. split_and!; try done.
    intros p Hp. apply Hf3. by eapply under_tmp_incomparable.
Qed.

Lemma db_named s db_dir db first rest s3 :
  wf_tree (files s) → files s !! cwd h = Some Dir →
  sorted (glob_db (files s) db_dir) = first :: rest →
  restore_database h db_dir db s = (Ok (), s3) →
  parts db ≠ [].
Proof.
  intros Hwf Hcwd Hcand Hrun Hnil.
  assert (files s !! locate h db = Some Dir) as Hd.
  { unfold locate. rewrite Hnil. destruct (anchored db); [apply Hwf|].
    by rewrite app_nil_r. }
  revert Hrun. unfold restore_database.
  rewrite bind_run. unfold gets at 1. rewrite bind_run, candidates_of, Hcand.
  rewrite bind_run. unfold _backup_existing_db.
  rewrite bind_run. unfold gets at 1. rewrite (exists_Some _ _ _ Hd). simpl.
  rewrite bind_run. unfold lift at 1.
  destruct (with_suffix_no_name db (suffix db +:+ ".bak_" +:+ strftime (localtime h)) Hnil)
    as [e ->].
  done.
Qed.

Lemma cleanup_keeps s4 q :
  ¬ mkdtemp_path h `prefix_of` q →
  files (set_files (rmtree (mkdtemp_path h)) s4) !! q = files s4 !! q.
Proof. intros Hq. simpl. rewrite rmtree_lookup. by rewrite decide_False. Qed.

Lemma storage_files_agree m m' :
  (∀ p, mkdtemp_path h `prefix_of` p → m' !! p = m !! p) →
  ∀ p, p ∈ storage_files h m' ↔ p ∈ storage_files h m.
Proof.
  intros Hag p. unfold storage_files. rewrite !list_elem_of_filter.
  assert (∀ q, storage_dir_of h `prefix_of` q → m' !! q = m !! q) as Hag'.
  { intros q Hq. apply Hag. etrans; [|exact Hq]. by apply prefix_app_r. }
  rewrite (rglob_agree m m' (storage_dir_of h) Hag').
  split; intros [Hf Hin]; split; try done.
  - rewrite <- Hf. symmetry. apply is_file_agree, Hag'.
    apply elem_of_rglob in Hin as (_ & _ & x & rel & ->). by apply prefix_app_r.
  - rewrite <- Hf. apply is_file_agree, Hag'.
    apply elem_of_rglob in Hin as (_ & _ & x & rel & ->). by apply prefix_app_r.
Qed.

Lemma name_backup db :
  name (backup_path_of h db) = name db +:+ ".bak_" +:+ strftime (localtime h).
Proof. unfold name at 1, backup_path_of. simpl. apply last_last. Qed.


Lemma storage_files_length m m' :
  (∀ p, mkdtemp_path h `prefix_of` p → m' !! p = m !! p) →
  length (storage_files h m') = length (storage_files h m).
Proof.
  intros Hag. apply Permutation_length, NoDup_Permutation.
  - apply NoDup_filter, NoDup_rglob.
  - apply NoDup_filter, NoDup_rglob.
  - by apply storage_files_agree.
Qed.

(** What a restore that returns 0 has changed. *)
Lemma restore_explained args s s' archive dd db :
  sane h s → apart h dd db →
  reaches_restore read_zip h args s archive dd db →
  main read_zip repr h args s = (Ok 0, s') →
  explained
    (λ q, q `prefix_of` locate h (parent db) ∨ q `prefix_of` locate h dd ∨
          on_the_way (storage_dir_of h) (locate h dd) (files (extracted h archive s))
            (rglob (files (extracted h archive s)) (storage_dir_of h)) q)
    (λ q, locate h db `prefix_of` q ∨ locate h (backup_path_of h db) `prefix_of` q ∨
          lands (storage_dir_of h) (locate h dd) (files (extracted h archive s))
            (rglob (files (extracted h archive s)) (storage_dir_of h)) q)
    s s'.
Proof.
  intros Hsane Hapart Hreach Hrun.
  destruct (restore_run _ _ _ _ _ _ Hsane Hapart Hreach Hrun)
    as (Hwdd & Hwdb & Hwf2 & Hf2 & Hsep & s3 & s4 & E3 & E4 & -> & Hwf3 & Hag3 & Hd3).
  destruct Hsane as (Hwf & Hcwd & Hnone).
  pose proof (restore_database_explained h _ _ _ _ _ Hwdb E3) as H3.
  pose proof (restore_storage_explained h _ _ Hsep _ _ _ E4) as H4.
  assert (∀ p, storage_dir_of h `prefix_of` p →
               files s3 !! p = files (extracted h archive s) !! p) as Hag.
  { intros p Hp. apply Hag3. etrans; [|exact Hp]. by apply prefix_app_r. }
  pose proof (rglob_agree (files (extracted h archive s)) (files s3) _ Hag) as Hperm.
  assert (∀ p, p ∈ rglob (files s3) (storage_dir_of h) →
               files s3 !! p = files (extracted h archive s) !! p) as Hagl.
  { intros p (_ & _ & x & rel & ->)%elem_of_rglob. apply Hag. by apply prefix_app_r. }
  eapply (explained_mono _ _
            (λ q, q `prefix_of` locate h (parent db) ∨ q `prefix_of` locate h dd ∨
                  on_the_way (storage_dir_of h) (locate h dd)
                    (files (extracted h archive s))
                    (rglob (files (extracted h archive s)) (storage_dir_of h)) q)
            (λ q, locate h db `prefix_of` q
                  ∨ locate h (backup_path_of h db) `prefix_of` q ∨
                  lands (storage_dir_of h) (locate h dd)
                    (files (extracted h archive s))
                    (rglob (files (extracted h archive s)) (storage_dir_of h)) q))
    in H3; [|by left|intros q [?|?]; auto].
  eapply (explained_mono _ _
            (λ q, q `prefix_of` locate h (parent db) ∨ q `prefix_of` locate h dd ∨
                  on_the_way (storage_dir_of h) (locate h dd)
                    (files (extracted h archive s))
                    (rglob (files (extracted h archive s)) (storage_dir_of h)) q)
            (λ q, locate h db `prefix_of` q
                  ∨ locate h (backup_path_of h db) `prefix_of` q ∨
                  lands (storage_dir_of h) (locate h dd)
                    (files (extracted h archive s))
                    (rglob (files (extracted h archive s)) (storage_dir_of h)) q))
    in H4; last first.
  { intros q Hq. right. right.
    apply (copy_changes_agree _ _ _ _ _ _ Hagl) in Hq.
    destruct Hq as (p & rel & Hp & ?). exists p, rel. split; [by rewrite <- Hperm|done]. }
  { intros q [?|Hq]; [auto|]. right. right.
    apply (copy_changes_agree _ _ _ _ _ _ Hagl) in Hq.
    destruct Hq as (p & rel & Hp & ?). exists p, rel. split; [by rewrite <- Hperm|done]. }
  pose proof (explained_trans _ _ _ _ _ H3 H4) as H.
  intros q. destruct (decide (mkdtemp_path h `prefix_of` q)) as [Hq|Hq].
  - left. cbn [files set_files]. rewrite rmtree_lookup, decide_True by done.
    symmetry. by eapply wf_below_None.
  - unfold is_file. rewrite cleanup_keeps by done. rewrite <- (Hf2 q Hq). apply H.
Qed.

End Claims.

(* ===================================================================== *)
(** * The claims on the runs of the scenario *)
(* ===================================================================== *)

Section Runs.
Import Scenario Obstacle.

Local Ltac by_compute := vm_compute; reflexivity.
Local Ltac by_decide := apply (bool_decide_unpack _); vm_compute; exact I.

Lemma opens_good dry m data :
  m !! (["home"; "u"; "good.zip"] : path) = Some (File (bytes_of "G") data) →
  opens_archive read_zip host (args_for "good.zip" dry) (start m) archive_good.
Proof.
  intros Hm. exists (Path_of "good.zip"), (bytes_of "G"), data.
  split; [by_compute|]. split; [exact Hm | by_compute].
Qed.

Lemma reaches_good m data :
  m !! (["home"; "u"; "good.zip"] : path) = Some (File (bytes_of "G") data) →
  reaches_restore read_zip host (args_for "good.zip" false) (start m)
    archive_good crm_dir crm_db.
Proof.
  intros Hm. split; [reflexivity|]. split; [by apply (opens_good false m data)|].
  exists crm. split; by_compute.
Qed.

Lemma sane_with_db : sane host (start tree_with_db).
Proof.
  split; [apply wf_tree_check_sound; by_compute|]. split; by_compute.
Qed.

Lemma sane_base : sane host (start base_tree).
Proof.
  split; [apply wf_tree_check_sound; by_compute|]. split; by_compute.
Qed.

Lemma apart_crm : apart host crm_dir crm_db.
Proof. split; by_decide. Qed.

Lemma plain_crm_dir : plain (locate host crm_dir).
Proof. by_decide. Qed.

Lemma plain_crm_db : plain (locate host crm_db).
Proof. by_decide. Qed.

(** A root of exactly two slashes is printed as it was given, in the report
    of a dry run and in the message for a missing archive. *)
Lemma double_slash_root_kept :
  stdout (run {| backup := "good.zip"; app_arg := None;
                 data_dir_arg := Some "//x"; dry_run := true |} tree_with_db).2
  = [ "App: crm"; "Data dir: //x"; "Database path: //x/ps_crm.db";
      "Storage files to restore: 2";
      "Database files in archive: ['database/b.db', 'database/a.db', 'database/old/z.db']" ] ∧
  stderr (run (args_for "//absent.zip" false) base_tree).2
  = ["Backup archive not found: //absent.zip"].
Proof. split; by_compute. Qed.

Lemma dry_run_reports_only_witness :
  run (args_for "good.zip" true) tree_with_db
  = (Ok 0, {| files := tree_with_db;
              stdout := [ "App: crm"; "Data dir: /srv/crm";
                          "Database path: /srv/crm/ps_crm.db";
                          "Storage files to restore: 2";
                          "Database files in archive: ['database/b.db', 'database/a.db', 'database/old/z.db']" ];
              stderr := [] |}).
Proof.
  pose proof (dry_run_reports_only read_zip repr host (args_for "good.zip" true)
                (start tree_with_db) archive_good crm eq_refl
                (opens_good true tree_with_db 7 ltac:(by_compute)) eq_refl) as H.
  assert (E : paths_for host crm (data_dir_arg (args_for "good.zip" true))
              = Ok (crm_dir, crm_db)) by by_compute.
  rewrite E in H. exact H.
Defined.


Lemma temporary_directory_removed_witness :
  (run (args_for "conflict.zip" false) base_tree).1 = Raise NotADirectoryError ∧
  ∀ p : path, mkdtemp_path host `prefix_of` p →
       files (run (args_for "conflict.zip" false) base_tree).2 !! p = None.
Proof.
  split; [by_compute|].
  apply (temporary_directory_removed read_zip repr host
           (args_for "conflict.zip" false) (start base_tree)
           archive_conflict crm_dir crm_db (Raise NotADirectoryError)).
  - split; [reflexivity|]. split.
    + exists (Path_of "conflict.zip"), (bytes_of "X"), 7.
      split; [by_compute|]. split; by_compute.
    + exists crm. split; by_compute.
  - by_compute.
  - by_compute.
  - by_compute.
Defined.

Lemma wf_crm_db : wf_Path crm_db.
Proof. apply wf_Path_of. Qed.


Lemma paths_fallback_chain_witness :
  _crm_paths host_env None
  = Ok (Path_of "/data/crm", Path_of "/data/db/crm.sqlite") ∧
  _sales_paths host_env (Some "~/x")
  = Ok (Path_of "/home/u/x", Path_of "/data/db/sales.sqlite").
Proof.
  split.
  - rewrite (proj1 (proj1 (paths_fallback_chain host_env None) eq_refl)).
    by_compute.
  - pose proof (proj2 (paths_fallback_chain host_env (Some "~/x")) "~/x" eq_refl
                  ltac:(discriminate)) as H.
    assert (E : expanduser host_env (Path_of "~/x") = Ok (Path_of "/home/u/x"))
      by by_compute.
    rewrite E in H. destruct H as [_ H]. rewrite H. by_compute.
Defined.

Lemma empty_archive_restore_witness :
  run (args_for "marker.zip" false) base_tree
  = (Ok 0, {| files := base_tree;
              stdout := [skip_db_message; skip_storage_message];
              stderr := [] |}).
Proof.
  apply (empty_archive_restore read_zip repr host (args_for "marker.zip" false)
           (start base_tree) archive_marker_only crm_dir crm_db).
  - exact sane_base.
  - by_compute.
  - split; [reflexivity|]. split.
    + exists (Path_of "marker.zip"), (bytes_of "M"), 7.
      split; [by_compute|]. split; by_compute.
    + exists crm. split; by_compute.
  - intros z Hz. apply list_elem_of_singleton in Hz as ->. split; by_decide.
  - by_compute.
Defined.




End Runs.

(* ===================================================================== *)
(** * Runs on which the specification's wording fails *)
(* ===================================================================== *)

Section Divergences.
Import Scenario Obstacle.

Local Ltac by_compute := vm_compute; reflexivity.




(** C7 as worded fails: no entry name of the archive starts with
    [database/] or [storage/], yet [storage] exists after extraction (as a
    regular file); the run returns 0 without the storage skip, and has
    created the data directory. *)
Lemma empty_archive_restore_counterexample :
  filter (λ nm, Str.startswith nm "database/" = true)
         (namelist archive_storage_file) = [] ∧
  filter (λ nm, Str.startswith nm "storage/" = true)
         (namelist archive_storage_file) = [] ∧
  _detect_app archive_storage_file = Some crm ∧
  (run (args_for "storagefile.zip" false) base_tree).1 = Ok 0 ∧
  stdout (run (args_for "storagefile.zip" false) base_tree).2
  = [skip_db_message; "Restored 0 storage files into /srv/crm"] ∧
  base_tree !! locate host crm_dir = None ∧
  files (run (args_for "storagefile.zip" false) base_tree).2
    !! locate host crm_dir = Some Dir.
Proof. repeat split; by_compute. Qed.

(** C8 as worded fails: an override that starts with the tilde of a user
    whose home directory is unknown makes both resolutions raise. *)
Lemma paths_fallback_chain_counterexample :
  _crm_paths host (Some "~ghost/data") = Raise RuntimeError ∧
  _sales_paths host (Some "~ghost/data") = Raise RuntimeError.
Proof. split; by_compute. Qed.

(** C4 as worded fails: the archive is valid (it opens and carries the crm
    marker), and a dry run with an override whose tilde cannot be expanded
    ends with RuntimeError: no report is printed and no exit code 0 is
    returned. *)
Lemma dry_run_reports_only_counterexample :
  base_tree !! locate host (Path_of "good.zip") = Some (File (bytes_of "G") 7) ∧
  read_zip (bytes_of "G") = Some archive_good ∧
  _detect_app archive_good = Some crm ∧
  run {| backup := "good.zip"; app_arg := None;
         data_dir_arg := Some "~ghost/data"; dry_run := true |} base_tree
  = (Raise RuntimeError, start base_tree).
Proof. repeat split; by_compute. Qed.


End Divergences.

(* ===================================================================== *)
(** * Further properties of the program *)
(* ===================================================================== *)

Create HintDb quiet discriminated.

Section Quiet.
Variable read_zip : list byte → option (list ZipInfo).
Variable repr : string → string.
Variable h : Host.

Lemma keeps_stderr_ret {A} (a : A) : keeps_stderr (mret a).
Proof. by intros s. Qed.

Lemma keeps_stderr_bind {A B} (m : M A) (k : A → M B) :
  keeps_stderr m → (∀ a, keeps_stderr (k a)) → keeps_stderr (m ≫= k).
Proof.
  intros Hm Hk s. rewrite bind_run. specialize (Hm s).
  destruct (m s) as [[a|e] s1]; cbn [snd] in *; [|done].
  by rewrite Hk.
Qed.

Lemma keeps_stderr_raise {A} e : keeps_stderr (raise e : M A).
Proof. by intros s. Qed.

Lemma keeps_stderr_lift {A} (r : result A) : keeps_stderr (lift r).
Proof. by intros s. Qed.

Lemma keeps_stderr_gets {A} (f : tree → A) : keeps_stderr (gets f).
Proof. by intros s. Qed.

Lemma keeps_stderr_print line : keeps_stderr (print line).
Proof. by intros s. Qed.

Lemma keeps_stderr_for_each {A} (l : list A) (body : A → M unit) :
  (∀ x, keeps_stderr (body x)) → keeps_stderr (for_each l body).
Proof.
  intros Hb. induction l as [|x l IH]; cbn [for_each].
  - apply keeps_stderr_ret.
  - apply keeps_stderr_bind; [apply Hb | intros _; exact IH].
Qed.

Local Ltac by_cases :=
  intros s; repeat case_match; reflexivity.

Lemma keeps_stderr_mkdir_one last p : keeps_stderr (mkdir_one last p).
Proof. unfold mkdir_one. by_cases. Qed.

Lemma keeps_stderr_makedirs_from rest : ∀ pre, keeps_stderr (makedirs_from pre rest).
Proof.
  induction rest as [|x rest IH]; intros pre; cbn [makedirs_from].
  - apply keeps_stderr_mkdir_one.
  - apply keeps_stderr_bind; [apply keeps_stderr_mkdir_one | intros _; apply IH].
Qed.

Lemma keeps_stderr_mkdir_parents p : keeps_stderr (mkdir_parents p).
Proof. apply keeps_stderr_makedirs_from. Qed.

Lemma keeps_stderr_write_file p data t : keeps_stderr (write_file p data t).
Proof. unfold write_file. by_cases. Qed.

Lemma keeps_stderr_copy2 src dst : keeps_stderr (copy2 src dst).
Proof.
  intros s. unfold copy2. cbv zeta.
  destruct (_ && _); [done|].
  destruct (files s !! src) as [[data t|]|]; [|done..].
  apply (keeps_stderr_bind (write_file _ data t) (λ _, mret _));
    [apply keeps_stderr_write_file | intros; apply keeps_stderr_ret].
Qed.

Hint Resolve keeps_stderr_ret keeps_stderr_raise keeps_stderr_lift
  keeps_stderr_gets keeps_stderr_print keeps_stderr_mkdir_one
  keeps_stderr_mkdir_parents keeps_stderr_write_file keeps_stderr_copy2 : quiet.

Lemma keeps_stderr_copy_loop source dest l :
  ∀ acc, keeps_stderr (_copy_tree_loop source dest l acc).
Proof.
  induction l as [|p l IH]; intros acc; cbn [_copy_tree_loop]; [auto with quiet|].
  apply keeps_stderr_bind; [auto with quiet|]. intros isf.
  destruct isf; [|apply IH].
  destruct (relative_to p source); [|auto with quiet].
  cbv zeta. apply keeps_stderr_bind; [auto with quiet|]. intros _.
  apply keeps_stderr_bind; [auto with quiet|]. intros _. apply IH.
Qed.

Lemma keeps_stderr_copy_tree source dest : keeps_stderr (_copy_tree source dest).
Proof.
  unfold _copy_tree. apply keeps_stderr_bind; [auto with quiet|].
  intros l. apply keeps_stderr_copy_loop.
Qed.

Lemma keeps_stderr_backup db : keeps_stderr (_backup_existing_db h db).
Proof.
  unfold _backup_existing_db. apply keeps_stderr_bind; [auto with quiet|].
  intros ex. destruct ex; cbn [negb]; [|auto with quiet].
  cbv zeta. apply keeps_stderr_bind; [auto with quiet|]. intros bp.
  apply keeps_stderr_bind; [auto with quiet|]. intros _.
  apply keeps_stderr_bind; auto with quiet.
Qed.

Lemma keeps_stderr_extract_member dest z : keeps_stderr (extract_member h dest z).
Proof.
  unfold extract_member. cbv zeta.
  apply keeps_stderr_bind; [auto with quiet|]. intros ex.
  apply keeps_stderr_bind; [destruct ex; auto with quiet|]. intros _.
  destruct (zi_is_dir z); [|auto with quiet].
  apply keeps_stderr_bind; [auto with quiet|]. intros isd.
  destruct isd; [auto with quiet|]. by_cases.
Qed.

Lemma keeps_stderr_extractall archive dest : keeps_stderr (extractall h archive dest).
Proof. apply keeps_stderr_for_each. intros z. apply keeps_stderr_extract_member. Qed.

Lemma keeps_stderr_with_TemporaryDirectory {A} (body : path → M A) :
  (∀ t, keeps_stderr (body t)) → keeps_stderr (with_TemporaryDirectory h body).
Proof.
  intros Hb s. unfold with_TemporaryDirectory, mkdtemp.
  destruct (files s !! mkdtemp_path h); [done|].
  destruct (files s !! removelast (mkdtemp_path h)) as [[]|]; [done| |done].
  specialize (Hb (mkdtemp_path h) (set_files (insert (mkdtemp_path h) Dir) s)).
  destruct (body _ _) as [r s2]. exact Hb.
Qed.

Lemma keeps_stderr_restore_database db_dir db :
  keeps_stderr (restore_database h db_dir db).
Proof.
  unfold restore_database. apply keeps_stderr_bind; [auto with quiet|]. intros ex.
  apply keeps_stderr_bind; [destruct ex; auto with quiet|]. intros [|first rest];
    [auto with quiet|].
  apply keeps_stderr_bind; [apply keeps_stderr_backup|]. intros bp.
  apply keeps_stderr_bind; [destruct bp; auto with quiet|]. intros _.
  apply keeps_stderr_bind; [auto with quiet|]. intros _.
  apply keeps_stderr_bind; auto with quiet.
Qed.

Lemma keeps_stderr_restore_storage storage_dir dd :
  keeps_stderr (restore_storage h storage_dir dd).
Proof.
  unfold restore_storage. apply keeps_stderr_bind; [auto with quiet|]. intros ex.
  destruct ex; [|auto with quiet].
  apply keeps_stderr_bind; [auto with quiet|]. intros _.
  apply keeps_stderr_bind; [apply keeps_stderr_copy_tree|]. auto with quiet.
Qed.

Lemma keeps_stderr_restore archive dd db t : keeps_stderr (restore h archive dd db t).
Proof.
  unfold restore. apply keeps_stderr_bind; [apply keeps_stderr_extractall|].
  intros _. cbv zeta.
  apply keeps_stderr_bind; [apply keeps_stderr_restore_database|].
  intros _. apply keeps_stderr_restore_storage.
Qed.

Lemma keeps_stderr_dry_run_report archive a dd db :
  keeps_stderr (dry_run_report repr archive a dd db).
Proof.
  unfold dry_run_report. cbv zeta.
  repeat (apply keeps_stderr_bind; [apply keeps_stderr_print|intros _]).
  apply keeps_stderr_ret.
Qed.

Lemma keeps_stderr_ZipFile p : keeps_stderr (ZipFile read_zip p).
Proof. unfold ZipFile. by_cases. Qed.

(** X2. [main] writes to the error stream only in a run that returns 2: in a
    run that returns 0, and up to the point where an exception escapes, the
    stream is as it was. (The traceback the interpreter prints for an
    escaped exception is not [main]'s and is outside the model.) *)
Theorem stderr_only_on_exit_2 args s :
  stderr (main read_zip repr h args s).2 = stderr s ∨
  (main read_zip repr h args s).1 = Ok 2.
Proof.
  destruct (main read_zip repr h args s) as [r s'] eqn:E. cbn [fst snd].
  revert E. unfold main. rewrite bind_run. unfold lift at 1.
  destruct (expanduser h _) as [ap|e]; [|intros [= <- <-]; by left].
  rewrite bind_run. unfold gets at 1.
  destruct (exists_ _ _); cbn [negb]; [|intros [= <- <-]; by right].
  rewrite bind_run.
  pose proof (keeps_stderr_ZipFile (locate h ap) s) as Hz.
  destruct (ZipFile _ _ _) as [[archive|e] s1]; cbn [snd] in Hz;
    [|intros [= <- <-]; by left].
  destruct (resolve_app _ _) as [a|]; [|intros [= <- <-]; by right].
  rewrite bind_run. unfold lift at 1.
  destruct (paths_for _ _ _) as [[dd db]|e]; [|intros [= <- <-]; by left].
  intros E. left. rewrite <- Hz. destruct (dry_run args).
  - pose proof (keeps_stderr_dry_run_report archive a dd db s1) as Hk.
    by rewrite E in Hk.
  - assert (Hk : keeps_stderr (with_TemporaryDirectory h (restore h archive dd db)
                               ≫= λ _, mret 0)).
    { apply keeps_stderr_bind; [|intros _; apply keeps_stderr_ret].
      apply keeps_stderr_with_TemporaryDirectory. intros t. apply keeps_stderr_restore. }
    specialize (Hk s1). by rewrite E in Hk.
Qed.

(** X1. When [main] returns, the exit code is 0 or 2. *)
Theorem exit_code_0_or_2 args s n :
  (main read_zip repr h args s).1 = Ok n → n = 0 ∨ n = 2.
Proof.
  destruct (main read_zip repr h args s) as [r s'] eqn:E. cbn [fst].
  intros ->. revert E. unfold main. rewrite bind_run. unfold lift at 1.
  destruct (expanduser h _) as [ap|e]; [|discriminate].
  rewrite bind_run. unfold gets at 1.
  destruct (exists_ _ _); cbn [negb]; [|intros [= <- _]; by right].
  rewrite bind_run.
  destruct (ZipFile _ _ _) as [[archive|e] s1]; [|discriminate].
  destruct (resolve_app _ _) as [a|]; [|intros [= <- _]; by right].
  rewrite bind_run. unfold lift at 1.
  destruct (paths_for _ _ _) as [[dd db]|e]; [|discriminate].
  destruct (dry_run args).
  - unfold dry_run_report. cbv zeta.
    repeat (rewrite bind_run; unfold print at 1).
    intros [= <- _]. by left.
  - rewrite bind_run.
    destruct (with_TemporaryDirectory _ _ _) as [[u|e] s2]; [|discriminate].
    intros [= <- _]. by left.
Qed.

End Quiet.

Section Failures.
Variable read_zip : list byte → option (list ZipInfo).
Variable repr : string → string.
Variable h : Host.
Implicit Types (s : state) (db dd : Path).

(** X4. What exists at the archive path but is no archive ends the run with an
    exception, before anything is printed or written: a directory with
    IsADirectoryError, a file that does not decode with BadZipFile. *)
Theorem not_an_archive_raises args s ap :
  expanduser h (Path_of (backup args)) = Ok ap →
  (files s !! locate h ap = Some Dir →
   main read_zip repr h args s = (Raise IsADirectoryError, s)) ∧
  (∀ data t, files s !! locate h ap = Some (File data t) → read_zip data = None →
             main read_zip repr h args s = (Raise BadZipFile, s)).
Proof.
  intros Hap. split.
  - intros Hd. unfold main. rewrite bind_run. unfold lift at 1. rewrite Hap.
    rewrite bind_run. unfold gets at 1. rewrite (exists_Some _ _ _ Hd). cbn [negb].
    rewrite bind_run. unfold ZipFile. by rewrite Hd.
  - intros data t Hf Hz. unfold main. rewrite bind_run. unfold lift at 1. rewrite Hap.
    rewrite bind_run. unfold gets at 1. rewrite (exists_Some _ _ _ Hf). cbn [negb].
    rewrite bind_run. unfold ZipFile. by rewrite Hf, Hz.
Qed.

(** X5. A tilde that cannot be expanded ends the run with RuntimeError before
    anything is printed or written, in the archive path at once, in the
    data-directory override once the archive has been opened and the
    application is known; this in a dry run too. *)
Theorem unexpandable_tilde_raises args s :
  (∀ e, expanduser h (Path_of (backup args)) = Raise e →
        e = RuntimeError ∧ main read_zip repr h args s = (Raise RuntimeError, s)) ∧
  (∀ archive a e,
     opens_archive read_zip h args s archive →
     resolve_app (app_arg args) archive = Some a →
     paths_for h a (data_dir_arg args) = Raise e →
     e = RuntimeError ∧ main read_zip repr h args s = (Raise RuntimeError, s)).
Proof.
  split.
  - intros e He. destruct (expanduser_raises h _ _ He) as [-> _]. split; [done|].
    unfold main. rewrite bind_run. unfold lift at 1. by rewrite He.
  - intros archive a e (ap & data & t & Hap & Hf & Hz) Ha He.
    apply paths_for_raises in He as Hr. subst e.
    split; [done|].
    unfold main. rewrite bind_run. unfold lift at 1. rewrite Hap.
    rewrite bind_run. unfold gets at 1. rewrite (exists_Some _ _ _ Hf). cbn [negb].
    rewrite bind_run. unfold ZipFile. rewrite Hf, Hz, Ha.
    rewrite bind_run. unfold lift at 1. by rewrite He.
Qed.

(** X3. The two runs that return 2 say why on the error stream: the missing
    archive is named by its path after expansion, printed as pathlib prints
    it, and a failed detection asks for [--app]. The archive path has no
    [..] component. *)
Theorem exit_2_messages args s :
  (∀ ap, expanduser h (Path_of (backup args)) = Ok ap →
         plain (locate h ap) →
         files s !! locate h ap = None →
         stderr (main read_zip repr h args s).2
         = stderr s ++ ["Backup archive not found: " +:+ str ap]) ∧
  (detection_fails read_zip h args s →
   stderr (main read_zip repr h args s).2
   = stderr s ++ ["Unable to detect app type from backup. Use --app crm|sales."]).
Proof.
  split.
  - intros ap Hap _ Hnone.
    by rewrite (main_missing read_zip repr h args s ap Hap Hnone).
  - intros (archive & Hopen & Hno & Hdet).
    rewrite (main_undetected read_zip repr h args s archive Hopen); [done|].
    by rewrite Hno.
Qed.

End Failures.

Section Blocks.
Variable h : Host.
Implicit Types (m : tree) (p q d : path) (s : state) (db dd : Path).

(** X6. Detection looks at the set of entry names: neither the order of the
    entries nor repetitions among them matter. *)
Theorem detect_app_by_name_set (a b : list ZipInfo) :
  (∀ nm, nm ∈ namelist a ↔ nm ∈ namelist b) → _detect_app a = _detect_app b.
Proof.
  intros Hab. unfold _detect_app. cbv zeta.
  assert (∀ nm, nm ∈ (list_to_set (namelist a) : gset string)
                ↔ nm ∈ (list_to_set (namelist b) : gset string)) as Hset.
  { intros nm. by rewrite !elem_of_list_to_set. }
  destruct (decide (CRM_EXPORT_MARKER ∈ _)) as [Ha|Ha];
    destruct (decide (CRM_EXPORT_MARKER ∈ _)) as [Hb|Hb];
    try done; try (by apply Hset in Ha); try (by apply Hset in Hb).
  destruct (decide (SALES_EXPORT_MARKER ∈ _)) as [Ha'|Ha'];
    destruct (decide (SALES_EXPORT_MARKER ∈ _)) as [Hb'|Hb'];
    try done; try (by apply Hset in Ha'); try (by apply Hset in Hb').
Qed.

Lemma NoDup_glob_db m d : NoDup (glob_db m d).
Proof.
  unfold glob_db. destruct (is_dir m d); [|constructor].
  apply NoDup_filter, NoDup_elements.
Qed.

(** X8. The candidates come out of the sort in ascending path order and without
    repetition: the one restored is below every other, and is none of
    them. *)
Theorem candidates_in_order m d :
  StronglySorted path_le (sorted (glob_db m d)) ∧
  NoDup (sorted (glob_db m d)) ∧
  ∀ first rest c, sorted (glob_db m d) = first :: rest → c ∈ rest →
                  path_le first c ∧ c ≠ first.
Proof.
  assert (StronglySorted path_le (sorted (glob_db m d))) as Hs
    by (unfold sorted; apply StronglySorted_merge_sort; apply _).
  assert (NoDup (sorted (glob_db m d))) as Hn.
  { unfold sorted. rewrite merge_sort_Permutation. apply NoDup_glob_db. }
  split_and!; [done..|].
  intros first rest c E Hc. rewrite E in Hs, Hn.
  apply StronglySorted_inv in Hs as [_ Hall]. apply NoDup_cons in Hn as [Hnot _].
  split.
  - rewrite Forall_forall in Hall. by apply Hall.
  - by intros ->.
Qed.

Lemma with_suffix_raises P sfx e : with_suffix P sfx = Raise e → e = ValueError.
Proof.
  unfold with_suffix. repeat case_match; try done; by intros [= <-].
Qed.

(** X10. A database path without a name (the current directory, or the root)
    exists as a directory, and the backup step then raises ValueError
    before touching anything. *)
Theorem backup_nameless_raises db s :
  parts db = [] → is_Some (files s !! locate h db) →
  _backup_existing_db h db s = (Raise ValueError, s).
Proof.
  intros Hnil [n Hn]. unfold _backup_existing_db.
  rewrite bind_run. unfold gets at 1. rewrite (exists_Some _ _ _ Hn). cbn [negb].
  cbv zeta. rewrite bind_run. unfold lift at 1.
  destruct (with_suffix_no_name db (suffix db +:+ ".bak_" +:+ strftime (localtime h)) Hnil)
    as [e He].
  rewrite He. by rewrite (with_suffix_raises _ _ _ He).
Qed.


Lemma parent_div P x :
  Path_of x = {| anchored := unrooted; parts := [x] |} →
  parent (div P x) = P ∧ name (div P x) = x.
Proof.
  intros Hx. unfold div, joinpath. rewrite Hx. cbn [anchored parts].
  unfold parent, name. cbn [anchored parts].
  rewrite removelast_last, last_last. by destruct P.
Qed.

(** X7. Unless the environment says otherwise, the database is a file of the
    data directory: [ps_crm.db] when DB_PATH is not set, [ps_sales.db] when
    PS_SALES_DB_URL is not set or is empty; this for every data directory,
    given or defaulted. *)
Theorem default_database_in_data_dir o dd db :
  (environ h !! "DB_PATH" = None → _crm_paths h o = Ok (dd, db) →
   parent db = dd ∧ name db = "ps_crm.db") ∧
  (environ h !! "PS_SALES_DB_URL" = None ∨ environ h !! "PS_SALES_DB_URL" = Some "" →
   _sales_paths h o = Ok (dd, db) →
   parent db = dd ∧ name db = "ps_sales.db").
Proof.
  split.
  - intros Henv Hp.
    destruct (paths_for_wf h crm o dd db Hp) as [Hwdd _].
    destruct (if truthy o then expanduser h (Path_of (default "" o))
              else Ok (Path_of (getenv h "APP_STORAGE_DIR" (get_storage_dir h))))
      as [base|e] eqn:Eb.
    2:{ unfold _crm_paths in Hp. rewrite Eb in Hp. done. }
    assert (base = dd) as ->.
    { unfold _crm_paths in Hp. rewrite Eb in Hp.
      cbv [mbind result_bind mret result_ret] in Hp. by injection Hp as -> _. }
    rewrite (crm_paths_chain h o dd Eb Hwdd), Henv in Hp. injection Hp as <-.
    by apply parent_div.
  - intros Henv Hp.
    destruct (if truthy o then expanduser h (Path_of (default "" o))
              else Ok (Path_of (load_config_data_dir h))) as [base|e] eqn:Eb.
    2:{ unfold _sales_paths in Hp. rewrite Eb in Hp. done. }
    rewrite (sales_paths_chain h o base Eb) in Hp.
    destruct Henv as [Henv|Henv]; rewrite Henv in Hp.
    + injection Hp as <- <-. by apply parent_div.
    + rewrite decide_True in Hp by done. injection Hp as <- <-. by apply parent_div.
Qed.

End Blocks.

Section CopyTargets.
Variables (source dest : path).
Hypothesis Hsep : ∀ rel : path, ¬ source `prefix_of` dest ++ rel.
Implicit Types (m : tree) (p q : path) (s : state) (l acc : list path).

(** One file's copy leaves what is below the source as it was. *)
Lemma copy_step_source s s1 s2 rel w :
  mkdir_parents (removelast (dest ++ rel)) s = (Ok (), s1) →
  copy2 (source ++ rel) (dest ++ rel) s1 = (Ok w, s2) →
  ∀ p, source `prefix_of` p → files s2 !! p = files s !! p.
Proof.
  intros E1 E2 p Hp. apply mkdir_parents_grows in E1.
  apply copy2_cases in E2
    as [(data & t & w' & Hw & [= <-] & _ & _ & _ & _ & ->)|(e & ? & _)]; [|done].
  cbn [files set_files]. rewrite lookup_insert_ne.
  - destruct E1 as (_ & _ & Hg).
    destruct (Hg p) as [?|(_ & _ & _ & Hpu)]; [done|]. exfalso.
    apply (Hsep rel). etrans; [exact Hp|]. etrans; [exact Hpu|].
    apply removelast_prefix.
  - intros <-. rewrite Hw in Hp. destruct (is_dir _ _).
    + rewrite <- (assoc_L (++)) in Hp. by apply Hsep in Hp.
    + by apply Hsep in Hp.
Qed.

Lemma copy_loop_targets l : ∀ acc s copied s',
  (∀ p, p ∈ l → source `prefix_of` p) →
  _copy_tree_loop source dest l acc s = (Ok copied, s') →
  copied = acc ++ copy_targets source dest (files s) l.
Proof.
  unfold copy_targets.
  induction l as [|p l IH]; intros acc s copied s' Hunder; cbn [_copy_tree_loop].
  { intros [= <- _]. by rewrite app_nil_r. }
  assert (∀ p', p' ∈ l → source `prefix_of` p') as Hunder'
    by (intros; apply Hunder; by right).
  rewrite bind_run. unfold gets at 1. rewrite filter_cons.
  destruct (is_file (files s) p) eqn:Hf.
  2:{ rewrite decide_False by done. by apply IH. }
  rewrite decide_True by done.
  destruct (Hunder p ltac:(left)) as [rel ->].
  rewrite relative_to_app. cbv zeta. intros H.
  apply bind_Ok in H as ([] & s1 & E1 & H).
  apply bind_Ok in H as (w & s2 & E2 & H).
  apply IH in H; [|done]. rewrite H, <- (assoc_L (++)). f_equal.
  rewrite fmap_cons, drop_app_length. simpl. do 2 f_equal.
  apply filter_is_file_agree. intros p' Hp'.
  eapply copy_step_source; [exact E1|exact E2|]. by apply Hunder'.
Qed.


End CopyTargets.

Section WholeRun.
Variable read_zip : list byte → option (list ZipInfo).
Variable repr : string → string.
Variable h : Host.
Implicit Types (m : tree) (p q d : path) (s : state) (db dd : Path).

(** What the backup step returns, when it returns. *)
Lemma backup_result db s bp s1 :
  wf_Path db → _backup_existing_db h db s = (Ok bp, s1) →
  bp = if exists_ (files s) (locate h db) then Some (backup_path_of h db) else None.
Proof.
  intros HP. unfold _backup_existing_db. rewrite bind_run. unfold gets at 1.
  destruct (exists_ (files s) (locate h db)); cbn [negb]; [|by intros [= <- _]].
  cbv zeta. rewrite bind_run. unfold lift at 1.
  destruct (decide (parts db = [])) as [Hnil|Hne].
  { by destruct (with_suffix_no_name db
                   (suffix db +:+ ".bak_" +:+ strftime (localtime h)) Hnil) as [e ->]. }
  rewrite with_suffix_backup by done. intros H.
  apply bind_Ok in H as ([] & s2 & _ & H).
  apply bind_Ok in H as (w & s3 & _ & H). by injection H as <- _.
Qed.

(** The database block, whatever its result, keeps what exists and is
    neither at or below the database path nor at or below the backup path;
    when it returns, it has printed [db_report]. *)
Lemma restore_database_keeps db_dir db s r s' :
  wf_tree (files s) → wf_Path db →
  restore_database h db_dir db s = (r, s') →
  (∀ q n, files s !! q = Some n →
          ¬ locate h (backup_path_of h db) `prefix_of` q →
          ¬ locate h db `prefix_of` q →
          files s' !! q = Some n) ∧
  (r = Ok () → stdout s' = stdout s ++ db_report h db_dir db (files s)).
Proof.
  intros Hwf HP. unfold restore_database, db_report.
  rewrite bind_run. unfold gets at 1.
  rewrite bind_run, candidates_of.
  destruct (sorted (glob_db (files s) db_dir)) as [|first rest].
  { intros [= <- <-]. cbn [files stdout]. split; [auto|done]. }
  rewrite bind_run. destruct (_backup_existing_db h db s) as [r1 s1] eqn:E1.
  pose proof E1 as Hres.
  apply backup_frame in E1 as (Hwf1 & Ho1 & _ & _ & Hk1 & _); [|done..].
  destruct r1 as [b|e]; [|intros [= <- <-]; split; [auto|done]].
  apply backup_result in Hres; [|done].
  rewrite bind_run.
  set (s1' := (match b with
               | Some b0 => print ("Backed up existing database to " +:+ str b0)
               | None => mret ()
               end s1).2).
  assert (files s1' = files s1) as Hfs by (unfold s1'; by destruct b).
  assert (stdout s1'
          = stdout s ++ (if exists_ (files s) (locate h db)
                         then ["Backed up existing database to "
                               +:+ str (backup_path_of h db)]
                         else [])) as Hos.
  { unfold s1'. rewrite Hres, <- Ho1.
    destruct (exists_ _ _); cbn [snd stdout]; [done|]. by rewrite app_nil_r. }
  replace (match b with
           | Some b0 => print ("Backed up existing database to " +:+ str b0)
           | None => mret ()
           end s1) with (Ok (), s1') by (unfold s1'; by destruct b).
  clearbody s1'.
  rewrite bind_run.
  destruct (mkdir_parents (locate h (parent db)) s1') as [r2 s2] eqn:E2.
  apply mkdir_parents_grows in E2. pose proof E2 as (Ho2 & _ & _).
  assert (∀ q n, files s !! q = Some n →
                 ¬ locate h (backup_path_of h db) `prefix_of` q →
                 files s2 !! q = Some n) as Hk2.
  { intros q n Hq Hnb. eapply grows_keeps; [exact E2|]. rewrite Hfs. by apply Hk1. }
  destruct r2 as [[]|e]; [|intros [= <- <-]; split; [auto|done]].
  rewrite bind_run.
  destruct (copy2 first (locate h db) s2) as [r3 s3] eqn:E3.
  apply copy2_cases in E3
    as [(data & t & w & Hw & -> & _ & _ & _ & _ & ->)|(e & -> & ->)];
    [|intros [= <- <-]; split; [auto|done]].
  intros [= <- <-]. cbn [files stdout set_files]. split.
  - intros q n Hq Hnb Hnd. rewrite lookup_insert_ne; [by apply Hk2|].
    intros <-. apply Hnd. rewrite Hw. destruct (is_dir _ _); [by apply prefix_app_r|done].
  - intros _. by rewrite Ho2, Hos, <- (assoc_L (++)).
Qed.

(** The storage block, when it returns, has printed [storage_report]. *)
Lemma restore_storage_stdout storage_dir dd s s' :
  (∀ rel : path, ¬ storage_dir `prefix_of` locate h dd ++ rel) →
  restore_storage h storage_dir dd s = (Ok (), s') →
  stdout s' = stdout s ++ [storage_report storage_dir dd (files s)].
Proof.
  intros Hsep. unfold restore_storage, storage_report.
  rewrite bind_run. unfold gets at 1.
  destruct (exists_ (files s) storage_dir); [|by intros [= <-]].
  intros H. apply bind_Ok in H as ([] & s1 & E1 & H).
  apply bind_Ok in H as (copied & s2 & E2 & H).
  injection H as <-. cbn [stdout].
  pose proof (mkdir_dd_agree h storage_dir dd Hsep _ _ _ E1) as HA1.
  apply mkdir_parents_grows in E1. destruct E1 as (Ho1 & _ & _).
  pose proof (rglob_agree (files s) (files s1) storage_dir HA1) as Hperm.
  unfold _copy_tree in E2. rewrite bind_run in E2. unfold gets at 1 in E2.
  assert (∀ p, p ∈ rglob (files s1) storage_dir → storage_dir `prefix_of` p) as Hunder.
  { intros p (_ & _ & x & rel & ->)%elem_of_rglob. by apply prefix_app_r. }
  assert (length copied
          = length (filter (λ p, is_file (files s1) p = true)
                           (rglob (files s1) storage_dir))) as Hlen.
  { rewrite (copy_loop_targets _ _ Hsep _ _ _ _ _ Hunder E2).
    unfold copy_targets. simpl. by rewrite length_fmap. }
  apply copy_loop_inv in E2 as (Ho2 & _ & _ & _); [|done|done].
  rewrite Ho2, Ho1, Hlen. do 5 f_equal.
  rewrite (filter_is_file_agree (files s) (files s1)).
  - by rewrite Hperm.
  - intros p (_ & _ & x & rel & ->)%elem_of_rglob. apply HA1. by apply prefix_app_r.
Qed.

Lemma apart_storage dd db :
  apart h dd db → ∀ rel : path, ¬ storage_dir_of h `prefix_of` locate h dd ++ rel.
Proof.
  intros [Hadd _] rel Hpre. apply Hadd.
  destruct (prefix_weak_total (mkdtemp_path h) (locate h dd) (locate h dd ++ rel));
    [|by apply prefix_app_r|by left|by right].
  etrans; [|exact Hpre]. unfold storage_dir_of. by apply prefix_app_r.
Qed.


(** X15. What a restore that returns has printed: the lines of the database
    block, then the line of the storage block, both read off the extracted
    archive and the database path as they were when the block started.
    The file system is a tree in which the working directory exists; the
    temporary directory is fresh and on no branch with the data directory
    or the database's directory; the data directory and the database path
    have no [..] component. *)
Theorem restore_report args s s' archive dd db :
  sane h s → apart h dd db →
  plain (locate h dd) → plain (locate h db) →
  reaches_restore read_zip h args s archive dd db →
  main read_zip repr h args s = (Ok 0, s') →
  stdout s'
  = stdout s
    ++ db_report h (db_dir_of h) db (files (extracted h archive s))
    ++ [storage_report (storage_dir_of h) dd (files (extracted h archive s))].
Proof.
  intros Hsane Hapart _ _ Hreach Hmain.
  pose proof Hreach as (_ & _ & a & _ & Hpaths).
  destruct (restore_run read_zip repr h _ _ _ _ _ _ Hsane Hapart Hreach Hmain)
    as (_ & Hwdb & Hwf2 & _ & Hsep & s3 & s4 & E3 & E4 & -> & _ & Hf3 & _).
  pose proof (restore_database_keeps _ _ _ _ _ Hwf2 Hwdb E3) as [_ Ho3].
  pose proof (restore_storage_stdout _ _ _ _ Hsep E4) as Ho4.
  cbn [stdout set_files]. rewrite Ho4, Ho3 by done.
  assert (stdout (extracted h archive s) = stdout s) as ->.
  { destruct Hreach as (Hdry & Hopen & a' & Ha & Hpaths').
    rewrite (main_opens _ _ _ _ _ _ _ _ _ Hopen Ha Hpaths'), Hdry in Hmain.
    apply restore_steps in Hmain as (_ & Hpar & _).
    by destruct (extracted_facts h archive s Hsane Hpar) as (_ & -> & _). }
  rewrite <- (assoc_L (++)). do 3 f_equal.
  unfold storage_report.
  assert (exists_ (files s3) (storage_dir_of h)
          = exists_ (files (extracted h archive s)) (storage_dir_of h)) as ->.
  { unfold exists_. rewrite Hf3; [done|]. unfold storage_dir_of. by apply prefix_app_r. }
  destruct (exists_ _ _); [|done]. do 3 f_equal.
  apply (storage_files_length h). exact Hf3.
Qed.

End WholeRun.

Section Obstacles.
Variable h : Host.
Implicit Types (m : tree) (p q d : path) (s : state) (db dd : Path).

(** Directory creation stops at a regular file on the way, leaving the file
    system as it was: with FileExistsError when the file is at the path
    itself, with NotADirectoryError when it is above it. *)
Lemma makedirs_from_blocked rest : ∀ pre rest' s data t,
  (∀ q, pre `prefix_of` q → q `prefix_of` pre ++ rest → q ≠ pre ++ rest →
        files s !! q = Some Dir) →
  files s !! (pre ++ rest : path) = Some (File data t) →
  makedirs_from pre (rest ++ rest') s
  = (Raise (if decide (rest' = []) then FileExistsError else NotADirectoryError), s).
Proof.
  induction rest as [|x rest IH]; intros pre rest' s data t Hdirs Hfile.
  - rewrite app_nil_r in Hfile. cbn [List.app].
    destruct rest' as [|y rest']; cbn [makedirs_from].
    + unfold mkdir_one. by rewrite Hfile.
    + rewrite bind_run. unfold mkdir_one. by rewrite Hfile.
  - cbn [List.app makedirs_from]. rewrite bind_run. unfold mkdir_one at 1.
    rewrite (Hdirs pre); [|done|by apply prefix_app_r|]; last first.
    { intros E. apply (f_equal length) in E. rewrite length_app in E.
      simpl in E. lia. }
    apply (IH (pre ++ [x]) rest' s data t).
    + intros q Hq1 Hq2 Hne. rewrite <- (assoc_L (++)) in Hq2, Hne. apply Hdirs; try done.
      etrans; [|exact Hq1]. by apply prefix_app_r.
    + by rewrite <- (assoc_L (++)).
Qed.

Lemma mkdir_parents_blocked p rest' s data t :
  wf_tree (files s) → files s !! p = Some (File data t) →
  mkdir_parents (p ++ rest') s
  = (Raise (if decide (rest' = []) then FileExistsError else NotADirectoryError), s).
Proof.
  intros Hwf Hfile. unfold mkdir_parents.
  apply (makedirs_from_blocked p [] rest' s data t); [|done].
  intros q _ Hq Hne. cbn [List.app] in Hq, Hne.
  eapply (wf_prefix_dir _ q p); [done| |exact Hq|done]. by rewrite Hfile.
Qed.

(** X13. With the archive's storage tree extracted, a regular file where the
    data directory should be, or where a directory above it should be,
    stops the storage block before anything is copied: it raises
    FileExistsError in the first case and NotADirectoryError in the second,
    prints nothing and leaves the file system as it was. *)
Theorem storage_blocked_by_file storage_dir dd s (above below_ : path) data t :
  wf_tree (files s) → is_Some (files s !! storage_dir) →
  locate h dd = above ++ below_ →
  files s !! above = Some (File data t) →
  restore_storage h storage_dir dd s
  = (Raise (if decide (below_ = []) then FileExistsError else NotADirectoryError), s).
Proof.
  intros Hwf [n Hn] Hloc Hfile. unfold restore_storage.
  rewrite bind_run. unfold gets at 1. rewrite (exists_Some _ _ _ Hn).
  rewrite bind_run, Hloc.
  by rewrite (mkdir_parents_blocked above below_ s data t Hwf Hfile).
Qed.

End Obstacles.

Section CopySource.
Variables (source dest : path).
Hypothesis Hsep : ∀ rel : path, ¬ source `prefix_of` dest ++ rel.


End CopySource.

(* ===================================================================== *)
(** * The further properties on the runs of the scenario *)
(* ===================================================================== *)

Section FurtherRuns.
Import Scenario Obstacle.

Local Ltac by_compute := vm_compute; reflexivity.
Local Ltac by_decide := apply (bool_decide_unpack _); vm_compute; exact I.

Lemma exit_code_0_or_2_witness :
  (run (args_for "good.zip" false) tree_with_db).1 = Ok 0 ∧ (0 = 0 ∨ 0 = 2).
Proof.
  assert (H : (run (args_for "good.zip" false) tree_with_db).1 = Ok 0) by by_compute.
  split; [exact H|].
  exact (exit_code_0_or_2 read_zip repr host _ _ 0 H).
Defined.

Lemma not_an_archive_raises_witness :
  run (args_for "." false) base_tree = (Raise IsADirectoryError, start base_tree) ∧
  run (args_for "notes.txt" false) base_tree = (Raise BadZipFile, start base_tree).
Proof.
  split.
  - apply (proj1 (not_an_archive_raises read_zip repr host (args_for "." false)
                    (start base_tree) (Path_of ".") ltac:(by_compute))).
    by_compute.
  - apply (proj2 (not_an_archive_raises read_zip repr host (args_for "notes.txt" false)
                    (start base_tree) (Path_of "notes.txt") ltac:(by_compute))
             (bytes_of "not a zip") 7); by_compute.
Defined.

Lemma unexpandable_tilde_raises_witness :
  run (args_for "~ghost/good.zip" false) base_tree
  = (Raise RuntimeError, start base_tree) ∧
  run {| backup := "good.zip"; app_arg := None;
         data_dir_arg := Some "~ghost/data"; dry_run := true |} base_tree
  = (Raise RuntimeError, start base_tree).
Proof.
  split.
  - apply (proj1 (unexpandable_tilde_raises read_zip repr host
                    (args_for "~ghost/good.zip" false) (start base_tree))
             RuntimeError).
    by_compute.
  - apply (proj2 (unexpandable_tilde_raises read_zip repr host _ (start base_tree))
             archive_good crm RuntimeError).
    + exists (Path_of "good.zip"), (bytes_of "G"), 7.
      split; [by_compute|]. split; by_compute.
    + by_compute.
    + by_compute.
Defined.

Lemma exit_2_messages_witness :
  stderr (run (args_for "backups/absent.zip" false) base_tree).2
  = ["Backup archive not found: backups/absent.zip"] ∧
  stderr (run (args_for "unmarked.zip" false) base_tree).2
  = ["Unable to detect app type from backup. Use --app crm|sales."].
Proof.
  split.
  - apply (proj1 (exit_2_messages read_zip repr host (args_for "backups/absent.zip" false)
                    (start base_tree)) (Path_of "backups/absent.zip"));
      [by_compute|by_decide|by_compute].
  - apply (proj2 (exit_2_messages read_zip repr host (args_for "unmarked.zip" false)
                    (start base_tree))).
    exists archive_unmarked. split; [|split; by_compute].
    exists (Path_of "unmarked.zip"), (bytes_of "U"), 7.
    split; [by_compute|]. split; by_compute.
Defined.


Lemma detect_app_by_name_set_witness :
  _detect_app archive_shuffled = _detect_app archive_good.
Proof.
  apply detect_app_by_name_set. intros nm. unfold archive_shuffled, namelist.
  rewrite fmap_app, fmap_reverse, elem_of_app, elem_of_reverse. tauto.
Defined.

Lemma backup_nameless_raises_witness :
  _backup_existing_db host (Path_of "") (start base_tree)
  = (Raise ValueError, start base_tree).
Proof.
  apply backup_nameless_raises; [by_compute|by_decide].
Defined.


Lemma default_database_in_data_dir_witness :
  parent (Path_of "/mnt/restore/ps_crm.db") = Path_of "/mnt/restore" ∧
  name (Path_of "/srv/sales/ps_sales.db") = "ps_sales.db".
Proof.
  split.
  - apply (proj1 (default_database_in_data_dir host (Some "/mnt/restore")
                    (Path_of "/mnt/restore") (Path_of "/mnt/restore/ps_crm.db"))
             ltac:(by_compute) ltac:(by_compute)).
  - apply (proj2 (default_database_in_data_dir host None
                    (Path_of "/srv/sales") (Path_of "/srv/sales/ps_sales.db"))
             ltac:(left; by_compute) ltac:(by_compute)).
Defined.

Lemma storage_apart_from_crm (rel : path) :
  ¬ storage_dir_of host `prefix_of` locate host crm_dir ++ rel.
Proof. exact (apart_storage host crm_dir crm_db apart_crm rel). Qed.




Lemma restore_report_witness :
  stdout (run (args_for "good.zip" false) tree_with_db).2
  = [ "Backed up existing database to /srv/crm/ps_crm.db.bak_20240101_120000";
      "Restored database to /srv/crm/ps_crm.db";
      "Restored 2 storage files into /srv/crm" ].
Proof.
  rewrite (restore_report read_zip repr host (args_for "good.zip" false)
             (start tree_with_db) (run (args_for "good.zip" false) tree_with_db).2
             archive_good crm_dir crm_db sane_with_db apart_crm
             plain_crm_dir plain_crm_db
             (reaches_good tree_with_db 7 ltac:(by_compute)) ltac:(by_compute)).
  by_compute.
Defined.

Lemma storage_blocked_by_file_witness :
  restore_storage host (storage_dir_of host) crm_dir
    (extracted host archive_good (start tree_crm_file))
  = (Raise FileExistsError, extracted host archive_good (start tree_crm_file)).
Proof.
  apply (storage_blocked_by_file host (storage_dir_of host) crm_dir
           (extracted host archive_good (start tree_crm_file))
           ["srv"; "crm"] [] (bytes_of "in the way") 3).
  - apply wf_tree_check_sound. by_compute.
  - by_decide.
  - by_compute.
  - by_compute.
Defined.

End FurtherRuns.
